(** * The course reader of ABDashboard: progress, bookmarks, content resolution

    A shallow embedding of [frontend/src/pages/CourseReader.tsx]: the React
    component's state is a record, its effects and handlers are commands of a
    small state-and-exception monad, the backend and the browser's
    [localStorage] are explicit inputs.  JavaScript numbers that take part in
    rounding are IEEE-754 binary64 values, modelled with the Standard
    Library's [SpecFloat].  What the reader calls and what reads its
    storage is embedded with it: [updateCourseProgress] and [enrollCourse]
    of [contexts/AppContext.tsx], and the course lists, the page count and
    the certificate effect of [pages/Dashboard.tsx]. *)

From Stdlib Require Import ZArith Reals Lia Lra.
From Stdlib Require Import SpecFloat Sorted.
From stdpp Require Import gmap strings list pretty.

Local Open Scope Z_scope.

(** ** JavaScript numbers *)

Module JSNumber.

(** binary64: 53 bits of precision, infinities at exponent 1024. *)
Definition prec : Z := 53.
Definition emax : Z := 1024.

Definition number : Type := spec_float.

(** An integer count (an array length, a [Set]'s size, a literal) as a
    number. *)
Definition of_Z (z : Z) : number := binary_normalize prec emax z 0 false.

(** [x / y] and [x * y]. *)
Definition div (x y : number) : number := SFdiv prec emax x y.
Definition mul (x y : number) : number := SFmul prec emax x y.

(** [Math.round(x)]: the integer nearest to [x], halves going up, that is
    floor(x + 1/2) taken exactly.  [Math.round] hands NaN and the
    infinities back unchanged; they have no integer value and are sent to
    [0] here ([percent_finite] shows that the reader does not produce
    them). *)
Definition Math_round (x : number) : Z :=
  match x with
  | S754_finite s m e =>
      let n := if s then Z.neg m else Z.pos m in
      if 0 <=? e then n * 2 ^ e
      else (2 * n + 2 ^ (- e)) `div` 2 ^ (1 - e)
  | _ => 0
  end.

End JSNumber.

(** The real number [m * 2 ^ e]. *)
Definition F2R (m e : Z) : R := (IZR m * powerRZ 2 e)%R.

(** [located x m e l]: where the real [x] lies in the interval from
    [m * 2 ^ e] to [(m + 1) * 2 ^ e], as a [location] tells it: on its lower
    end, below, on or above its middle. *)
Definition located (x : R) (m e : Z) (l : location) : Prop :=
  match l with
  | loc_Exact => x = F2R m e
  | loc_Inexact Lt => (F2R m e < x < (IZR m + / 2) * powerRZ 2 e)%R
  | loc_Inexact Eq => x = ((IZR m + / 2) * powerRZ 2 e)%R
  | loc_Inexact Gt =>
      ((IZR m + / 2) * powerRZ 2 e < x < (IZR m + 1) * powerRZ 2 e)%R
  end.

(** [rounded x M E]: the number of mantissa [M] and exponent [E] is what
    rounding [x] to 53 bits gives: [x] lies at location [l] in the unit
    interval above [m * 2 ^ e], [m] has 53 bits, and [M * 2 ^ E] is the end
    of that interval that [round_nearest_even] chooses. *)
Definition rounded (x : R) (M E : Z) : Prop :=
  exists m e l,
    located x m e l /\ 2 ^ 52 <= m < 2 ^ 53 /\
    F2R M E = F2R (round_nearest_even m l) e /\
    2 ^ 52 <= M < 2 ^ 53 /\ e <= E <= e + 1.

(** ** Data model *)

(** [type Topic = { _id; title; images }] *)
Record Topic := mkTopic {
  _id : string;
  title : string;
  images : list string
}.

(** [type Course = { _id; title; topics; price?; userHasAccess? }].  The
    backend may leave [topics] out, so it is optional here as well. *)
Record Course := mkCourse {
  course_id : string;
  course_title : string;
  course_topics : option (list Topic);
  price : option Z;
  userHasAccess : option bool
}.

(** [{ topicId, imageIndex }] *)
Record Bookmark := mkBookmark {
  topicId : string;
  imageIndex : Z
}.

(** The text kept under a [localStorage] key, identified with what
    [JSON.parse] makes of it: [Stored v] is the text [JSON.stringify v], and
    [Malformed raw] is a text that [JSON.parse] rejects with a SyntaxError. *)
Inductive cached (A : Type) : Type :=
  | Malformed (raw : string)
  | Stored (v : A).
Arguments Malformed {A} raw.
Arguments Stored {A} v.

(** [if (ls)]: a string is truthy unless it is empty. *)
Definition truthy {A} (ls : cached A) : bool :=
  match ls with
  | Malformed raw => if decide (raw = "") then false else true
  | Stored _ => true
  end.

(** The keys the reader uses, each family indexed by the course id:
    [notes_<id>], [bookmark_<id>], [viewedPages_<id>], [completedTopics_<id>]
    and [overallProgress_<id>]. *)
Record Storage := mkStorage {
  notes_ : gmap string (cached (gmap string (gmap Z string)));
  bookmark_ : gmap string (cached Bookmark);
  viewedPages_ : gmap string (cached (gmap string (list Z)));
  completedTopics_ : gmap string (cached (gmap string bool));
  overallProgress_ : gmap string string
}.

(** The component's state: the [useState] cells, the browser's storage and
    the toasts shown so far (by title, oldest first). *)
Record Reader := mkReader {
  course : option Course;
  topics : list Topic;
  activeTopicIndex : nat;
  currentPage : Z;
  progress : gmap string Z;
  notes : gmap string (gmap Z string);
  viewedPages : gmap string (gset Z);
  completedTopics : gmap string bool;
  localStorage : Storage;
  toasts : list string
}.

(** What a call to the backend comes to: the request, or reading the
    response, throws ([Failed]), or a payload is read off ([Returned]). *)
Inductive response (A : Type) : Type :=
  | Failed
  | Returned (a : A).
Arguments Failed {A}.
Arguments Returned {A} a.

(** The backend as seen from one course's reader. *)
Record Remote := mkRemote {
  getCourse : response (option Course);
  getProgress : response (option (gmap string Z));
  getNotes : response (option (gmap string (gmap Z string)));
  getBookmark : response (option Bookmark);
  postBookmark : response unit;
  postComplete : response unit
}.

(** ** State updates *)

Definition set_course (v : option Course) (s : Reader) : Reader :=
  mkReader v (topics s) (activeTopicIndex s) (currentPage s) (progress s)
    (notes s) (viewedPages s) (completedTopics s) (localStorage s) (toasts s).

Definition set_topics (v : list Topic) (s : Reader) : Reader :=
  mkReader (course s) v (activeTopicIndex s) (currentPage s) (progress s)
    (notes s) (viewedPages s) (completedTopics s) (localStorage s) (toasts s).

Definition set_activeTopicIndex (v : nat) (s : Reader) : Reader :=
  mkReader (course s) (topics s) v (currentPage s) (progress s)
    (notes s) (viewedPages s) (completedTopics s) (localStorage s) (toasts s).

Definition set_currentPage (v : Z) (s : Reader) : Reader :=
  mkReader (course s) (topics s) (activeTopicIndex s) v (progress s)
    (notes s) (viewedPages s) (completedTopics s) (localStorage s) (toasts s).

Definition set_progress (v : gmap string Z) (s : Reader) : Reader :=
  mkReader (course s) (topics s) (activeTopicIndex s) (currentPage s) v
    (notes s) (viewedPages s) (completedTopics s) (localStorage s) (toasts s).

Definition set_notes (v : gmap string (gmap Z string)) (s : Reader) : Reader :=
  mkReader (course s) (topics s) (activeTopicIndex s) (currentPage s)
    (progress s) v (viewedPages s) (completedTopics s) (localStorage s)
    (toasts s).

Definition set_viewedPages (v : gmap string (gset Z)) (s : Reader) : Reader :=
  mkReader (course s) (topics s) (activeTopicIndex s) (currentPage s)
    (progress s) (notes s) v (completedTopics s) (localStorage s) (toasts s).

Definition set_completedTopics (v : gmap string bool) (s : Reader) : Reader :=
  mkReader (course s) (topics s) (activeTopicIndex s) (currentPage s)
    (progress s) (notes s) (viewedPages s) v (localStorage s) (toasts s).

Definition set_localStorage (v : Storage) (s : Reader) : Reader :=
  mkReader (course s) (topics s) (activeTopicIndex s) (currentPage s)
    (progress s) (notes s) (viewedPages s) (completedTopics s) v (toasts s).

Definition set_toasts (v : list string) (s : Reader) : Reader :=
  mkReader (course s) (topics s) (activeTopicIndex s) (currentPage s)
    (progress s) (notes s) (viewedPages s) (completedTopics s)
    (localStorage s) v.

(** [localStorage.setItem] on each family of keys. *)
Definition setItem_bookmark (courseId : string) (v : Bookmark) (ls : Storage)
  : Storage :=
  mkStorage (notes_ ls) (<[courseId := Stored v]> (bookmark_ ls))
    (viewedPages_ ls) (completedTopics_ ls) (overallProgress_ ls).

Definition setItem_viewedPages (courseId : string)
    (v : gmap string (list Z)) (ls : Storage) : Storage :=
  mkStorage (notes_ ls) (bookmark_ ls)
    (<[courseId := Stored v]> (viewedPages_ ls)) (completedTopics_ ls)
    (overallProgress_ ls).

Definition setItem_completedTopics (courseId : string)
    (v : gmap string bool) (ls : Storage) : Storage :=
  mkStorage (notes_ ls) (bookmark_ ls) (viewedPages_ ls)
    (<[courseId := Stored v]> (completedTopics_ ls)) (overallProgress_ ls).

Definition setItem_overallProgress (courseId : string) (v : string)
    (ls : Storage) : Storage :=
  mkStorage (notes_ ls) (bookmark_ ls) (viewedPages_ ls)
    (completedTopics_ ls) (<[courseId := v]> (overallProgress_ ls)).

(** ** Effects: state threaded through, exceptions carried along

    A command runs on the component's state and either completes with a
    value or throws; the state updates made before a throw stay made, as
    [setState] calls and storage writes do. *)

Inductive completion (A : Type) : Type :=
  | Done (a : A)
  | Thrown.
Arguments Done {A} a.
Arguments Thrown {A}.

Definition eff (A : Type) : Type := Reader → completion A * Reader.

#[global] Instance eff_ret : MRet eff :=
  λ A (a : A) s, (Done a, s).

#[global] Instance eff_bind : MBind eff :=
  λ A B (k : A → eff B) (m : eff A) s,
    match m s with
    | (Done a, s') => k a s'
    | (Thrown, s') => (Thrown, s')
    end.

Definition throw {A} : eff A := λ s, (Thrown, s).

(** [try { m } catch { h }] *)
Definition try_catch {A} (m h : eff A) : eff A :=
  λ s, match m s with
       | (Thrown, s') => h s'
       | r => r
       end.

Definition get : eff Reader := λ s, (Done s, s).

Definition modify (f : Reader → Reader) : eff unit := λ s, (Done tt, f s).

Definition skip : eff unit := mret tt.

(** [await apiClient.get(...)] / [await apiClient.post(...)] *)
Definition await {A} (r : response A) : eff A :=
  match r with
  | Failed => throw
  | Returned a => mret a
  end.

(** [JSON.parse(ls)] *)
Definition JSON_parse {A} (ls : cached A) : eff A :=
  match ls with
  | Malformed _ => throw
  | Stored v => mret v
  end.

Definition toast (title : string) : eff unit :=
  modify (λ s, set_toasts (toasts s ++ [title]) s).

(** Whether a run came to its end without an exception escaping. *)
Definition completes {A} (r : completion A * Reader) : bool :=
  match r.1 with
  | Done _ => true
  | Thrown => false
  end.

(** ** Content resolver *)

Definition dquote : string :=
  String (Ascii.Ascii false true false false false true false false) "".

(** [Array.from({ length }, (_, i) => `/course/${first + i}.jpeg`)] *)
Definition courseImages (length first : nat) : list string :=
  (λ i : nat, "/course/" +:+ pretty (first + i)%nat +:+ ".jpeg")
    <$> seq 0 length.

Definition buildFallbackTopics : list Topic :=
  [ mkTopic "t1" "Introduction" (courseImages 17 2);
    mkTopic "t2" "Understanding Doji Candles" (courseImages 4 19);
    mkTopic "t3" ("The " +:+ dquote +:+ "Dicy Reversal" +:+ dquote +:+ " Setup")
      (courseImages 7 23);
    mkTopic "t4" "Entry & Exit Rules" (courseImages 5 30);
    mkTopic "t5" "Risk Management" (courseImages 13 35);
    mkTopic "t6" "Practical Examples" (courseImages 5 48);
    mkTopic "t7" "Final Thoughts" (courseImages 4 53);
    mkTopic "t8" "Author's Message" (courseImages 2 57) ].

Definition fallbackCourse (courseId : string) : Course :=
  mkCourse courseId "Option Analysis Strategy by A. Bhattacharjee"
    (Some buildFallbackTopics) (Some 1499) (Some true).

(** [ts.forEach((t) => (p[t._id] = completedTopics[t._id] ? 100 : 0))] on a
    fresh [p]. *)
Definition initialProgress (completed : gmap string bool) (ts : list Topic)
  : gmap string Z :=
  foldl (λ p t, <[_id t := if default false (completed !! _id t)
                           then 100 else 0]> p) ∅ ts.

(** The two fallback blocks of the load effect: the fallback course, its
    topics, and a progress entry per topic. *)
Definition useFallback (courseId : string) (closure : Reader) : eff unit :=
  let fallback := fallbackCourse courseId in
  modify (set_course (Some fallback));;
  modify (set_topics (default [] (course_topics fallback)));;
  modify (set_progress
            (initialProgress (completedTopics closure)
               (default [] (course_topics fallback)))).

(** [const ls = localStorage.getItem(`notes_${courseId}`);
     if (ls) setNotes(JSON.parse(ls));] *)
Definition restoreNotes (courseId : string) : eff unit :=
  s ← get;
  match notes_ (localStorage s) !! courseId with
  | Some ls =>
      if truthy ls then n ← JSON_parse ls; modify (set_notes n) else skip
  | None => skip
  end.

(** [!courseData.topics || courseData.topics.length === 0] *)
Definition noTopics (courseData : Course) : bool :=
  match course_topics courseData with
  | None | Some [] => true
  | Some (_ :: _) => false
  end.

(** The effect that loads the course and its topics (on [courseId]). *)
Definition loadCourse (api : Remote) (courseId : string) : eff unit :=
  if decide (courseId = "") then skip else
  closure ← get;
  try_catch
    (res ← await (getCourse api);
     match res with
     | None => useFallback courseId closure
     | Some courseData =>
         let courseData :=
           if noTopics courseData
           then mkCourse (course_id courseData) (course_title courseData)
                  (Some buildFallbackTopics) (price courseData)
                  (userHasAccess courseData)
           else courseData in
         modify (set_course (Some courseData));;
         modify (set_topics (default [] (course_topics courseData)));;
         try_catch
           (progRes ← await (getProgress api);
            modify (set_progress (default ∅ progRes)))
           (modify (set_progress
                      (initialProgress (completedTopics closure)
                         (default [] (course_topics courseData)))));;
         try_catch
           (notesRes ← await (getNotes api);
            modify (set_notes (default ∅ notesRes)))
           (restoreNotes courseId)
     end)
    (useFallback courseId closure;;
     restoreNotes courseId).

(** [const isLocked = !!course && course.userHasAccess === false;] *)
Definition isLocked (s : Reader) : bool :=
  match course s with
  | Some c => bool_decide (userHasAccess c = Some false)
  | None => false
  end.

(** [const activeTopic = topics[activeTopicIndex];] *)
Definition activeTopic (s : Reader) : option Topic :=
  topics s !! activeTopicIndex s.

(** [const totalPages = activeTopic?.images?.length ?? 0;] *)
Definition totalPages (s : Reader) : Z :=
  from_option (λ t, Z.of_nat (length (images t))) 0 (activeTopic s).

(** The effect that restores [viewedPages] and [completedTopics] from
    [localStorage] once topics are there; each [JSON.parse] sits in its own
    [try]. *)
Definition loadPersisted (courseId : string) : eff unit :=
  s ← get;
  if bool_decide (courseId = "") || bool_decide (length (topics s) = 0%nat)
  then skip else
  match viewedPages_ (localStorage s) !! courseId with
  | Some vp =>
      if truthy vp then
        try_catch
          (parsed ← JSON_parse vp;
           modify (set_viewedPages (list_to_set <$> parsed)))
          (modify (set_viewedPages ∅))
      else skip
  | None => skip
  end;;
  match completedTopics_ (localStorage s) !! courseId with
  | Some ct =>
      if truthy ct then
        try_catch
          (parsed ← JSON_parse ct;
           modify (set_completedTopics parsed);;
           modify (λ s',
             let marked := filter (λ kv, kv.2 = true) parsed in
             set_progress (((λ _ : bool, 100) <$> marked) ∪ progress s') s'))
          skip
      else skip
  | None => skip
  end.

(** ** Bookmark manager *)

Definition saveBookmark (api : Remote) (courseId topicId : string)
    (imageIndex : Z) : eff unit :=
  try_catch
    (await (postBookmark api))
    (modify (λ s, set_localStorage
                    (setItem_bookmark courseId (mkBookmark topicId imageIndex)
                       (localStorage s)) s)).

(** [topics.findIndex((t) => t._id === bm.topicId)], then the two setters
    when the index is not [-1]. *)
Definition applyBookmark (closure : Reader) (bm : Bookmark) : eff unit :=
  match list_find (λ t, _id t = topicId bm) (topics closure) with
  | Some (topicIndex, _) =>
      modify (set_activeTopicIndex topicIndex);;
      modify (set_currentPage (imageIndex bm))
  | None => skip
  end.

(** The effect that loads the bookmark (on [topics]). *)
Definition loadBookmark (api : Remote) (courseId : string) : eff unit :=
  closure ← get;
  try_catch
    (bm ← await (getBookmark api);
     match bm with
     | Some bm => applyBookmark closure bm
     | None => skip
     end)
    (match bookmark_ (localStorage closure) !! courseId with
     | Some ls =>
         if truthy ls then bm ← JSON_parse ls; applyBookmark closure bm
         else skip
     | None => skip
     end).

(** The effect that saves the bookmark on every page change. *)
Definition autoSaveBookmark (api : Remote) (courseId : string) : eff unit :=
  s ← get;
  match activeTopic s with
  | None => skip
  | Some t => saveBookmark api courseId (_id t) (currentPage s)
  end.

(** ** Progress tracker *)

(** [setViewedPages((prev) => { const updated = f(prev); localStorage.setItem(
    `viewedPages_${courseId}`, <updated, each set as an array>); return
    updated; })], the shape of every update of [viewedPages]. *)
Definition updateViewedPages (courseId : string)
    (f : gmap string (gset Z) → gmap string (gset Z)) : eff unit :=
  modify (λ s,
    let updated := f (viewedPages s) in
    set_localStorage
      (setItem_viewedPages courseId (elements <$> updated) (localStorage s))
      (set_viewedPages updated s)).

(** [setCompletedTopics((prev) => { const copy = { ...prev, [topicId]: true };
    localStorage.setItem(...); return copy; })] *)
Definition completeTopic (courseId topicId : string) : eff unit :=
  modify (λ s,
    let copy := <[topicId := true]> (completedTopics s) in
    set_localStorage
      (setItem_completedTopics courseId copy (localStorage s))
      (set_completedTopics copy s)).

(** The update of the page-tracking effect: copy the sets, make sure the
    topic has one, add the page. *)
Definition markPageViewed (topicId : string) (pageIndex : Z)
    (prev : gmap string (gset Z)) : gmap string (gset Z) :=
  <[topicId := default ∅ (prev !! topicId) ∪ {[pageIndex]}]> prev.

(** The effect that records the page shown (on [currentPage], [activeTopic]). *)
Definition trackPage (courseId : string) : eff unit :=
  s ← get;
  match activeTopic s with
  | None => skip
  | Some t =>
      updateViewedPages courseId (markPageViewed (_id t) (currentPage s))
  end.

(** [new Set(topic.images.map((_, i) => i))] *)
Definition allPages (topic : Topic) : gset Z :=
  list_to_set (Z.of_nat <$> seq 0 (length (images topic))).

(** [updated[topicId] = new Set(topic.images.map((_, i) => i))] on a copy. *)
Definition fillTopic (topicId : string) (topic : Topic)
    (prev : gmap string (gset Z)) : gmap string (gset Z) :=
  <[topicId := allPages topic]> prev.

(** The loop of [weightedProgress]: the two running sums. They are sums of
    array lengths and set sizes, which doubles hold exactly below [2 ^ 53];
    they are kept as natural numbers and enter floating point at the
    division. *)
Definition countPages (viewedPages : gmap string (gset Z))
    (acc : nat * nat) (topic : Topic) : nat * nat :=
  let pageCount := length (images topic) in
  let viewed := from_option size 0%nat (viewedPages !! _id topic) in
  (acc.1 + pageCount, acc.2 + viewed)%nat.

(** [(viewedCount / totalPages) * 100] *)
Definition percent (viewedCount totalPages : nat) : JSNumber.number :=
  JSNumber.mul
    (JSNumber.div (JSNumber.of_Z (Z.of_nat viewedCount))
                  (JSNumber.of_Z (Z.of_nat totalPages)))
    (JSNumber.of_Z 100).

Definition weightedProgress (topics : list Topic)
    (viewedPages : gmap string (gset Z)) : Z :=
  let '(totalPages, viewedCount) :=
    foldl (countPages viewedPages) (0%nat, 0%nat) topics in
  if decide (totalPages = 0%nat) then 0
  else JSNumber.Math_round (percent viewedCount totalPages).

(** The effect that mirrors the weighted progress (on [weightedProgress]);
    the dashboard context and the backend take it without answering. *)
Definition syncProgress (courseId : string) : eff unit :=
  s ← get;
  if decide (courseId = "") then skip else
  modify (λ s', set_localStorage
                  (setItem_overallProgress courseId
                     (pretty (weightedProgress (topics s) (viewedPages s)))
                     (localStorage s')) s').

(** The handler of ``Mark Topic Complete''. *)
Definition markTopicComplete (api : Remote) (courseId topicId : string)
  : eff unit :=
  closure ← get;
  modify (λ s, set_progress (<[topicId := 100]> (progress s)) s);;
  completeTopic courseId topicId;;
  let topic := snd <$> list_find (λ t, _id t = topicId) (topics closure) in
  match topic with
  | Some topic => updateViewedPages courseId (fillTopic topicId topic)
  | None => skip
  end;;
  try_catch (await (postComplete api)) skip;;
  toast "✔ Topic Completed";;
  let nextIndex := (activeTopicIndex closure + 1)%nat in
  if decide (nextIndex < length (topics closure))%nat then
    modify (set_activeTopicIndex nextIndex);;
    modify (set_currentPage 0)
  else
    toast "🎉 Course Completed".

(** The effect that completes a topic when its last page is reached (on
    [currentPage], [activeTopic]). *)
Definition autoComplete (api : Remote) (courseId : string) : eff unit :=
  closure ← get;
  match activeTopic closure with
  | None => skip
  | Some t =>
      let lastPage := Z.of_nat (length (images t)) - 1 in
      if bool_decide (currentPage closure = lastPage)
         && bool_decide (default 0 (progress closure !! _id t) < 100)
      then
        modify (λ s, set_progress (<[_id t := 100]> (progress s)) s);;
        updateViewedPages courseId (fillTopic (_id t) t);;
        completeTopic courseId (_id t);;
        try_catch (await (postComplete api)) skip;;
        toast "🎉 Topic Completed"
      else skip
  end.

(** ** Navigation *)

(** Prev: [setCurrentPage((p) => Math.max(0, p - 1))] *)
Definition prevPage : eff unit :=
  modify (λ s, set_currentPage (Z.max 0 (currentPage s - 1)) s).

(** Next: [setCurrentPage((p) => Math.min(totalPages - 1, p + 1))] *)
Definition nextPage : eff unit :=
  closure ← get;
  modify (λ s, set_currentPage
                 (Z.min (totalPages closure - 1) (currentPage s + 1)) s).

(** A click on a topic of the sidebar. *)
Definition selectTopic (idx : nat) : eff unit :=
  modify (set_activeTopicIndex idx);;
  modify (set_currentPage 0).

(** What React runs after a render in which [currentPage] or [activeTopic]
    changed, in the order the effects are declared. Each of the three reads
    only cells that the ones before it leave alone, so running them one
    after the other on the live state is running them on the state of that
    render. *)
Definition pageEffects (api : Remote) (courseId : string) : eff unit :=
  autoSaveBookmark api courseId;;
  trackPage courseId;;
  autoComplete api courseId.

(** The state of a reader that has just been mounted. *)
Definition emptyStorage : Storage := mkStorage ∅ ∅ ∅ ∅ ∅.

Definition mount (ls : Storage) : Reader :=
  mkReader None [] 0%nat 0 ∅ ∅ ∅ ∅ ls [].

(** The calls of the progress tracker, for sequences of them. *)
Inductive call : Type :=
  | MarkPageViewed (topicId : string) (pageIndex : Z)
  | MarkTopicComplete (topicId : string).

(** ** Notions used in the statements *)

(** The catalog gave no usable course: the request failed, no course came
    back, or the course came without topics. *)
Definition noRemoteTopics (r : response (option Course)) : Prop :=
  match r with
  | Failed | Returned None => True
  | Returned (Some courseData) => noTopics courseData = true
  end.

(** The images numbered [first] to [last], both included. *)
Definition imagesBetween (first last : nat) : list string :=
  (λ k : nat, "/course/" +:+ pretty k +:+ ".jpeg")
    <$> seq first (last + 1 - first).

(** Σ pageCount(t) and Σ |viewedPages[t]| over the topics of a course. *)
Definition pageTotal (ts : list Topic) : nat :=
  sum_list ((λ t, length (images t)) <$> ts).

Definition viewedTotal (ts : list Topic) (vp : gmap string (gset Z)) : nat :=
  sum_list ((λ t, from_option size 0%nat (vp !! _id t)) <$> ts).

(** [n / d] rounded to the nearest integer, halves going up ([0 < d]). *)
Definition roundHalfUp (n d : Z) : Z := (2 * n + d) `div` (2 * d).

(** One call of the progress tracker. *)
Definition runCall (api : Remote) (courseId : string) (c : call) : eff unit :=
  match c with
  | MarkPageViewed topicId pageIndex =>
      updateViewedPages courseId (markPageViewed topicId pageIndex)
  | MarkTopicComplete topicId => markTopicComplete api courseId topicId
  end.

(** The values of [weightedProgress] along a sequence of calls: before the
    first call and after each one. *)
Fixpoint progressTrace (api : Remote) (courseId : string)
    (calls : list call) (s : Reader) : list Z :=
  match calls with
  | [] => [weightedProgress (topics s) (viewedPages s)]
  | c :: calls' =>
      weightedProgress (topics s) (viewedPages s)
        :: progressTrace api courseId calls' (runCall api courseId c s).2
  end.

(** A call with valid arguments: a page index within the range of the topic
    it names. *)
Definition validCall (ts : list Topic) (c : call) : Prop :=
  match c with
  | MarkPageViewed topicId pageIndex =>
      ∃ t, t ∈ ts ∧ _id t = topicId ∧
           0 ≤ pageIndex < Z.of_nat (length (images t))
  | MarkTopicComplete _ => True
  end.

(** The invariant of the data model: the pages viewed of a topic are page
    indices of that topic. *)
Definition pagesInRange (ts : list Topic) (vp : gmap string (gset Z)) : Prop :=
  ∀ t, t ∈ ts → ∀ p, p ∈ default ∅ (vp !! _id t) →
    0 ≤ p < Z.of_nat (length (images t)).

(** ** Notes *)

Definition setItem_notes (courseId : string)
    (v : gmap string (gmap Z string)) (ls : Storage) : Storage :=
  mkStorage (<[courseId := Stored v]> (notes_ ls)) (bookmark_ ls)
    (viewedPages_ ls) (completedTopics_ ls) (overallProgress_ ls).

(** [handleNoteChange]: [copy[topicId] = copy[topicId] || {};
    copy[topicId][imageIndex] = text;] on a copy of the notes, which is
    written to [localStorage] and becomes the state. *)
Definition handleNoteChange (courseId topicId : string) (imageIndex : Z)
    (text : string) : eff unit :=
  modify (λ s,
    let copy :=
      <[topicId := <[imageIndex := text]> (default ∅ (notes s !! topicId))]>
        (notes s) in
    set_localStorage (setItem_notes courseId copy (localStorage s))
      (set_notes copy s)).

(** ** The controls of the reader *)

(** ``Next Topic'': [setActiveTopicIndex(activeTopicIndex + 1);
    setCurrentPage(0);] *)
Definition nextTopic : eff unit :=
  closure ← get;
  modify (set_activeTopicIndex (activeTopicIndex closure + 1));;
  modify (set_currentPage 0).

Inductive click : Type :=
  | Prev
  | Next
  | NextTopic
  | SidebarTopic (idx : nat)
  | MarkComplete.

(** What the component renders, and leaves enabled: the controls under the
    page exist only with an active topic, Prev is disabled on page 0, Next
    on the last page and beyond, ``Next Topic'' is rendered on the last page
    when a topic follows, and the sidebar has one entry per topic. *)
Definition offered (s : Reader) (c : click) : bool :=
  match c with
  | SidebarTopic idx => bool_decide (idx < length (topics s))%nat
  | Prev =>
      bool_decide (is_Some (activeTopic s))
      && negb (bool_decide (currentPage s = 0))
  | Next =>
      bool_decide (is_Some (activeTopic s))
      && negb (bool_decide (totalPages s - 1 ≤ currentPage s))
  | NextTopic =>
      bool_decide (is_Some (activeTopic s))
      && bool_decide (currentPage s = totalPages s - 1)
      && bool_decide (Z.of_nat (activeTopicIndex s)
                      < Z.of_nat (length (topics s)) - 1)
  | MarkComplete => bool_decide (is_Some (activeTopic s))
  end.

(** The handlers behind the controls. *)
Definition onClick (api : Remote) (courseId : string) (c : click) : eff unit :=
  match c with
  | Prev => prevPage
  | Next => nextPage
  | NextTopic => nextTopic
  | SidebarTopic idx => selectTopic idx
  | MarkComplete =>
      closure ← get;
      match activeTopic closure with
      | Some t => markTopicComplete api courseId (_id t)
      | None => skip
      end
  end.

(** A click and the render that follows it: the handler, then, when
    [currentPage] or the active topic changed, the effects that depend on
    them. (The effect on [weightedProgress] is [syncProgress], which touches
    none of the cells the handlers and these effects read.) *)
Definition dispatch (api : Remote) (courseId : string) (c : click)
  : eff unit :=
  prev ← get;
  onClick api courseId c;;
  s ← get;
  if bool_decide (currentPage s = currentPage prev
                  ∧ activeTopicIndex s = activeTopicIndex prev)
  then skip
  else pageEffects api courseId.

(** A session: clicks on what is offered, one after the other; [None] when
    a click is on a control that is not there. *)
Fixpoint play (api : Remote) (courseId : string) (cs : list click)
    (s : Reader) : option Reader :=
  match cs with
  | [] => Some s
  | c :: cs' =>
      if offered s c then play api courseId cs' (dispatch api courseId c s).2
      else None
  end.

(** A reader in order: topic ids identify topics, every topic has a page,
    the page shown is a page of the active topic, and the pages viewed of a
    topic are pages of it. *)
Definition inOrder (s : Reader) : Prop :=
  NoDup (_id <$> topics s) ∧
  (∀ t, t ∈ topics s → images t ≠ []) ∧
  (∃ t, activeTopic s = Some t ∧
        0 ≤ currentPage s < Z.of_nat (length (images t))) ∧
  pagesInRange (topics s) (viewedPages s).

(** [inOrder] as a test, for readers given in full. *)
Definition inOrderb (s : Reader) : bool :=
  bool_decide (NoDup (_id <$> topics s))
  && forallb (λ t, negb (bool_decide (images t = []))) (topics s)
  && match activeTopic s with
     | Some t =>
         bool_decide (0 ≤ currentPage s < Z.of_nat (length (images t)))
     | None => false
     end
  && forallb
       (λ t, forallb
               (λ p, bool_decide (0 ≤ p < Z.of_nat (length (images t))))
               (elements (default ∅ (viewedPages s !! _id t))))
       (topics s).

(** The cache mirrors the state: what [localStorage] holds under
    [viewedPages_<id>] is the state's [viewedPages], each set as an array,
    and what it holds under [completedTopics_<id>] is the state's
    [completedTopics]; a key that was never written goes with an empty
    state. *)
Definition viewedMirrored (courseId : string) (s : Reader) : Prop :=
  match viewedPages_ (localStorage s) !! courseId with
  | Some item => item = Stored (elements <$> viewedPages s)
  | None => viewedPages s = ∅
  end.

Definition completedMirrored (courseId : string) (s : Reader) : Prop :=
  match completedTopics_ (localStorage s) !! courseId with
  | Some item => item = Stored (completedTopics s)
  | None => completedTopics s = ∅
  end.

(** The course that the load effect keeps of the one the backend sent:
    [if (!courseData.topics || courseData.topics.length === 0)
       courseData.topics = buildFallbackTopics();] *)
Definition received (courseData : Course) : Course :=
  if noTopics courseData
  then mkCourse (course_id courseData) (course_title courseData)
         (Some buildFallbackTopics) (price courseData)
         (userHasAccess courseData)
  else courseData.

(** The calls of a sequence, one after the other. *)
Definition runCalls (api : Remote) (courseId : string) (calls : list call)
    (s : Reader) : Reader :=
  foldl (λ s c, (runCall api courseId c s).2) s calls.

(** ** The application context ([contexts/AppContext.tsx]) *)

Module App.

(** [interface Course] of the context: the course as the dashboard lists
    it. *)
Record Course := mkCourse {
  id : string;
  title : string;
  instructor : string;
  thumbnail : string;
  description : string;
  price : Z;
  progress : Z;
  isEnrolled : bool;
  duration : string;
  lessonsCount : Z;
  category : string;
  rating : Z;
  students : Z
}.

Record User := mkUser {
  user_id : string;
  name : string;
  email : string;
  avatar : string;
  phone : string;
  enrolledCourses : Z;
  activeCourses : Z;
  certificatesEarned : Z
}.

(** The keys of [localStorage] that the context and the dashboard own:
    [course_progress] and [certificates_unlocked_v1]. *)
Record Store := mkStore {
  course_progress : option (cached (gmap string Z));
  certificates_unlocked_v1 : option (cached (gmap string bool))
}.

Record Context := mkContext {
  user : User;
  courses : list Course;
  store : Store
}.

(** [JSON.parse(localStorage.getItem(key) || '{}')] *)
Definition parseOrEmpty {V} (item : option (cached (gmap string V)))
  : completion (gmap string V) :=
  match item with
  | Some (Stored v) => Done v
  | Some (Malformed raw) => if decide (raw = "") then Done ∅ else Thrown
  | None => Done ∅
  end.

(** [{ ...course, progress, isEnrolled: true }] *)
Definition withProgress (progress : Z) (course : Course) : Course :=
  mkCourse (id course) (title course) (instructor course) (thumbnail course)
    (description course) (price course) progress true (duration course)
    (lessonsCount course) (category course) (rating course) (students course).

(** [{ ...c, isEnrolled: true }] *)
Definition enrolled (c : Course) : Course :=
  mkCourse (id c) (title c) (instructor c) (thumbnail c) (description c)
    (price c) (progress c) true (duration c) (lessonsCount c) (category c)
    (rating c) (students c).

Definition updateCourseProgress (courseId : string) (progress : Z)
    (a : Context) : completion unit * Context :=
  let courses' :=
    (λ course, if decide (id course = courseId)
               then withProgress progress course else course)
      <$> courses a in
  match parseOrEmpty (course_progress (store a)) with
  | Thrown => (Thrown, mkContext (user a) courses' (store a))
  | Done saved =>
      (Done tt,
       mkContext (user a) courses'
         (mkStore (Some (Stored (<[courseId := progress]> saved)))
            (certificates_unlocked_v1 (store a))))
  end.

(** [enrollCourse]: the course is flagged, the two counters of the user go
    up (the toast is left out). *)
Definition enrollCourse (courseId : string) (a : Context) : Context :=
  mkContext
    (mkUser (user_id (user a)) (name (user a)) (email (user a))
       (avatar (user a)) (phone (user a)) (enrolledCourses (user a) + 1)
       (activeCourses (user a) + 1) (certificatesEarned (user a)))
    ((λ c, if decide (id c = courseId) then enrolled c else c) <$> courses a)
    (store a).

(** [updateUser({ certificatesEarned: count })] *)
Definition setCertificatesEarned (count : Z) (a : Context) : Context :=
  mkContext
    (mkUser (user_id (user a)) (name (user a)) (email (user a))
       (avatar (user a)) (phone (user a)) (enrolledCourses (user a))
       (activeCourses (user a)) count)
    (courses a) (store a).

End App.

(** The effect of the reader on [weightedProgress], with the context it
    calls: [updateCourseProgress] first, which may throw out of the effect,
    then the write of [overallProgress_<id>]. *)
Definition syncProgressEffect (courseId : string) (s : Reader)
    (a : App.Context) : completion unit * Reader * App.Context :=
  if decide (courseId = "") then (Done tt, s, a) else
  match App.updateCourseProgress courseId
          (weightedProgress (topics s) (viewedPages s)) a with
  | (Thrown, a') => (Thrown, s, a')
  | (Done _, a') => (Done tt, (syncProgress courseId s).2, a')
  end.

(** ** The dashboard ([pages/Dashboard.tsx]) *)

Module Dashboard.

(** [courses.filter((c) => c.isEnrolled)] *)
Definition enrolledCourses (courses : list App.Course) : list App.Course :=
  filter (λ c, App.isEnrolled c = true) courses.

(** [courses.filter((c) => c.isEnrolled && c.progress > 0 &&
    c.progress < 100)] *)
Definition activeCourses (courses : list App.Course) : list App.Course :=
  filter (λ c, App.isEnrolled c = true ∧ 0 < App.progress c
               ∧ App.progress c < 100) courses.

(** [getTotalPagesViewed]: the lengths of the arrays under
    [viewedPages_option-analysis-strategy], added up. *)
Definition getTotalPagesViewed (ls : Storage) : completion nat :=
  match App.parseOrEmpty (viewedPages_ ls !! "option-analysis-strategy") with
  | Thrown => Thrown
  | Done vp => Done (map_fold (λ _ arr total, total + length arr)%nat 0%nat vp)
  end.

(** [Object.values(stored).filter(Boolean).length] *)
Definition unlockedCount (stored : gmap string bool) : Z :=
  Z.of_nat (size (filter (λ kv, kv.2 = true) stored)).

(** The body of the loop of the certificate effect: a course at 100 whose
    certificate is not unlocked yet unlocks it. *)
Definition unlock (acc : gmap string bool * Z * bool) (course : App.Course)
  : gmap string bool * Z * bool :=
  let '(stored, count, changed) := acc in
  if bool_decide (100 ≤ App.progress course)
     && negb (default false (stored !! App.id course))
  then (<[App.id course := true]> stored, count + 1, true)
  else acc.

(** The effect that unlocks certificates (on [courses]). *)
Definition certificateEffect (a : App.Context) : completion unit * App.Context :=
  match App.courses a with
  | [] => (Done tt, a)
  | _ :: _ =>
      match App.parseOrEmpty (App.certificates_unlocked_v1 (App.store a)) with
      | Thrown => (Thrown, a)
      | Done stored0 =>
          let '(stored, count, changed) :=
            foldl unlock (stored0, unlockedCount stored0, false)
              (App.courses a) in
          let a' :=
            if changed
            then App.mkContext (App.user a) (App.courses a)
                   (App.mkStore (App.course_progress (App.store a))
                      (Some (Stored stored)))
            else a in
          (Done tt, App.setCertificatesEarned count a')
      end
  end.

End Dashboard.

(** ** Storage keys of other courses *)

(** Two storages hold the same under the keys of course [k]. *)
Definition sameAt (k : string) (ls ls' : Storage) : Prop :=
  notes_ ls' !! k = notes_ ls !! k ∧
  bookmark_ ls' !! k = bookmark_ ls !! k ∧
  viewedPages_ ls' !! k = viewedPages_ ls !! k ∧
  completedTopics_ ls' !! k = completedTopics_ ls !! k ∧
  overallProgress_ ls' !! k = overallProgress_ ls !! k.

(** A command that leaves the keys of course [k] as they are, however it
    ends. *)
Definition keeps {A} (k : string) (m : eff A) : Prop :=
  ∀ s, sameAt k (localStorage s) (localStorage (m s).2).

(** * Properties *)

(** ** JavaScript numbers: rounding to 53 bits

    What the reader needs of its numbers: a count below [2 ^ 53] is a number
    exactly; the quotient and the product of two positive numbers are the
    exact results rounded to 53 bits ([rounded]); rounding is monotone and
    moves a number by at most one part in [2 ^ 53]; [Math.round] of [x] is
    the integer [k] with [k <= x + 1/2 < k + 1]. The values of numbers are
    taken in the reals. *)

Lemma pow2_pos e : (0 < powerRZ 2 e)%R.
Proof. apply powerRZ_lt. lra. Qed.

Lemma pow2_succ e : powerRZ 2 (e + 1) = (2 * powerRZ 2 e)%R.
Proof. rewrite powerRZ_add by lra. rewrite powerRZ_1. lra. Qed.

Lemma pow2_add a b : powerRZ 2 (a + b) = (powerRZ 2 a * powerRZ 2 b)%R.
Proof. apply powerRZ_add. lra. Qed.

Lemma pow2_Z n : 0 <= n -> powerRZ 2 n = IZR (2 ^ n).
Proof.
  intros Hn. rewrite <- (Z2Nat.id n) at 1 by lia.
  rewrite <- pow_powerRZ, pow_IZR, Z2Nat.id by lia. reflexivity.
Qed.

Lemma pow2_le a b : a <= b -> (powerRZ 2 a <= powerRZ 2 b)%R.
Proof.
  intros H. replace b with (a + (b - a)) by lia.
  rewrite pow2_add, (pow2_Z (b - a)) by lia.
  assert (1 <= IZR (2 ^ (b - a)))%R.
  { apply IZR_le. pose proof (Z.pow_pos_nonneg 2 (b - a)). lia. }
  pose proof (pow2_pos a). nra.
Qed.

Lemma IZR_xO p : IZR (Z.pos p~0) = (2 * IZR (Z.pos p))%R.
Proof. rewrite Pos2Z.inj_xO, mult_IZR. reflexivity. Qed.

Lemma IZR_xI p : IZR (Z.pos p~1) = (2 * IZR (Z.pos p) + 1)%R.
Proof. rewrite Pos2Z.inj_xI, plus_IZR, mult_IZR. reflexivity. Qed.

(** One step of [shr]: the mantissa is halved, the exponent grows by one,
    and the location follows. *)
Lemma shr_1_located x m e r s :
  0 <= m ->
  located x m e (loc_of_shr_record (Build_shr_record m r s)) ->
  located x (shr_m (shr_1 (Build_shr_record m r s))) (e + 1)
    (loc_of_shr_record (shr_1 (Build_shr_record m r s)))
  /\ shr_m (shr_1 (Build_shr_record m r s)) = m / 2.
Proof.
  intros Hm Hloc.
  pose proof (pow2_pos e) as Hu.
  destruct m as [|[p|p|]|p]; try lia;
    destruct r, s; cbn [shr_1 shr_m loc_of_shr_record orb located] in *;
    unfold F2R in *; rewrite ?pow2_succ, ?(IZR_xO p), ?(IZR_xI p) in *;
    (split; [ lra | ]).
  all: try reflexivity.
  all: first [ apply Z.div_unique with 1; lia
             | apply Z.div_unique with 0; lia ].
Qed.

(** [iter_pos f p] applies [f] [p] times. *)
Lemma iter_pos_ind {A} (f : A -> A) (P : Z -> A -> Prop) :
  (forall k a, 0 <= k -> P k a -> P (k + 1) (f a)) ->
  forall p k a, 0 <= k -> P k a -> P (k + Z.pos p) (SpecFloat.iter_pos f p a).
Proof.
  intros Hstep. induction p as [p IH|p IH|]; intros k a Hk Ha;
    cbn [SpecFloat.iter_pos].
  - replace (k + Z.pos p~1) with (k + 1 + Z.pos p + Z.pos p) by lia.
    apply IH; [lia|]. apply IH; [lia|]. by apply Hstep.
  - replace (k + Z.pos p~0) with (k + Z.pos p + Z.pos p) by lia.
    apply IH; [lia|]. by apply IH.
  - by apply Hstep.
Qed.

(** [shr] by [n] places: the mantissa is divided by [2 ^ n], and the value
    located stays located. *)
Lemma shr_located x m e l n :
  0 <= m -> 0 <= n ->
  located x m e l ->
  let r := shr (shr_record_of_loc m l) e n in
  r.2 = e + n /\
  shr_m r.1 = m / 2 ^ n /\
  located x (shr_m r.1) (e + n) (loc_of_shr_record r.1).
Proof.
  intros Hm Hn Hloc. cbv zeta.
  assert (Hrec : loc_of_shr_record (shr_record_of_loc m l) = l
                 /\ shr_m (shr_record_of_loc m l) = m).
  { by destruct l as [|[]]. }
  destruct Hrec as [Hl Hsm].
  destruct n as [|p|p]; [| |lia]; cbn [shr fst snd].
  - rewrite Z.add_0_r, Z.pow_0_r, Z.div_1_r, Hl, Hsm. done.
  - split; [done|].
    pose (P := fun k rec =>
      0 <= shr_m rec /\ shr_m rec = m / 2 ^ k /\
      located x (shr_m rec) (e + k) (loc_of_shr_record rec)).
    assert (HP : P (0 + Z.pos p)
                   (SpecFloat.iter_pos shr_1 p (shr_record_of_loc m l))).
    { apply iter_pos_ind; [|lia|].
      - intros k [m' r' s'] Hk (Hm' & Hdiv & Hloc').
        cbn [shr_m] in Hm', Hdiv, Hloc'.
        destruct (shr_1_located x m' (e + k) r' s' Hm' Hloc') as [H1 H2].
        unfold P. rewrite H2. split_and!.
        + apply Z.div_pos; lia.
        + rewrite Hdiv, Z.pow_add_r, Z.pow_1_r, Z.div_div by lia. done.
        + rewrite <- H2. by rewrite Z.add_assoc.
      - unfold P. rewrite Hsm, Hl, Z.pow_0_r, Z.div_1_r, Z.add_0_r. done. }
    rewrite Z.add_0_l in HP. destruct HP as (_ & H2 & H3). done.
Qed.

(** *** Digits *)

Lemma digits2_size p : digits2_pos p = Pos.size p.
Proof. induction p; cbn; congruence. Qed.

Lemma Zdigits2_bounds m :
  0 < m -> 2 ^ (Zdigits2 m - 1) <= m < 2 ^ Zdigits2 m.
Proof.
  destruct m as [|p|p]; try lia. intros _. cbn [Zdigits2].
  rewrite digits2_size.
  pose proof (Pos.size_gt p) as Hgt. pose proof (Pos.size_le p) as Hle.
  apply Pos2Z.pos_lt_pos in Hgt. apply Pos2Z.pos_le_pos in Hle.
  rewrite Pos2Z.inj_pow in Hgt, Hle.
  split; [|exact Hgt].
  replace (Z.pos (Pos.size p)) with (Z.pos (Pos.size p) - 1 + 1) in Hle by lia.
  rewrite Z.pow_add_r, Z.pow_1_r in Hle by lia. lia.
Qed.

Lemma Zdigits2_unique m d :
  2 ^ (d - 1) <= m < 2 ^ d -> 0 < d -> Zdigits2 m = d.
Proof.
  intros [Hlo Hhi] Hd.
  assert (Hm : 0 < m).
  { pose proof (Z.pow_pos_nonneg 2 (d - 1)). lia. }
  destruct (Zdigits2_bounds m Hm) as [Hlo' Hhi'].
  assert (0 < Zdigits2 m) by (destruct m; cbn; lia).
  destruct (Z.lt_trichotomy (Zdigits2 m) d) as [Hlt | [Heq | Hgt]]; [|done|].
  - assert (2 ^ Zdigits2 m <= 2 ^ (d - 1)) by (apply Z.pow_le_mono_r; lia). lia.
  - assert (2 ^ d <= 2 ^ (Zdigits2 m - 1)) by (apply Z.pow_le_mono_r; lia). lia.
Qed.

Lemma round_nearest_even_cases m l :
  round_nearest_even m l = m \/ round_nearest_even m l = m + 1.
Proof. destruct l as [|[]]; cbn; try destruct (Z.even m); auto. Qed.

Lemma F2R_carry e : F2R (2 ^ 53) e = F2R (2 ^ 52) (e + 1).
Proof.
  unfold F2R. rewrite pow2_succ.
  change (2 ^ 53) with (2 * 2 ^ 52). rewrite mult_IZR. lra.
Qed.

Lemma binary_round_aux_rounded x mx ex lx :
  0 < mx ->
  53 <= Zdigits2 mx ->
  -1074 <= Zdigits2 mx + ex - 53 < 971 ->
  located x mx ex lx ->
  exists M E,
    binary_round_aux 53 1024 false mx ex lx = S754_finite false M E /\
    rounded x (Z.pos M) E /\
    Zdigits2 mx + ex - 53 <= E <= Zdigits2 mx + ex - 52.
Proof.
  intros Hmx Hd Hrange Hloc.
  set (d := Zdigits2 mx) in *.
  destruct (Zdigits2_bounds mx Hmx) as [Hlo Hhi]. fold d in Hlo, Hhi.
  unfold binary_round_aux, shr_fexp.
  assert (Hn1 : fexp 53 1024 (Zdigits2 mx + ex) - ex = d - 53).
  { unfold fexp, emin. fold d. lia. }
  rewrite Hn1.
  destruct (shr_located x mx ex lx (d - 53)) as (He1 & Hm1 & Hloc1);
    [lia | lia | exact Hloc |].
  destruct (shr (shr_record_of_loc mx lx) ex (d - 53)) as [mrs1 e1].
  cbn [fst snd] in He1, Hm1, Hloc1. subst e1.
  set (m1 := shr_m mrs1) in *. set (l1 := loc_of_shr_record mrs1) in *.
  assert (Hm1r : 2 ^ 52 <= m1 < 2 ^ 53).
  { rewrite Hm1.
    assert (Hp : 0 < 2 ^ (d - 53)) by (apply Z.pow_pos_nonneg; lia).
    replace (2 ^ d) with (2 ^ 53 * 2 ^ (d - 53)) in Hhi
      by (rewrite <- Z.pow_add_r by lia; f_equal; lia).
    replace (2 ^ (d - 1)) with (2 ^ 52 * 2 ^ (d - 53)) in Hlo
      by (rewrite <- Z.pow_add_r by lia; f_equal; lia).
    split.
    - apply Z.div_le_lower_bound; lia.
    - apply Z.div_lt_upper_bound; lia. }
  set (mr := round_nearest_even m1 l1).
  assert (Hmr : mr = m1 \/ mr = m1 + 1) by apply round_nearest_even_cases.
  destruct (Z.eq_dec mr (2 ^ 53)) as [Hcarry | Hnocarry].
  - (* the mantissa went up to 2^53: one more shift *)
    assert (Hdg : Zdigits2 mr = 54) by (rewrite Hcarry; reflexivity).
    assert (Hn2 : fexp 53 1024 (Zdigits2 mr + (ex + (d - 53)))
                  - (ex + (d - 53)) = 1).
    { rewrite Hdg. unfold fexp, emin. lia. }
    rewrite Hn2, Hcarry.
    cbn [shr_record_of_loc shr SpecFloat.iter_pos shr_1 shr_m].
    change (Z.pos 4503599627370496) with (2 ^ 52) in *.
    assert (Hle : (ex + (d - 53) + 1 <=? 1024 - 53) = true)
      by (apply Z.leb_le; lia).
    cbn [Z.pow Z.pow_pos Pos.iter Z.mul Pos.mul]. rewrite Hle.
    eexists _, _. split; [reflexivity|]. split; [|lia].
    exists m1, (ex + (d - 53)), l1. split_and!; try done; try lia.
    fold mr. rewrite Hcarry. symmetry. apply F2R_carry.
  - assert (Hmrr : 2 ^ 52 <= mr < 2 ^ 53) by lia.
    assert (Hdg : Zdigits2 mr = 53) by (apply Zdigits2_unique; lia).
    assert (Hn2 : fexp 53 1024 (Zdigits2 mr + (ex + (d - 53)))
                  - (ex + (d - 53)) = 0).
    { rewrite Hdg. unfold fexp, emin. lia. }
    rewrite Hn2. cbn [shr_record_of_loc shr shr_m].
    destruct mr as [|pr|pr] eqn:Emr; try lia.
    assert (Hle : (ex + (d - 53) <=? 1024 - 53) = true)
      by (apply Z.leb_le; lia).
    rewrite Hle.
    eexists _, _. split; [reflexivity|]. split; [|lia].
    exists m1, (ex + (d - 53)), l1. split_and!; try done; try lia.
    fold mr. by rewrite Emr.
Qed.

Lemma binary_round_aux_exact mx ex :
  2 ^ 52 <= Z.pos mx < 2 ^ 53 ->
  -1074 <= ex <= 971 ->
  binary_round_aux 53 1024 false (Z.pos mx) ex loc_Exact
  = S754_finite false mx ex.
Proof.
  intros Hm He.
  assert (Hdg : Zdigits2 (Z.pos mx) = 53) by (apply Zdigits2_unique; lia).
  assert (Hn : fexp 53 1024 (Zdigits2 (Z.pos mx) + ex) - ex = 0).
  { rewrite Hdg. unfold fexp, emin. lia. }
  unfold binary_round_aux, shr_fexp. rewrite Hn.
  cbn [shr_record_of_loc shr shr_m loc_of_shr_record round_nearest_even].
  rewrite Hn. cbn [shr_record_of_loc shr shr_m].
  assert (Hle : (ex <=? 1024 - 53) = true) by (apply Z.leb_le; lia).
  by rewrite Hle.
Qed.

Lemma iter_xO p k : Z.pos (Pos.iter xO p k) = Z.pos p * 2 ^ Z.pos k.
Proof.
  apply (Pos.iter_ind _ xO p (fun k q => Z.pos q = Z.pos p * 2 ^ Z.pos k)).
  - rewrite Z.pow_1_r. lia.
  - intros k' q Hq. rewrite Pos2Z.inj_succ, Z.pow_succ_r by lia.
    rewrite Pos2Z.inj_xO, Hq. lia.
Qed.

(** Counts below [2 ^ 53] are numbers exactly. *)
Lemma of_Z_exact n :
  0 < n < 2 ^ 53 ->
  exists M E,
    binary_normalize 53 1024 n 0 false = S754_finite false M E /\
    2 ^ 52 <= Z.pos M < 2 ^ 53 /\
    F2R (Z.pos M) E = IZR n /\
    -52 <= E <= 0.
Proof.
  intros Hn. destruct n as [|p|p]; try lia.
  cbn [binary_normalize]. unfold binary_round.
  destruct (Zdigits2_bounds (Z.pos p)) as [Hlo Hhi]; [lia|].
  cbn [Zdigits2] in Hlo, Hhi.
  set (d := Z.pos (digits2_pos p)) in *.
  assert (Hd : 1 <= d <= 53).
  { split; [lia|].
    destruct (Z.le_gt_cases d 53) as [|Hgt]; [done|].
    assert (2 ^ 53 <= 2 ^ (d - 1)) by (apply Z.pow_le_mono_r; lia). lia. }
  assert (Hfexp : fexp 53 1024 (d + 0) = d - 53) by (unfold fexp, emin; lia).
  rewrite Hfexp. unfold shl_align.
  destruct (d - 53 - 0) as [|k|k] eqn:Ek; try lia.
  - assert (Hd53 : d = 53) by lia. rewrite Hd53 in *.
    replace (53 - 1) with 52 in Hlo by lia.
    rewrite binary_round_aux_exact by lia.
    eexists _, _. split; [reflexivity|]. split_and!; try lia.
    unfold F2R. cbn. lra.
  - assert (Hk : Z.pos k = 53 - d) by lia.
    assert (Hpk : Z.pos (Pos.iter xO p k) = Z.pos p * 2 ^ (53 - d))
      by (rewrite iter_xO, Hk; done).
    assert (Hr : 2 ^ 52 <= Z.pos (Pos.iter xO p k) < 2 ^ 53).
    { rewrite Hpk.
      replace (2 ^ 52) with (2 ^ (d - 1) * 2 ^ (53 - d))
        by (rewrite <- Z.pow_add_r by lia; f_equal; lia).
      replace (2 ^ 53) with (2 ^ d * 2 ^ (53 - d))
        by (rewrite <- Z.pow_add_r by lia; f_equal; lia).
      assert (0 < 2 ^ (53 - d)) by (apply Z.pow_pos_nonneg; lia).
      nia. }
    rewrite binary_round_aux_exact by lia.
    eexists _, _. split; [reflexivity|]. split_and!; try lia.
    unfold F2R. rewrite Hpk, mult_IZR, <- pow2_Z by lia.
    rewrite Rmult_assoc, <- pow2_add.
    replace (53 - d + (d - 53)) with 0 by lia. cbn. lra.
Qed.

Lemma Zdigits2_between m lo hi :
  0 < lo -> 2 ^ (lo - 1) <= m < 2 ^ hi -> lo <= Zdigits2 m <= hi.
Proof.
  intros Hlo [Hl Hh].
  assert (Hm : 0 < m).
  { pose proof (Z.pow_pos_nonneg 2 (lo - 1)). lia. }
  destruct (Zdigits2_bounds m Hm) as [Hl' Hh'].
  assert (0 < Zdigits2 m) by (destruct m; cbn; lia).
  split.
  - destruct (Z.le_gt_cases lo (Zdigits2 m)) as [|Hgt]; [done|].
    assert (2 ^ Zdigits2 m <= 2 ^ (lo - 1)) by (apply Z.pow_le_mono_r; lia).
    lia.
  - destruct (Z.le_gt_cases (Zdigits2 m) hi) as [|Hgt]; [done|].
    assert (0 <= hi).
    { destruct (Z.le_gt_cases 0 hi); [done|].
      rewrite Z.pow_neg_r in Hh by lia. lia. }
    assert (2 ^ hi <= 2 ^ (Zdigits2 m - 1)) by (apply Z.pow_le_mono_r; lia).
    lia.
Qed.

(** The location [SFdiv] computes for a remainder. *)
Lemma new_location_located q r m2 e :
  0 < m2 -> 0 <= r < m2 ->
  located ((IZR q + IZR r / IZR m2) * powerRZ 2 e) q e (new_location m2 r).
Proof.
  intros Hm2 [Hr0 Hr].
  pose proof (pow2_pos e) as Hu.
  assert (Hm2R : (0 < IZR m2)%R) by (apply IZR_lt; lia).
  set (rho := (IZR r / IZR m2)%R).
  assert (Hrho : (rho * IZR m2 = IZR r)%R) by (unfold rho; field; lra).
  assert (Hr0R : (0 <= IZR r)%R) by (apply IZR_le; lia).
  assert (HrR : (IZR r < IZR m2)%R) by (apply IZR_lt; lia).
  unfold new_location.
  destruct (r =? 0) eqn:Hz.
  - assert (Hz0 : rho = 0%R).
    { apply Z.eqb_eq in Hz. subst r. unfold rho. field. lra. }
    rewrite Hz0, Rplus_0_r.
    destruct (Z.even m2); unfold new_location_even, new_location_odd;
      rewrite Hz; reflexivity.
  - pose proof Hz as Hz'. apply Z.eqb_neq in Hz.
    assert (Hpos : (0 < rho)%R).
    { apply Rmult_lt_reg_r with (IZR m2); [done|].
      rewrite Hrho, Rmult_0_l. apply IZR_lt. lia. }
    assert (Hone : (rho < 1)%R).
    { apply Rmult_lt_reg_r with (IZR m2); [done|]. rewrite Hrho. lra. }
    assert (Hbelow : 2 * r < m2 -> (rho < / 2)%R).
    { intros H. apply IZR_lt in H. rewrite mult_IZR in H.
      apply Rmult_lt_reg_r with (IZR m2); [done|]. rewrite Hrho. lra. }
    assert (Habove : m2 < 2 * r -> (/ 2 < rho)%R).
    { intros H. apply IZR_lt in H. rewrite mult_IZR in H.
      apply Rmult_lt_reg_r with (IZR m2); [done|]. rewrite Hrho. lra. }
    assert (Hhalf : 2 * r = m2 -> rho = (/ 2)%R).
    { intros H. apply (f_equal IZR) in H. rewrite mult_IZR in H.
      apply Rmult_eq_reg_r with (IZR m2); [|lra]. rewrite Hrho. lra. }
    assert (Hlt_case : (rho < / 2)%R ->
              located ((IZR q + rho) * powerRZ 2 e) q e (loc_Inexact Lt)).
    { intros H. cbn [located]. unfold F2R.
      split; apply Rmult_lt_compat_r; lra. }
    assert (Hgt_case : (/ 2 < rho)%R ->
              located ((IZR q + rho) * powerRZ 2 e) q e (loc_Inexact Gt)).
    { intros H. cbn [located]. unfold F2R.
      split; apply Rmult_lt_compat_r; lra. }
    destruct (Z.even m2) eqn:Hev;
      unfold new_location_even, new_location_odd; rewrite Hz'.
    + destruct (Z.compare_spec (2 * r) m2) as [Heq | Hlt | Hgt].
      * cbn [located]. by rewrite (Hhalf Heq).
      * apply Hlt_case, Hbelow, Hlt.
      * apply Hgt_case, Habove, Hgt.
    + assert (Hodd : 2 * r <> m2).
      { intros <-. rewrite Z.even_mul in Hev. discriminate. }
      destruct (Z.compare_spec (2 * r + 1) m2) as [Heq | Hlt | Hgt].
      * apply Hlt_case, Hbelow. lia.
      * apply Hlt_case, Hbelow. lia.
      * apply Hgt_case, Habove. lia.
Qed.

(** Division of two positive 53-bit numbers rounds the quotient. *)
Lemma SFdiv_rounded M1 E1 M2 E2 :
  2 ^ 52 <= Z.pos M1 < 2 ^ 53 ->
  2 ^ 52 <= Z.pos M2 < 2 ^ 53 ->
  -1074 <= E1 - E2 - 53 -> E1 - E2 - 52 < 971 ->
  exists M E,
    SFdiv 53 1024 (S754_finite false M1 E1) (S754_finite false M2 E2)
    = S754_finite false M E /\
    rounded (F2R (Z.pos M1) E1 / F2R (Z.pos M2) E2) (Z.pos M) E /\
    E1 - E2 - 53 <= E <= E1 - E2 - 51.
Proof.
  intros HM1 HM2 Hlo Hhi.
  unfold SFdiv, SFdiv_core_binary.
  rewrite (Zdigits2_unique (Z.pos M1) 53), (Zdigits2_unique (Z.pos M2) 53)
    by lia.
  set (e' := E1 - E2 - 53).
  assert (He' : Z.min (fexp 53 1024 (53 + E1 - (53 + E2))) (E1 - E2) = e').
  { unfold fexp, emin, e'. lia. }
  rewrite He'.
  replace (E1 - E2 - e') with 53 by (unfold e'; lia).
  rewrite Z.shiftl_mul_pow2 by lia.
  pose proof (Z_div_mod (Z.pos M1 * 2 ^ 53) (Z.pos M2)) as Hdm.
  destruct (Z.div_eucl (Z.pos M1 * 2 ^ 53) (Z.pos M2)) as [q r].
  destruct Hdm as [Hqr Hr]; [lia|].
  assert (Hq : 2 ^ 52 <= q < 2 ^ 54) by (split; nia).
  assert (Hdq : 53 <= Zdigits2 q <= 54).
  { apply Zdigits2_between; [lia|]. replace (53 - 1) with 52 by lia. lia. }
  assert (Hx : (F2R (Z.pos M1) E1 / F2R (Z.pos M2) E2
               = (IZR q + IZR r / IZR (Z.pos M2)) * powerRZ 2 e')%R).
  { unfold F2R.
    replace E1 with (e' + 53 + E2) by (unfold e'; lia).
    rewrite !pow2_add, (pow2_Z 53) by lia.
    pose proof (pow2_pos e'). pose proof (pow2_pos E2).
    assert (IZR (Z.pos M2) <> 0)%R by (apply not_0_IZR; lia).
    apply (f_equal IZR) in Hqr. rewrite plus_IZR, !mult_IZR in Hqr.
    set (a := IZR (Z.pos M1)) in *. set (b := IZR (Z.pos M2)) in *.
    set (P := IZR (2 ^ 53)) in *.
    set (u := powerRZ 2 e') in *. set (w := powerRZ 2 E2) in *.
    transitivity (a * P * u / b)%R; [field; split; lra|].
    rewrite Hqr. field. lra. }
  destruct (binary_round_aux_rounded
              ((IZR q + IZR r / IZR (Z.pos M2)) * powerRZ 2 e')
              q e' (new_location (Z.pos M2) r))
    as (M & E & Heq & Hrnd & HE); [lia | lia | lia | |].
  { apply new_location_located; lia. }
  exists M, E. cbn [xorb]. split; [exact Heq|]. split; [|lia].
  by rewrite Hx.
Qed.

(** Multiplication of two positive 53-bit numbers rounds the product. *)
Lemma SFmul_rounded M1 E1 M2 E2 :
  2 ^ 52 <= Z.pos M1 < 2 ^ 53 ->
  2 ^ 52 <= Z.pos M2 < 2 ^ 53 ->
  -1074 <= E1 + E2 + 52 -> E1 + E2 + 53 < 971 ->
  exists M E,
    SFmul 53 1024 (S754_finite false M1 E1) (S754_finite false M2 E2)
    = S754_finite false M E /\
    rounded (F2R (Z.pos M1) E1 * F2R (Z.pos M2) E2) (Z.pos M) E /\
    E1 + E2 + 52 <= E <= E1 + E2 + 54.
Proof.
  intros HM1 HM2 Hlo Hhi.
  unfold SFmul. cbn [xorb].
  assert (Hp : 2 ^ 104 <= Z.pos (M1 * M2) < 2 ^ 106).
  { rewrite Pos2Z.inj_mul.
    change (2 ^ 104) with (2 ^ 52 * 2 ^ 52).
    change (2 ^ 106) with (2 ^ 53 * 2 ^ 53). nia. }
  assert (Hd : 105 <= Zdigits2 (Z.pos (M1 * M2)) <= 106).
  { apply Zdigits2_between; [lia|]. replace (105 - 1) with 104 by lia. lia. }
  destruct (binary_round_aux_rounded
              (F2R (Z.pos M1) E1 * F2R (Z.pos M2) E2)
              (Z.pos (M1 * M2)) (E1 + E2) loc_Exact)
    as (M & E & Heq & Hrnd & HE); [lia | lia | lia | |].
  { cbn [located]. unfold F2R.
    rewrite Pos2Z.inj_mul, mult_IZR, pow2_add. ring. }
  exists M, E. split; [exact Heq|]. split; [exact Hrnd|lia].
Qed.

(** *** Order and accuracy of rounding *)

Lemma located_bounds x m e l :
  located x m e l ->
  (IZR m * powerRZ 2 e <= x < (IZR m + 1) * powerRZ 2 e)%R.
Proof.
  pose proof (pow2_pos e).
  destruct l as [|[]]; cbn [located]; unfold F2R; intros Hx; nra.
Qed.

(** Rounding is monotone. *)
Lemma rounded_mono x x' M E M' E' :
  rounded x M E -> rounded x' M' E' -> (x <= x')%R ->
  (F2R M E <= F2R M' E')%R.
Proof.
  intros (m & e & l & Hloc & Hm & HF & _) (m' & e' & l' & Hloc' & Hm' & HF' & _)
    Hxx'.
  rewrite HF, HF'. clear HF HF' M E M' E'.
  pose proof (located_bounds _ _ _ _ Hloc) as Hb.
  pose proof (located_bounds _ _ _ _ Hloc') as Hb'.
  pose proof (pow2_pos e) as Hu. pose proof (pow2_pos e') as Hu'.
  assert (Hmr : (IZR (2 ^ 52) <= IZR m /\ IZR m + 1 <= IZR (2 ^ 53))%R).
  { split; [apply IZR_le; lia|].
    rewrite <- (plus_IZR m 1). apply IZR_le. lia. }
  assert (Hmr' : (IZR (2 ^ 52) <= IZR m' /\ IZR m' + 1 <= IZR (2 ^ 53))%R).
  { split; [apply IZR_le; lia|].
    rewrite <- (plus_IZR m' 1). apply IZR_le. lia. }
  assert (H2 : IZR (2 ^ 53) = (2 * IZR (2 ^ 52))%R).
  { change (2 ^ 53) with (2 * 2 ^ 52). by rewrite mult_IZR. }
  assert (H52 : (0 < IZR (2 ^ 52))%R) by (apply IZR_lt; lia).
  assert (Hr : (IZR (round_nearest_even m l) <= IZR m + 1)%R).
  { destruct (round_nearest_even_cases m l) as [-> | ->];
      rewrite ?plus_IZR; lra. }
  assert (Hr' : (IZR m' <= IZR (round_nearest_even m' l'))%R).
  { destruct (round_nearest_even_cases m' l') as [-> | ->];
      rewrite ?plus_IZR; lra. }
  unfold F2R.
  destruct (Z.lt_trichotomy e e') as [Hlt | [Heq | Hgt]].
  - (* a smaller binade *)
    assert (Hpow : (2 * powerRZ 2 e <= powerRZ 2 e')%R).
    { rewrite <- pow2_succ. apply pow2_le. lia. }
    apply Rle_trans with ((IZR m + 1) * powerRZ 2 e)%R;
      [apply Rmult_le_compat_r; lra|].
    apply Rle_trans with (IZR m' * powerRZ 2 e')%R;
      [|apply Rmult_le_compat_r; lra].
    nra.
  - (* the same binade *)
    subst e'.
    assert (Hmm : m <= m').
    { assert (IZR m < IZR m' + 1)%R by nra.
      rewrite <- (plus_IZR m' 1) in H. apply lt_IZR in H. lia. }
    apply Rmult_le_compat_r; [lra|].
    destruct (Z.eq_dec m m') as [<- | Hne].
    + (* the same unit interval: compare the locations *)
      apply IZR_le.
      destruct l as [|[]], l' as [|[]]; cbn [located round_nearest_even] in *;
        unfold F2R in *; try destruct (Z.even m); try lia; exfalso; nra.
    + assert (m + 1 <= m') by lia.
      apply Rle_trans with (IZR m + 1)%R; [done|].
      apply Rle_trans with (IZR m')%R; [|done].
      rewrite <- (plus_IZR m 1). apply IZR_le. lia.
  - (* a larger binade: impossible *)
    exfalso.
    assert (Hpow : (2 * powerRZ 2 e' <= powerRZ 2 e)%R).
    { rewrite <- pow2_succ. apply pow2_le. lia. }
    nra.
Qed.

(** Rounding moves a number by at most one part in [2 ^ 53]. *)
Lemma rounded_error x M E :
  rounded x M E ->
  (0 < x /\
   x * (9007199254740992 - 1) <= F2R M E * 9007199254740992
     <= x * (9007199254740992 + 1))%R.
Proof.
  intros (m & e & l & Hloc & Hm & HF & _). rewrite HF. clear HF.
  pose proof (pow2_pos e) as Hu.
  assert (Hmr : (4503599627370496 <= IZR m)%R) by (apply IZR_le; lia).
  pose proof (located_bounds _ _ _ _ Hloc) as Hb.
  split; [nra|].
  unfold F2R.
  set (u := powerRZ 2 e) in *. set (a := IZR m) in *.
  destruct l as [|[]]; cbn [located round_nearest_even] in *;
    unfold F2R in *; fold u a in Hloc |- *;
    try destruct (Z.even m); rewrite ?plus_IZR; fold a; nra.
Qed.

(** [Math.round] of a positive number is the integer [k] with
    [k <= x + 1/2 < k + 1]. *)
Lemma Math_round_spec M E :
  (IZR (JSNumber.Math_round (S754_finite false M E)) <= F2R (Z.pos M) E + / 2
   < IZR (JSNumber.Math_round (S754_finite false M E)) + 1)%R.
Proof.
  cbn [JSNumber.Math_round]. destruct (Z.leb_spec 0 E) as [HE | HE].
  - unfold F2R. rewrite mult_IZR, <- pow2_Z by lia. lra.
  - set (c := 2 ^ (- E)).
    assert (Hc : 0 < c) by (apply Z.pow_pos_nonneg; lia).
    assert (Hb : 2 ^ (1 - E) = 2 * c).
    { unfold c. replace (1 - E) with (1 + - E) by lia.
      rewrite Z.pow_add_r by lia. done. }
    rewrite Hb.
    pose proof (Z_div_mod (2 * Z.pos M + c) (2 * c)) as Hdm.
    unfold Z.div.
    destruct (Z.div_eucl (2 * Z.pos M + c) (2 * c)) as [k r].
    destruct Hdm as [Hk Hr]; [lia|]. cbn [fst].
    assert (HcR : (0 < IZR c)%R) by (apply IZR_lt; lia).
    assert (Hinv : (powerRZ 2 E * IZR c = 1)%R).
    { unfold c. rewrite <- pow2_Z, <- pow2_add by lia.
      replace (E + - E) with 0 by lia. reflexivity. }
    unfold F2R. set (u := powerRZ 2 E) in *.
    apply (f_equal IZR) in Hk.
    rewrite !plus_IZR, !mult_IZR in Hk.
    destruct Hr as [Hr0 Hr1]. apply IZR_le in Hr0. apply IZR_lt in Hr1.
    rewrite mult_IZR in Hr1.
    set (a := IZR (Z.pos M)) in *. set (kk := IZR k) in *.
    set (rr := IZR r) in *. set (cc := IZR c) in *.
    assert (Hu : (0 < u)%R) by apply pow2_pos.
    (* multiply through by 2c *)
    assert (H1 : ((a * u + / 2) * (2 * cc) = 2 * cc * kk + rr)%R).
    { rewrite <- Hk. rewrite Rmult_plus_distr_r.
      replace (a * u * (2 * cc))%R with (2 * a * (u * cc))%R by ring.
      rewrite Hinv. lra. }
    split.
    + apply Rmult_le_reg_r with (2 * cc)%R; [lra|]. rewrite H1. lra.
    + apply Rmult_lt_reg_r with (2 * cc)%R; [lra|]. rewrite H1. lra.
Qed.

Lemma of_Z_100 : JSNumber.of_Z 100 = S754_finite false 7036874417766400 (-46).
Proof. reflexivity. Qed.

Lemma F2R_100 : F2R (Z.pos 7036874417766400) (-46) = 100%R.
Proof.
  unfold F2R. change (Z.pos 7036874417766400) with (100 * 2 ^ 46).
  rewrite mult_IZR, <- pow2_Z, Rmult_assoc, <- pow2_add by lia.
  change (46 + -46) with 0. cbn. lra.
Qed.

(** The number [percent] computes: the quotient rounded, times 100,
    rounded. *)
Lemma percent_rounded (v t : nat) :
  0 < Z.of_nat v < 2 ^ 53 -> 0 < Z.of_nat t < 2 ^ 53 ->
  exists M1 E1 M E,
    rounded (IZR (Z.of_nat v) / IZR (Z.of_nat t)) (Z.pos M1) E1 /\
    percent v t = S754_finite false M E /\
    rounded (F2R (Z.pos M1) E1 * 100) (Z.pos M) E.
Proof.
  intros Hv Ht. unfold percent, JSNumber.mul, JSNumber.div.
  rewrite of_Z_100. unfold JSNumber.of_Z, JSNumber.prec, JSNumber.emax.
  destruct (of_Z_exact _ Hv) as (Mv & Ev & -> & HMv & HFv & HEv).
  destruct (of_Z_exact _ Ht) as (Mt & Et & -> & HMt & HFt & HEt).
  destruct (SFdiv_rounded Mv Ev Mt Et) as (M1 & E1 & -> & Hr1 & HE1);
    [lia..|].
  rewrite HFv, HFt in Hr1.
  assert (HM1 : 2 ^ 52 <= Z.pos M1 < 2 ^ 53).
  { by destruct Hr1 as (? & ? & ? & _ & _ & _ & ? & _). }
  destruct (SFmul_rounded M1 E1 7036874417766400 (-46))
    as (M & E & -> & Hr & HE); [lia..|].
  rewrite F2R_100 in Hr.
  by exists M1, E1, M, E.
Qed.

Lemma percent_zero (t : nat) :
  0 < Z.of_nat t < 2 ^ 53 -> percent 0 t = S754_zero false.
Proof.
  intros Ht. unfold percent, JSNumber.mul, JSNumber.div, JSNumber.of_Z,
    JSNumber.prec, JSNumber.emax.
  destruct (of_Z_exact _ Ht) as (Mt & Et & -> & _). reflexivity.
Qed.

Lemma Math_round_pos M E : 0 <= JSNumber.Math_round (S754_finite false M E).
Proof.
  pose proof (Math_round_spec M E) as [_ H].
  assert (0 < F2R (Z.pos M) E)%R.
  { unfold F2R. apply Rmult_lt_0_compat; [apply IZR_lt; lia | apply pow2_pos]. }
  assert (Hk : (IZR 0 < IZR (JSNumber.Math_round (S754_finite false M E) + 1))%R).
  { rewrite plus_IZR. lra. }
  apply lt_IZR in Hk. lia.
Qed.

(** The percentage grows with the number of pages viewed. *)
Lemma percent_mono (v v' t : nat) :
  (v <= v')%nat -> Z.of_nat v' < 2 ^ 53 -> 0 < Z.of_nat t < 2 ^ 53 ->
  JSNumber.Math_round (percent v t) <= JSNumber.Math_round (percent v' t).
Proof.
  intros Hvv Hv' Ht.
  destruct v as [|v].
  { rewrite percent_zero by done. cbn [JSNumber.Math_round].
    destruct v' as [|v'].
    - rewrite percent_zero by done. done.
    - destruct (percent_rounded (S v') t) as (? & ? & M & E & _ & -> & _);
        [lia | lia |]. apply Math_round_pos. }
  destruct (percent_rounded (S v) t) as (M1 & E1 & M & E & Hr1 & -> & Hr);
    [lia | lia |].
  destruct (percent_rounded v' t) as (M1' & E1' & M' & E' & Hr1' & -> & Hr');
    [lia | lia |].
  assert (Hq : (IZR (Z.of_nat (S v)) / IZR (Z.of_nat t)
                <= IZR (Z.of_nat v') / IZR (Z.of_nat t))%R).
  { apply Rmult_le_compat_r.
    - apply Rlt_le, Rinv_0_lt_compat, IZR_lt. lia.
    - apply IZR_le. lia. }
  pose proof (rounded_mono _ _ _ _ _ _ Hr1 Hr1' Hq) as H1.
  assert (H100 : (F2R (Z.pos M1) E1 * 100 <= F2R (Z.pos M1') E1' * 100)%R)
    by lra.
  pose proof (rounded_mono _ _ _ _ _ _ Hr Hr' H100) as H2.
  pose proof (Math_round_spec M E) as [Hk _].
  pose proof (Math_round_spec M' E') as [_ Hk'].
  assert (Hlt : (IZR (JSNumber.Math_round (S754_finite false M E))
                 < IZR (JSNumber.Math_round (S754_finite false M' E') + 1))%R).
  { rewrite plus_IZR. lra. }
  apply lt_IZR in Hlt. lia.
Qed.

(** Twice rounded, the percentage stays within [1 / (2 t)] of [100 v / t]. *)
Lemma percent_close (v t : nat) :
  0 < Z.of_nat v < 2 ^ 43 -> 0 < Z.of_nat t < 2 ^ 53 ->
  exists M E,
    percent v t = S754_finite false M E /\
    (200 * IZR (Z.of_nat v) - 1
     < 2 * IZR (Z.of_nat t) * F2R (Z.pos M) E
     < 200 * IZR (Z.of_nat v) + 1)%R.
Proof.
  intros Hv Ht.
  destruct (percent_rounded v t) as (M1 & E1 & M & E & Hr1 & Hp & Hr);
    [lia | lia |].
  exists M, E. split; [exact Hp|].
  apply rounded_error in Hr1 as (Hx & Hlo1 & Hhi1).
  apply rounded_error in Hr as (_ & Hlo2 & Hhi2).
  set (V := IZR (Z.of_nat v)) in *. set (T := IZR (Z.of_nat t)) in *.
  set (F1 := F2R (Z.pos M1) E1) in *. set (F2 := F2R (Z.pos M) E) in *.
  set (W := 9007199254740992%R) in *.
  assert (HT : (0 < T)%R) by (apply IZR_lt; lia).
  assert (HV : (1 <= V <= 8796093022207)%R).
  { split; apply IZR_le; lia. }
  assert (HxT : (V / T * T = V)%R) by (field; lra).
  set (x := (V / T)%R) in *.
  assert (HW : (W = 9007199254740992)%R) by reflexivity.
  assert (HF1 : (0 <= F1)%R) by nra.
  (* scale both error bounds to the common factor W * W * T *)
  assert (Hup : (F2 * W * W <= 100 * x * (W + 1) * (W + 1))%R).
  { apply Rle_trans with (100 * F1 * (W + 1) * W)%R; [nra|].
    replace (100 * F1 * (W + 1) * W)%R with (100 * (W + 1) * (F1 * W))%R by ring.
    replace (100 * x * (W + 1) * (W + 1))%R
      with (100 * (W + 1) * (x * (W + 1)))%R by ring.
    apply Rmult_le_compat_l; lra. }
  assert (Hdn : (100 * x * (W - 1) * (W - 1) <= F2 * W * W)%R).
  { apply Rle_trans with (100 * F1 * (W - 1) * W)%R; [|nra].
    replace (100 * F1 * (W - 1) * W)%R with (100 * (W - 1) * (F1 * W))%R by ring.
    replace (100 * x * (W - 1) * (W - 1))%R
      with (100 * (W - 1) * (x * (W - 1)))%R by ring.
    apply Rmult_le_compat_l; lra. }
  assert (Hup' : (2 * T * F2 * (W * W) <= 200 * V * ((W + 1) * (W + 1)))%R).
  { replace (200 * V)%R with (2 * T * (100 * x))%R by (rewrite <- HxT; ring).
    replace (2 * T * F2 * (W * W))%R with (2 * T * (F2 * W * W))%R by ring.
    replace (2 * T * (100 * x) * ((W + 1) * (W + 1)))%R
      with (2 * T * (100 * x * (W + 1) * (W + 1)))%R by ring.
    apply Rmult_le_compat_l; lra. }
  assert (Hdn' : (200 * V * ((W - 1) * (W - 1)) <= 2 * T * F2 * (W * W))%R).
  { replace (200 * V)%R with (2 * T * (100 * x))%R by (rewrite <- HxT; ring).
    replace (2 * T * F2 * (W * W))%R with (2 * T * (F2 * W * W))%R by ring.
    replace (2 * T * (100 * x) * ((W - 1) * (W - 1)))%R
      with (2 * T * (100 * x * (W - 1) * (W - 1)))%R by ring.
    apply Rmult_le_compat_l; lra. }
  assert (HWW : (0 < W * W)%R) by (unfold W; lra).
  split.
  - apply Rmult_lt_reg_r with (W * W)%R; [done|].
    apply Rlt_le_trans with (200 * V * ((W - 1) * (W - 1)))%R; [|done].
    unfold W. lra.
  - apply Rmult_lt_reg_r with (W * W)%R; [done|].
    apply Rle_lt_trans with (200 * V * ((W + 1) * (W + 1)))%R; [done|].
    unfold W. lra.
Qed.

(** [Math.round] of the percentage against the exact rounding of
    [100 v / t], halves going up: equal unless [100 v / t] is a half, and
    then equal or one less. *)
Lemma percent_accurate (v t : nat) :
  Z.of_nat v < 2 ^ 43 -> 0 < Z.of_nat t < 2 ^ 53 ->
  let k := JSNumber.Math_round (percent v t) in
  let a := 200 * Z.of_nat v + Z.of_nat t in
  let b := 2 * Z.of_nat t in
  a `div` b - 1 <= k <= a `div` b /\ (a `mod` b <> 0 -> k = a `div` b).
Proof.
  intros Hv Ht. cbv zeta.
  destruct v as [|v].
  { rewrite percent_zero by done. cbn [JSNumber.Math_round].
    change (200 * Z.of_nat 0) with 0. rewrite Z.add_0_l.
    rewrite Z.div_small by lia. lia. }
  destruct (percent_close (S v) t) as (M & E & -> & Hlo & Hhi); [lia | lia |].
  pose proof (Math_round_spec M E) as [Hk1 Hk2].
  set (k := JSNumber.Math_round (S754_finite false M E)) in *.
  set (V := Z.of_nat (S v)) in *. set (T := Z.of_nat t) in *.
  assert (HT : (0 < IZR T)%R) by (apply IZR_lt; lia).
  assert (Hbk : 2 * T * k <= 200 * V + T).
  { assert (H : (IZR (2 * T * k) < IZR (200 * V + T + 1))%R).
    { rewrite !plus_IZR, !mult_IZR. nra. }
    apply lt_IZR in H. lia. }
  assert (Hbk' : 200 * V + T <= 2 * T * (k + 1)).
  { assert (H : (IZR (200 * V + T - 1) < IZR (2 * T * (k + 1)))%R).
    { rewrite minus_IZR, !plus_IZR, !mult_IZR, plus_IZR. nra. }
    apply lt_IZR in H. lia. }
  assert (Hle : k <= (200 * V + T) `div` (2 * T))
    by (apply Z.div_le_lower_bound; lia).
  assert (Hge : (200 * V + T) `div` (2 * T) <= k + 1)
    by (apply Z.div_le_upper_bound; lia).
  split; [lia|].
  intros Hmod.
  assert (Hne : 200 * V + T <> 2 * T * (k + 1)).
  { intros Heq. apply Hmod. rewrite Heq, Z.mul_comm. apply Z.mod_mul. lia. }
  assert ((200 * V + T) `div` (2 * T) < k + 1)
    by (apply Z.div_lt_upper_bound; lia).
  lia.
Qed.


(** ** Running commands *)

Ltac run :=
  repeat (progress (cbv [mbind mret eff_bind eff_ret try_catch get modify
                         skip throw await JSON_parse toast completes];
                    cbn [fst snd])).

Lemma restoreNotes_frame courseId s :
  course (restoreNotes courseId s).2 = course s ∧
  topics (restoreNotes courseId s).2 = topics s ∧
  activeTopicIndex (restoreNotes courseId s).2 = activeTopicIndex s ∧
  currentPage (restoreNotes courseId s).2 = currentPage s.
Proof.
  unfold restoreNotes. run.
  destruct (notes_ (localStorage s) !! courseId) as [[raw|n]|]; cbn;
    try case_decide; cbn; auto.
Qed.

Lemma useFallback_run courseId closure s :
  useFallback courseId closure s =
  (Done tt,
   set_progress (initialProgress (completedTopics closure) buildFallbackTopics)
     (set_topics buildFallbackTopics
        (set_course (Some (fallbackCourse courseId)) s))).
Proof. reflexivity. Qed.

(** The network-error block of [loadCourse]: whatever the notes in the cache
    do, the fallback course and its topics are in place afterwards. *)
Lemma fallback_block courseId closure s :
  let r := (useFallback courseId closure;; restoreNotes courseId) s in
  course r.2 = Some (fallbackCourse courseId) ∧
  topics r.2 = buildFallbackTopics.
Proof.
  cbv zeta. unfold mbind, eff_bind. rewrite useFallback_run.
  match goal with
  | |- context [restoreNotes courseId ?s0] =>
      destruct (restoreNotes_frame courseId s0) as (Hc & Ht & _)
  end.
  split; [exact Hc | exact Ht].
Qed.

(** ** Content resolver *)

Lemma loadCourse_fallback_topics api courseId s :
  courseId ≠ "" →
  noRemoteTopics (getCourse api) →
  topics (loadCourse api courseId s).2 = buildFallbackTopics.
Proof.
  intros Hid Hno. unfold loadCourse. rewrite decide_False by done.
  unfold mbind at 1, eff_bind at 1, get at 1, try_catch at 1.
  destruct api as [[|[c|]] gp gn gb pb pc]; cbn [getCourse] in Hno |- *.
  - apply fallback_block.
  - cbn in Hno.
    match goal with
    | |- topics (match ?m s with _ => _ end).2 = _ =>
        destruct (m s) as [[[]|] s1] eqn:E
    end.
    + revert E. run. rewrite Hno. cbn.
      destruct gp as [|pr]; cbn;
        (destruct gn as [|nt]; cbn;
         [ match goal with
           | |- context [restoreNotes courseId ?s0] =>
               pose proof (restoreNotes_frame courseId s0) as (_ & Ht & _);
               destruct (restoreNotes courseId s0) as [[[]|] s2]; cbn in *
           end; intros [= <-]; exact Ht
         | intros [= <-]; reflexivity ]).
    + apply fallback_block.
  - reflexivity.
Qed.

Lemma loadCourse_fallback_course api courseId s :
  courseId ≠ "" →
  getCourse api = Failed ∨ getCourse api = Returned None →
  course (loadCourse api courseId s).2 = Some (fallbackCourse courseId).
Proof.
  intros Hid Hno. unfold loadCourse. rewrite decide_False by done.
  unfold mbind at 1, eff_bind at 1, get at 1, try_catch at 1.
  destruct Hno as [-> | ->].
  - apply fallback_block.
  - reflexivity.
Qed.

(** C2. Whenever the catalog request fails, returns no course, or returns a
    course without topics, the topics left by [loadCourse] are the fixed
    fallback ones, the same for every such call: eight topics [t1] to [t8]
    (the first titled ``Introduction'') of 17, 4, 7, 5, 13, 5, 4 and 2 pages,
    covering the images 2-18, 19-22, 23-29, 30-34, 35-47, 48-52, 53-56 and
    57-58. *)
Theorem loadCourse_fallback_structure api api' courseId s s' :
  courseId ≠ "" →
  noRemoteTopics (getCourse api) →
  noRemoteTopics (getCourse api') →
  let ts := topics (loadCourse api courseId s).2 in
  ts = topics (loadCourse api' courseId s').2 ∧
  (λ t, (_id t, length (images t))) <$> ts =
    [ ("t1", 17%nat); ("t2", 4%nat); ("t3", 7%nat); ("t4", 5%nat);
      ("t5", 13%nat); ("t6", 5%nat); ("t7", 4%nat); ("t8", 2%nat) ] ∧
  title <$> ts !! 0%nat = Some "Introduction" ∧
  images <$> ts =
    [ imagesBetween 2 18; imagesBetween 19 22; imagesBetween 23 29;
      imagesBetween 30 34; imagesBetween 35 47; imagesBetween 48 52;
      imagesBetween 53 56; imagesBetween 57 58 ].
Proof.
  intros Hid Hno Hno'. cbv zeta.
  rewrite !loadCourse_fallback_topics by done.
  repeat split; vm_compute; reflexivity.
Qed.

Lemma loadCourse_fallback_structure_witness :
  let api := mkRemote Failed Failed Failed Failed Failed Failed in
  let api' := mkRemote (Returned None) Failed Failed Failed Failed Failed in
  let ts := topics (loadCourse api "c1" (mount emptyStorage)).2 in
  ts = topics (loadCourse api' "c1" (mount emptyStorage)).2 ∧
  (λ t, (_id t, length (images t))) <$> ts =
    [ ("t1", 17%nat); ("t2", 4%nat); ("t3", 7%nat); ("t4", 5%nat);
      ("t5", 13%nat); ("t6", 5%nat); ("t7", 4%nat); ("t8", 2%nat) ] ∧
  title <$> ts !! 0%nat = Some "Introduction" ∧
  images <$> ts =
    [ imagesBetween 2 18; imagesBetween 19 22; imagesBetween 23 29;
      imagesBetween 30 34; imagesBetween 35 47; imagesBetween 48 52;
      imagesBetween 53 56; imagesBetween 57 58 ].
Proof.
  intros api api'.
  apply (loadCourse_fallback_structure api api' "c1"
           (mount emptyStorage) (mount emptyStorage));
    [ discriminate | exact I | exact I ].
Defined.

(** C10. When the catalog request fails or returns no course, the course
    left by [loadCourse] is the fallback course, whose [userHasAccess] is
    [true], so that [isLocked] is false: the locked overlay is not shown. *)
Theorem fallback_course_unlocked api courseId s :
  courseId ≠ "" →
  getCourse api = Failed ∨ getCourse api = Returned None →
  let s' := (loadCourse api courseId s).2 in
  course s' = Some (fallbackCourse courseId) ∧
  userHasAccess <$> course s' = Some (Some true) ∧
  isLocked s' = false.
Proof.
  intros Hid Hno. cbv zeta. unfold isLocked.
  rewrite loadCourse_fallback_course by done. done.
Qed.

Lemma fallback_course_unlocked_witness :
  let api := mkRemote Failed Failed Failed Failed Failed Failed in
  let s' := (loadCourse api "c1" (mount emptyStorage)).2 in
  course s' = Some (fallbackCourse "c1") ∧
  userHasAccess <$> course s' = Some (Some true) ∧
  isLocked s' = false.
Proof.
  intros api.
  apply (fallback_course_unlocked api "c1" (mount emptyStorage));
    [ discriminate | left; reflexivity ].
Defined.

(** ** Progress tracker: the viewed pages *)

Lemma markPageViewed_lookup topicId pageIndex prev :
  markPageViewed topicId pageIndex prev !! topicId =
  Some (default ∅ (prev !! topicId) ∪ {[pageIndex]}).
Proof. unfold markPageViewed. by rewrite lookup_insert_eq. Qed.

(** C3. Marking the same page of the same topic viewed twice in a row leaves
    [viewedPages] (hence [viewedPages[t]]) as a single call leaves it, both
    for the update itself and for the effect that applies and persists it. *)
Theorem markPageViewed_idempotent topicId pageIndex prev courseId s :
  markPageViewed topicId pageIndex (markPageViewed topicId pageIndex prev) =
    markPageViewed topicId pageIndex prev
  ∧ (trackPage courseId (trackPage courseId s).2).2 = (trackPage courseId s).2.
Proof.
  assert (Hidem : ∀ t p vp,
    markPageViewed t p (markPageViewed t p vp) = markPageViewed t p vp).
  { intros t p vp. unfold markPageViewed.
    rewrite lookup_insert_eq, insert_insert_eq. cbn.
    f_equal. by rewrite <- (assoc_L (∪)), (idemp_L (∪)). }
  split; [apply Hidem|].
  unfold trackPage, updateViewedPages. run. unfold activeTopic.
  destruct (topics s !! activeTopicIndex s) as [t|] eqn:Et; cbn.
  - rewrite Et. cbn. rewrite Hidem.
    unfold set_localStorage, set_viewedPages, setItem_viewedPages. cbn.
    by rewrite insert_insert_eq.
  - by rewrite Et.
Qed.

Lemma elem_of_allPages topic p :
  p ∈ allPages topic ↔ 0 ≤ p < Z.of_nat (length (images topic)).
Proof.
  unfold allPages. rewrite elem_of_list_to_set, list_elem_of_fmap.
  split.
  - intros (i & -> & Hi). apply elem_of_seq in Hi. lia.
  - intros Hp. exists (Z.to_nat p). split; [lia|].
    apply elem_of_seq. lia.
Qed.

Lemma size_allPages topic : size (allPages topic) = length (images topic).
Proof.
  unfold allPages. rewrite size_list_to_set.
  - by rewrite length_fmap, length_seq.
  - apply NoDup_fmap_2; [exact Nat2Z.inj | apply NoDup_seq].
Qed.

(** With topic ids that identify topics, [topics.find] and
    [topics.findIndex] on a topic's id give that topic and its position. *)
Lemma find_topic ts t :
  NoDup (_id <$> ts) → t ∈ ts →
  ∃ i, list_find (λ t', _id t' = _id t) ts = Some (i, t) ∧ ts !! i = Some t.
Proof.
  intros Hnd Hin. apply list_elem_of_lookup in Hin as [i Hi].
  exists i. split; [|done].
  apply list_find_Some. split_and!; [done..|].
  intros j y Hj Hlt Heq.
  assert (i = j); [|lia].
  eapply NoDup_lookup; [exact Hnd | |].
  - by rewrite list_lookup_fmap, Hi.
  - rewrite list_lookup_fmap, Hj. cbn. by rewrite Heq.
Qed.

(** What [markTopicComplete] leaves, field by field. *)
Lemma markTopicComplete_run api courseId tid s :
  let found := snd <$> list_find (λ t, _id t = tid) (topics s) in
  let vp := from_option (λ topic, fillTopic tid topic (viewedPages s))
              (viewedPages s) found in
  let next := (activeTopicIndex s + 1)%nat in
  let advance := bool_decide (next < length (topics s))%nat in
  let r := markTopicComplete api courseId tid s in
  completes r = true ∧
  course r.2 = course s ∧
  topics r.2 = topics s ∧
  progress r.2 = <[tid := 100]> (progress s) ∧
  completedTopics r.2 = <[tid := true]> (completedTopics s) ∧
  viewedPages r.2 = vp ∧
  activeTopicIndex r.2 = (if advance then next else activeTopicIndex s) ∧
  currentPage r.2 = (if advance then 0 else currentPage s) ∧
  toasts r.2 = toasts s ++ "✔ Topic Completed" ::
                 (if advance then [] else ["🎉 Course Completed"]).
Proof.
  cbv zeta. unfold markTopicComplete, completeTopic, updateViewedPages. run.
  destruct (list_find (λ t, _id t = tid) (topics s)) as [[i topic]|];
    destruct (postComplete api); cbn;
    case_decide; rewrite ?bool_decide_eq_true_2, ?bool_decide_eq_false_2 by done;
    cbn; rewrite <- ?(assoc_L (++)); done.
Qed.

(** C5. For a topic [t] of the loaded course (topic ids identifying topics),
    [markTopicComplete] on [t] completes without an exception, sets
    [completedTopics[t]], makes [viewedPages[t]] the whole range of page
    indices of [t], which has [pageCount t] members, and moves the active
    topic on to the next one with the page back at 0 when there is a next
    topic; when there is none it leaves both where they are and shows the
    course-completed toast. *)
Theorem markTopicComplete_spec api courseId s t :
  NoDup (_id <$> topics s) →
  t ∈ topics s →
  let r := markTopicComplete api courseId (_id t) s in
  completes r = true ∧
  completedTopics r.2 !! _id t = Some true ∧
  viewedPages r.2 !! _id t = Some (allPages t) ∧
  (∀ p, p ∈ allPages t ↔ 0 ≤ p < Z.of_nat (length (images t))) ∧
  size (allPages t) = length (images t) ∧
  (if decide (activeTopicIndex s + 1 < length (topics s))%nat
   then activeTopicIndex r.2 = (activeTopicIndex s + 1)%nat ∧
        activeTopic r.2 = topics s !! (activeTopicIndex s + 1)%nat ∧
        currentPage r.2 = 0 ∧
        toasts r.2 = toasts s ++ ["✔ Topic Completed"]
   else activeTopicIndex r.2 = activeTopicIndex s ∧
        currentPage r.2 = currentPage s ∧
        toasts r.2
        = toasts s ++ ["✔ Topic Completed"; "🎉 Course Completed"]).
Proof.
  intros Hnd Hin. cbv zeta.
  destruct (markTopicComplete_run api courseId (_id t) s)
    as (Hc & _ & Hts & _ & Hct & Hvp & Hai & Hcp & Hto).
  destruct (find_topic _ _ Hnd Hin) as (i & Hfind & _).
  rewrite Hfind in Hvp. cbn in Hvp.
  split_and!.
  - exact Hc.
  - rewrite Hct. apply lookup_insert_eq.
  - rewrite Hvp. apply lookup_insert_eq.
  - apply elem_of_allPages.
  - apply size_allPages.
  - case_decide.
    + rewrite bool_decide_eq_true_2 in Hai, Hcp, Hto by done.
      unfold activeTopic. rewrite Hts, Hai. done.
    + rewrite bool_decide_eq_false_2 in Hai, Hcp, Hto by done. done.
Qed.

Lemma markTopicComplete_spec_witness :
  let api := mkRemote Failed Failed Failed Failed Failed Failed in
  let s := (loadCourse api "c1" (mount emptyStorage)).2 in
  let t := mkTopic "t1" "Introduction" (courseImages 17 2) in
  let r := markTopicComplete api "c1" (_id t) s in
  completes r = true ∧
  completedTopics r.2 !! _id t = Some true ∧
  viewedPages r.2 !! _id t = Some (allPages t) ∧
  (∀ p, p ∈ allPages t ↔ 0 ≤ p < Z.of_nat (length (images t))) ∧
  size (allPages t) = length (images t) ∧
  (if decide (activeTopicIndex s + 1 < length (topics s))%nat
   then activeTopicIndex r.2 = (activeTopicIndex s + 1)%nat ∧
        activeTopic r.2 = topics s !! (activeTopicIndex s + 1)%nat ∧
        currentPage r.2 = 0 ∧
        toasts r.2 = toasts s ++ ["✔ Topic Completed"]
   else activeTopicIndex r.2 = activeTopicIndex s ∧
        currentPage r.2 = currentPage s ∧
        toasts r.2
        = toasts s ++ ["✔ Topic Completed"; "🎉 Course Completed"]).
Proof.
  intros api s t.
  apply (markTopicComplete_spec api "c1" s t).
  - apply (bool_decide_unpack _). vm_compute. exact I.
  - vm_compute. left.
Defined.

(** What [pageEffects] leaves when the page shown is the topic's last one
    and the topic is not yet at 100. *)
Lemma pageEffects_last_page api courseId s t :
  activeTopic s = Some t →
  currentPage s = Z.of_nat (length (images t)) - 1 →
  default 0 (progress s !! _id t) < 100 →
  let r := pageEffects api courseId s in
  completes r = true ∧
  topics r.2 = topics s ∧
  progress r.2 = <[_id t := 100]> (progress s) ∧
  completedTopics r.2 = <[_id t := true]> (completedTopics s) ∧
  viewedPages r.2 =
    fillTopic (_id t) t
      (markPageViewed (_id t) (currentPage s) (viewedPages s)) ∧
  activeTopicIndex r.2 = activeTopicIndex s ∧
  currentPage r.2 = currentPage s ∧
  toasts r.2 = toasts s ++ ["🎉 Topic Completed"].
Proof.
  intros Ht Hp Hlt. cbv zeta.
  unfold pageEffects, autoSaveBookmark, saveBookmark, trackPage, autoComplete,
    completeTopic, updateViewedPages.
  run. rewrite Ht.
  destruct (postBookmark api); cbn; unfold activeTopic in *; cbn;
    rewrite Ht; cbn; rewrite Ht; cbn;
    rewrite !bool_decide_eq_true_2 by done; cbn;
    destruct (postComplete api); cbn; done.
Qed.

(** C6. When the page shown is the last page of the active topic and the
    topic's recorded progress is below 100, the effects that follow the
    page change mark the topic complete and make its [viewedPages] entry the
    whole range of its pages: a set whose members are exactly the page
    indices [0 .. pageCount - 1] of the topic, [pageCount] of them, which is
    the entry that [markTopicComplete] leaves (topic ids identifying
    topics); [activeTopicIndex] and [currentPage] stay as they are. *)
Theorem autoComplete_no_advance api courseId s t :
  activeTopic s = Some t →
  currentPage s = Z.of_nat (length (images t)) - 1 →
  default 0 (progress s !! _id t) < 100 →
  let r := pageEffects api courseId s in
  completes r = true ∧
  completedTopics r.2 !! _id t = Some true ∧
  progress r.2 !! _id t = Some 100 ∧
  viewedPages r.2 !! _id t = Some (allPages t) ∧
  (∃ pages,
     viewedPages r.2 !! _id t = Some pages ∧
     (∀ p, p ∈ pages ↔ 0 ≤ p < Z.of_nat (length (images t))) ∧
     size pages = length (images t)) ∧
  (NoDup (_id <$> topics s) →
   viewedPages r.2 !! _id t =
   viewedPages (markTopicComplete api courseId (_id t) s).2 !! _id t) ∧
  activeTopicIndex r.2 = activeTopicIndex s ∧
  currentPage r.2 = currentPage s.
Proof.
  intros Ht Hp Hlt. cbv zeta.
  destruct (pageEffects_last_page api courseId s t Ht Hp Hlt)
    as (Hc & _ & Hpr & Hct & Hvp & Hai & Hcp & _).
  split_and!; try done.
  - rewrite Hct. apply lookup_insert_eq.
  - rewrite Hpr. apply lookup_insert_eq.
  - rewrite Hvp. apply lookup_insert_eq.
  - exists (allPages t). split_and!.
    + rewrite Hvp. apply lookup_insert_eq.
    + apply elem_of_allPages.
    + apply size_allPages.
  - intros Hnd.
    destruct (markTopicComplete_run api courseId (_id t) s)
      as (_ & _ & _ & _ & _ & Hvp' & _).
    assert (Hin : t ∈ topics s) by (eapply list_elem_of_lookup_2; exact Ht).
    destruct (find_topic _ _ Hnd Hin) as (i & Hfind & _).
    rewrite Hfind in Hvp'. cbn in Hvp'.
    rewrite Hvp, Hvp'. unfold fillTopic. by rewrite !lookup_insert_eq.
Qed.

Lemma autoComplete_no_advance_witness :
  let api := mkRemote Failed Failed Failed Failed Failed Failed in
  let s := set_currentPage 16 (loadCourse api "c1" (mount emptyStorage)).2 in
  let t := mkTopic "t1" "Introduction" (courseImages 17 2) in
  let r := pageEffects api "c1" s in
  completes r = true ∧
  completedTopics r.2 !! _id t = Some true ∧
  progress r.2 !! _id t = Some 100 ∧
  viewedPages r.2 !! _id t = Some (allPages t) ∧
  (∃ pages,
     viewedPages r.2 !! _id t = Some pages ∧
     (∀ p, p ∈ pages ↔ 0 ≤ p < Z.of_nat (length (images t))) ∧
     size pages = length (images t)) ∧
  (NoDup (_id <$> topics s) →
   viewedPages r.2 !! _id t =
   viewedPages (markTopicComplete api "c1" (_id t) s).2 !! _id t) ∧
  activeTopicIndex r.2 = activeTopicIndex s ∧
  currentPage r.2 = currentPage s.
Proof.
  intros api s t.
  apply (autoComplete_no_advance api "c1" s t);
    vm_compute; reflexivity.
Defined.

(** ** Progress tracker: the weighted progress *)

Lemma countPages_foldl vp ts acc :
  foldl (countPages vp) acc ts =
  (acc.1 + pageTotal ts, acc.2 + viewedTotal ts vp)%nat.
Proof.
  revert acc. induction ts as [|t ts IH]; intros [a b]; cbn.
  - f_equal; lia.
  - rewrite IH. unfold countPages, pageTotal, viewedTotal. cbn. f_equal; lia.
Qed.

(** [weightedProgress] in terms of the two sums. *)
Lemma weightedProgress_sums ts vp :
  weightedProgress ts vp =
  if decide (pageTotal ts = 0%nat) then 0
  else JSNumber.Math_round (percent (viewedTotal ts vp) (pageTotal ts)).
Proof.
  unfold weightedProgress. rewrite countPages_foldl. cbn [fst snd].
  rewrite !Nat.add_0_l. reflexivity.
Qed.

(** The division and the multiplication of [percent] yield neither NaN nor
    an infinity. *)
Lemma percent_finite (v t : nat) :
  Z.of_nat v < 2 ^ 53 -> 0 < Z.of_nat t < 2 ^ 53 ->
  percent v t = S754_zero false ∨
  ∃ M E, percent v t = S754_finite false M E.
Proof.
  intros Hv Ht. destruct v as [|v].
  - left. by apply percent_zero.
  - right. destruct (percent_rounded (S v) t) as (_ & _ & M & E & _ & Hp & _);
      [lia | lia |]. by exists M, E.
Qed.

(** C1, as the code has it. [weightedProgress] is 0 for a course without
    pages (so for one without topics); otherwise it is [Math.round] of the
    double [(viewedCount / totalPages) * 100], the sums being taken over all
    topics. With [v] pages viewed of [t], this is [100 v / t] rounded to the
    nearest integer whenever [100 v / t] is not exactly a half; when it is a
    half the result is that rounding (halves going up) or the integer
    below it, as the quotient was rounded to a double before it was scaled. *)
Theorem weightedProgress_rounding ts vp :
  Z.of_nat (pageTotal ts) < 2 ^ 53 →
  Z.of_nat (viewedTotal ts vp) < 2 ^ 43 →
  let t := Z.of_nat (pageTotal ts) in
  let v := Z.of_nat (viewedTotal ts vp) in
  weightedProgress [] vp = 0 ∧
  (t = 0 → weightedProgress ts vp = 0) ∧
  (t ≠ 0 →
   weightedProgress ts vp
   = JSNumber.Math_round (percent (viewedTotal ts vp) (pageTotal ts)) ∧
   roundHalfUp (100 * v) t - 1 ≤ weightedProgress ts vp
     ≤ roundHalfUp (100 * v) t ∧
   ((200 * v + t) `mod` (2 * t) ≠ 0 →
    weightedProgress ts vp = roundHalfUp (100 * v) t)).
Proof.
  intros Ht Hv. cbv zeta. split_and!.
  - reflexivity.
  - intros H0. rewrite weightedProgress_sums, decide_True by lia. reflexivity.
  - intros Hne. rewrite weightedProgress_sums, decide_False by lia.
    split; [reflexivity|].
    pose proof (percent_accurate (viewedTotal ts vp) (pageTotal ts)) as Hacc.
    cbv zeta in Hacc. unfold roundHalfUp.
    replace (2 * (100 * Z.of_nat (viewedTotal ts vp)))
      with (200 * Z.of_nat (viewedTotal ts vp)) by lia.
    apply Hacc; lia.
Qed.

Lemma weightedProgress_rounding_witness :
  let ts := buildFallbackTopics in
  let vp : gmap string (gset Z) :=
    fillTopic "t1" (mkTopic "t1" "Introduction" (courseImages 17 2)) ∅ in
  let t := Z.of_nat (pageTotal ts) in
  let v := Z.of_nat (viewedTotal ts vp) in
  weightedProgress [] vp = 0 ∧
  (t = 0 → weightedProgress ts vp = 0) ∧
  (t ≠ 0 →
   weightedProgress ts vp
   = JSNumber.Math_round (percent (viewedTotal ts vp) (pageTotal ts)) ∧
   roundHalfUp (100 * v) t - 1 ≤ weightedProgress ts vp
     ≤ roundHalfUp (100 * v) t ∧
   ((200 * v + t) `mod` (2 * t) ≠ 0 →
    weightedProgress ts vp = roundHalfUp (100 * v) t)).
Proof.
  intros ts vp.
  apply (weightedProgress_rounding ts vp); vm_compute; reflexivity.
Defined.

(** C1 fails as stated: with 23 pages viewed of 40, [100 * 23 / 40] is 57.5,
    which rounds to 58, and [weightedProgress] is 57: the double nearest to
    [23 / 40] times 100 is the double just below 57.5. *)
Lemma weightedProgress_23_of_40 :
  let ts := [mkTopic "a" "A" (courseImages 25 1);
             mkTopic "b" "B" (courseImages 15 26)] in
  let vp : gmap string (gset Z) :=
    {["a" := list_to_set (Z.of_nat <$> seq 0 23)]} in
  pageTotal ts = 40%nat ∧ viewedTotal ts vp = 23%nat ∧
  roundHalfUp (100 * 23) 40 = 58 ∧
  weightedProgress ts vp = 57.
Proof. vm_compute. done. Qed.

(** The numbers at work in that course: [23 / 40] is 0.575 rounded to 53
    bits, which lies below 0.575, and 100 times it rounds to the double just
    below 57.5; [1 / 8] is exact and 12.5 goes up to 13. *)
Example quotient_23_40 :
  JSNumber.div (JSNumber.of_Z 23) (JSNumber.of_Z 40)
  = S754_finite false 5179139571476070 (-53).
Proof. reflexivity. Qed.

Example percent_23_40 :
  percent 23 40 = S754_finite false 8092405580431359 (-47) ∧
  Z.pos 8092405580431359 + 1 = 115 * 2 ^ 46.
Proof. split; reflexivity. Qed.

Example percent_1_8 :
  percent 1 8 = S754_finite false 7036874417766400 (-49) ∧
  JSNumber.Math_round (percent 1 8) = 13.
Proof. split; reflexivity. Qed.

(** ** Progress tracker: monotonicity *)

Lemma topic_unique ts t t' :
  NoDup (_id <$> ts) → t ∈ ts → t' ∈ ts → _id t = _id t' → t = t'.
Proof.
  intros Hnd Ht Ht' Hid.
  destruct (find_topic ts t Hnd Ht) as (i & Hf & _).
  destruct (find_topic ts t' Hnd Ht') as (i' & Hf' & _).
  rewrite Hid in Hf. rewrite Hf in Hf'. by inversion Hf'.
Qed.

Lemma viewedTotal_mono ts vp vp' :
  (∀ t, t ∈ ts →
     (from_option size 0 (vp !! _id t)
      ≤ from_option size 0 (vp' !! _id t))%nat) →
  (viewedTotal ts vp ≤ viewedTotal ts vp')%nat.
Proof.
  unfold viewedTotal. induction ts as [|t ts IH]; intros Hle; cbn; [lia|].
  assert (from_option size 0 (vp !! _id t)
          ≤ from_option size 0 (vp' !! _id t))%nat
    by (apply Hle; left).
  assert (sum_list ((λ t, from_option size 0%nat (vp !! _id t)) <$> ts)
          ≤ sum_list ((λ t, from_option size 0%nat (vp' !! _id t)) <$> ts))%nat
    by (apply IH; intros; apply Hle; by right).
  lia.
Qed.

Lemma size_in_range t (pages : gset Z) :
  (∀ p, p ∈ pages → 0 ≤ p < Z.of_nat (length (images t))) →
  (size pages ≤ length (images t))%nat.
Proof.
  intros Hin. rewrite <- (size_allPages t). apply subseteq_size.
  intros p Hp. apply elem_of_allPages. by apply Hin.
Qed.

(** Under the invariant no more pages are viewed than there are. *)
Lemma viewedTotal_bound ts vp :
  pagesInRange ts vp → (viewedTotal ts vp ≤ pageTotal ts)%nat.
Proof.
  unfold viewedTotal, pageTotal.
  induction ts as [|t ts IH]; intros Hin; cbn; [lia|].
  assert (from_option size 0 (vp !! _id t) ≤ length (images t))%nat.
  { pose proof (Hin t ltac:(left)) as Ht.
    destruct (vp !! _id t) as [pages|]; cbn in *; [|lia].
    by apply size_in_range. }
  assert (sum_list ((λ t, from_option size 0%nat (vp !! _id t)) <$> ts)
          ≤ sum_list ((λ t, length (images t)) <$> ts))%nat.
  { apply IH. intros t' Ht'. apply Hin. by right. }
  lia.
Qed.

(** More pages viewed, no less progress. *)
Lemma weightedProgress_mono ts vp vp' :
  Z.of_nat (pageTotal ts) < 2 ^ 53 →
  (viewedTotal ts vp ≤ viewedTotal ts vp')%nat →
  (viewedTotal ts vp' ≤ pageTotal ts)%nat →
  weightedProgress ts vp ≤ weightedProgress ts vp'.
Proof.
  intros Ht Hle Hb. rewrite !weightedProgress_sums.
  case_decide; [done|]. apply percent_mono; lia.
Qed.

Lemma markPageViewed_step ts tid p vp :
  NoDup (_id <$> ts) → pagesInRange ts vp →
  validCall ts (MarkPageViewed tid p) →
  pagesInRange ts (markPageViewed tid p vp) ∧
  (viewedTotal ts vp ≤ viewedTotal ts (markPageViewed tid p vp))%nat.
Proof.
  intros Hnd Hin (t & Ht & <- & Hp). unfold markPageViewed. split.
  - intros t' Ht' q.
    destruct (decide (_id t = _id t')) as [Heq | Hne].
    + assert (t = t') as <- by (by eapply topic_unique).
      rewrite lookup_insert_eq. cbn.
      rewrite elem_of_union, elem_of_singleton.
      intros [Hq | ->]; [by apply (Hin t) | done].
    + rewrite lookup_insert_ne by done. by apply Hin.
  - apply viewedTotal_mono. intros t' Ht'.
    destruct (decide (_id t = _id t')) as [Heq | Hne].
    + rewrite <- Heq, lookup_insert_eq. cbn.
      destruct (vp !! _id t) as [pages|]; cbn; [|lia].
      apply subseteq_size, union_subseteq_l.
    + by rewrite lookup_insert_ne.
Qed.

Lemma fillTopic_step ts tid topic vp :
  NoDup (_id <$> ts) → pagesInRange ts vp →
  list_find (λ t, _id t = tid) ts = Some topic →
  pagesInRange ts (fillTopic tid topic.2 vp) ∧
  (viewedTotal ts vp ≤ viewedTotal ts (fillTopic tid topic.2 vp))%nat.
Proof.
  intros Hnd Hin Hfind. destruct topic as [i t]. cbn [snd].
  apply list_find_Some in Hfind as (Hi & <- & _).
  assert (Ht : t ∈ ts) by (by eapply list_elem_of_lookup_2).
  unfold fillTopic. split.
  - intros t' Ht' q.
    destruct (decide (_id t = _id t')) as [Heq | Hne].
    + assert (t = t') as <- by (by eapply topic_unique).
      rewrite lookup_insert_eq. cbn. by rewrite elem_of_allPages.
    + rewrite lookup_insert_ne by done. by apply Hin.
  - apply viewedTotal_mono. intros t' Ht'.
    destruct (decide (_id t = _id t')) as [Heq | Hne].
    + assert (t = t') as <- by (by eapply topic_unique).
      rewrite lookup_insert_eq. cbn. rewrite size_allPages.
      pose proof (Hin t Ht) as Hr.
      destruct (vp !! _id t) as [pages|]; cbn in *; [|lia].
      by apply size_in_range.
    + by rewrite lookup_insert_ne.
Qed.

(** A valid call keeps the topics and the invariant, and the number of
    pages viewed does not go down. *)
Lemma runCall_step api courseId c s :
  NoDup (_id <$> topics s) →
  pagesInRange (topics s) (viewedPages s) →
  validCall (topics s) c →
  let s' := (runCall api courseId c s).2 in
  topics s' = topics s ∧
  pagesInRange (topics s) (viewedPages s') ∧
  (viewedTotal (topics s) (viewedPages s)
   ≤ viewedTotal (topics s) (viewedPages s'))%nat.
Proof.
  intros Hnd Hin Hvalid. cbv zeta. destruct c as [tid p | tid]; cbn [runCall].
  - unfold updateViewedPages, modify. cbn.
    split; [done|]. by apply markPageViewed_step.
  - destruct (markTopicComplete_run api courseId tid s)
      as (_ & _ & Hts & _ & _ & Hvp & _).
    rewrite Hvp. split; [exact Hts|].
    destruct (list_find (λ t, _id t = tid) (topics s)) as [topic|] eqn:Hfind;
      cbn.
    + by apply fillTopic_step.
    + done.
Qed.

(** C4. From a state that satisfies the invariant of the data model (the
    pages viewed of each topic are page indices of it; topic ids identify
    topics; page counts fit a double exactly), along any sequence of
    [markPageViewed] and [markTopicComplete] calls with page indices in
    range, each value of [weightedProgress] is at least the one before. *)
Theorem weightedProgress_monotone api courseId calls s :
  NoDup (_id <$> topics s) →
  Z.of_nat (pageTotal (topics s)) < 2 ^ 53 →
  pagesInRange (topics s) (viewedPages s) →
  Forall (validCall (topics s)) calls →
  Sorted Z.le (progressTrace api courseId calls s).
Proof.
  intros Hnd Ht Hin Hcalls. revert s Hnd Ht Hin Hcalls.
  induction calls as [|c calls IH]; intros s Hnd Ht Hin Hcalls;
    cbn [progressTrace].
  - repeat constructor.
  - apply Forall_cons in Hcalls as [Hc Hcalls].
    destruct (runCall_step api courseId c s Hnd Hin Hc) as (Hts & Hin' & Hle).
    set (s' := (runCall api courseId c s).2) in *.
    constructor.
    + apply IH; rewrite ?Hts; done.
    + assert (Hstep : weightedProgress (topics s) (viewedPages s)
                      ≤ weightedProgress (topics s') (viewedPages s')).
      { rewrite Hts. apply weightedProgress_mono; [done | done |].
        by apply viewedTotal_bound. }
      destruct calls; cbn [progressTrace]; by constructor.
Qed.

Lemma weightedProgress_monotone_witness :
  let api := mkRemote Failed Failed Failed Failed Failed Failed in
  let s := (loadCourse api "c1" (mount emptyStorage)).2 in
  let calls := [MarkPageViewed "t1" 0; MarkTopicComplete "t1";
                MarkPageViewed "t1" 1; MarkTopicComplete "t8"] in
  Sorted Z.le (progressTrace api "c1" calls s).
Proof.
  intros api s calls.
  assert (Hpage : ∀ p, 0 ≤ p < 17 →
            validCall (topics s) (MarkPageViewed "t1" p)).
  { intros p Hp.
    exists (mkTopic "t1" "Introduction" (courseImages 17 2)).
    split; [left | split; [reflexivity | exact Hp]]. }
  apply (weightedProgress_monotone api "c1" calls s).
  - apply (bool_decide_unpack _). vm_compute. exact I.
  - vm_compute. reflexivity.
  - intros t Ht p Hp. vm_compute in Hp. discriminate Hp.
  - apply Forall_cons_2; [apply Hpage; lia|].
    apply Forall_cons_2; [exact I|].
    apply Forall_cons_2; [apply Hpage; lia|].
    apply Forall_cons_2; [exact I|].
    apply Forall_nil_2.
Defined.

(** ** Navigation keeps the page in range *)

Lemma nextPage_in_range s t :
  activeTopic s = Some t →
  0 ≤ currentPage s < Z.of_nat (length (images t)) →
  activeTopic (nextPage s).2 = Some t ∧
  0 ≤ currentPage (nextPage s).2 < Z.of_nat (length (images t)).
Proof.
  intros Ht Hp. unfold nextPage, totalPages. run. cbn.
  unfold activeTopic in *. cbn. rewrite Ht. cbn. split; [done|lia].
Qed.

Lemma prevPage_in_range s t :
  activeTopic s = Some t →
  0 ≤ currentPage s < Z.of_nat (length (images t)) →
  activeTopic (prevPage s).2 = Some t ∧
  0 ≤ currentPage (prevPage s).2 < Z.of_nat (length (images t)).
Proof.
  intros Ht Hp. unfold prevPage. run. cbn.
  unfold activeTopic in *. cbn. split; [done|lia].
Qed.

(** The page-tracking effect is a [markPageViewed] call with valid
    arguments as long as the page shown is a page of the active topic. *)
Lemma trackPage_valid courseId s t :
  activeTopic s = Some t →
  0 ≤ currentPage s < Z.of_nat (length (images t)) →
  trackPage courseId s
  = updateViewedPages courseId (markPageViewed (_id t) (currentPage s)) s ∧
  validCall (topics s) (MarkPageViewed (_id t) (currentPage s)).
Proof.
  intros Ht Hp. split.
  - unfold trackPage. run. by rewrite Ht.
  - exists t. split_and!; try done; try lia.
    by eapply list_elem_of_lookup_2.
Qed.

(** A fresh course with the backend unreachable: the fallback topics, no
    progress; showing the first page gives 2 (one page of 57); reaching the
    last page of the first topic completes it, gives 30 (17 of 57) and leaves
    the reader on that topic and page. *)
Example fresh_course_no_network :
  let api := mkRemote Failed Failed Failed Failed Failed Failed in
  let s0 := (loadCourse api "c1" (mount emptyStorage)).2 in
  let s1 := (pageEffects api "c1" s0).2 in
  let s2 := (pageEffects api "c1" (set_currentPage 16 s1)).2 in
  topics s0 = buildFallbackTopics ∧
  weightedProgress (topics s0) (viewedPages s0) = 0 ∧
  weightedProgress (topics s1) (viewedPages s1) = 2 ∧
  weightedProgress (topics s2) (viewedPages s2) = 30 ∧
  (activeTopicIndex s2, currentPage s2) = (0%nat, 16) ∧
  completedTopics s2 !! "t1" = Some true ∧
  bookmark_ (localStorage s2) !! "c1" = Some (Stored (mkBookmark "t1" 16)).
Proof. vm_compute. done. Qed.

(** ** Bookmark manager *)

Lemma applyBookmark_run closure bm s :
  applyBookmark closure bm s =
  (Done tt,
   match list_find (λ t, _id t = topicId bm) (topics closure) with
   | Some (i, _) => set_currentPage (imageIndex bm) (set_activeTopicIndex i s)
   | None => s
   end).
Proof.
  unfold applyBookmark.
  by destruct (list_find _ (topics closure)) as [[i t]|].
Qed.

(** Where [loadBookmark] takes its bookmark from, and what it does with it. *)
Lemma loadBookmark_run api courseId s :
  loadBookmark api courseId s =
  match getBookmark api with
  | Returned (Some bm) => applyBookmark s bm s
  | Returned None => (Done tt, s)
  | Failed =>
      match bookmark_ (localStorage s) !! courseId with
      | Some (Stored bm) => applyBookmark s bm s
      | Some (Malformed raw) =>
          if decide (raw = "") then (Done tt, s) else (Thrown, s)
      | None => (Done tt, s)
      end
  end.
Proof.
  unfold loadBookmark. run.
  destruct (getBookmark api) as [|[bm|]]; cbn.
  - destruct (bookmark_ (localStorage s) !! courseId) as [[raw|bm]|]; cbn;
      [case_decide; reflexivity | | reflexivity].
    by destruct (applyBookmark s bm s) as [[[]|] s'].
  - by destruct (applyBookmark s bm s) as [[[]|] s'] eqn:E;
      rewrite applyBookmark_run in E; inversion E.
  - reflexivity.
Qed.

(** C7 fails on the code. The load checks the topic id of a bookmark and
    nothing else. For every bookmark obtained at load time, from the backend
    or, when the request fails, from the cache, whose [topicId] names a
    topic of the course and whose [imageIndex] lies outside that topic's
    page range, the load completes and makes [imageIndex] the current page
    exactly as stored, neither clamped nor dropped: the page shown is not a
    page of the active topic, and the tracking effect that follows records
    it among the pages viewed of that topic, so that the pages viewed are no
    longer pages of their topics. *)
Theorem loadBookmark_page_unchecked api courseId s bm i t :
  getBookmark api = Returned (Some bm) ∨
  (getBookmark api = Failed ∧
   bookmark_ (localStorage s) !! courseId = Some (Stored bm)) →
  list_find (λ t, _id t = topicId bm) (topics s) = Some (i, t) →
  ¬ (0 ≤ imageIndex bm < Z.of_nat (length (images t))) →
  let r := loadBookmark api courseId s in
  let tracked := (trackPage courseId r.2).2 in
  completes r = true ∧
  activeTopicIndex r.2 = i ∧
  activeTopic r.2 = Some t ∧
  currentPage r.2 = imageIndex bm ∧
  ¬ (0 ≤ currentPage r.2 < totalPages r.2) ∧
  topics tracked = topics s ∧
  imageIndex bm ∈ default ∅ (viewedPages tracked !! _id t) ∧
  ¬ pagesInRange (topics tracked) (viewedPages tracked).
Proof.
  intros Hbm Hfind Hout. cbv zeta.
  assert (Hrun : loadBookmark api courseId s = applyBookmark s bm s).
  { rewrite loadBookmark_run.
    destruct Hbm as [-> | [-> ->]]; reflexivity. }
  rewrite Hrun, applyBookmark_run, Hfind. cbn [fst snd completes].
  pose proof Hfind as Hf. apply list_find_Some in Hf as (Hi & Hid & _).
  set (s1 := set_currentPage (imageIndex bm) (set_activeTopicIndex i s)).
  assert (Hact : activeTopic s1 = Some t) by exact Hi.
  assert (Htin : t ∈ topics s) by (by eapply list_elem_of_lookup_2).
  assert (Htrack : viewedPages (trackPage courseId s1).2 !! _id t
                   = Some (default ∅ (viewedPages s !! _id t)
                           ∪ {[imageIndex bm]})).
  { unfold trackPage, updateViewedPages. run. rewrite Hact. cbn.
    apply lookup_insert_eq. }
  assert (Htopics : topics (trackPage courseId s1).2 = topics s).
  { unfold trackPage, updateViewedPages. run. by rewrite Hact. }
  assert (Hin : imageIndex bm
                ∈ default ∅ (viewedPages (trackPage courseId s1).2 !! _id t)).
  { rewrite Htrack. cbn. apply elem_of_union_r. by apply elem_of_singleton. }
  split_and!; try done.
  - unfold totalPages. rewrite Hact. exact Hout.
  - intros Hrange. apply Hout. apply (Hrange t); [by rewrite Htopics | done].
Qed.

Lemma loadBookmark_page_unchecked_witness :
  let bm := mkBookmark "t8" 5 in
  let api := mkRemote Failed Failed Failed (Returned (Some bm)) Failed Failed in
  let s := (loadCourse api "c1" (mount emptyStorage)).2 in
  let t := mkTopic "t8" "Author's Message" (courseImages 2 57) in
  let r := loadBookmark api "c1" s in
  let tracked := (trackPage "c1" r.2).2 in
  completes r = true ∧
  activeTopicIndex r.2 = 7%nat ∧
  activeTopic r.2 = Some t ∧
  currentPage r.2 = imageIndex bm ∧
  ¬ (0 ≤ currentPage r.2 < totalPages r.2) ∧
  topics tracked = topics s ∧
  imageIndex bm ∈ default ∅ (viewedPages tracked !! _id t) ∧
  ¬ pagesInRange (topics tracked) (viewedPages tracked).
Proof.
  intros bm api s t.
  apply (loadBookmark_page_unchecked api "c1" s bm 7%nat t).
  - left. reflexivity.
  - vm_compute. reflexivity.
  - change (¬ (0 ≤ 5 < Z.of_nat 2)). lia.
Defined.

(** What the unchecked page does to the reader. On the fallback course the
    backend's bookmark is page 5 of [t8], a topic of two pages. The reader
    opens on ``Page 6 / 2'' with Prev enabled. Each page shown is recorded
    as viewed: the weighted progress, 0 at load, is 2 after the effects of
    the first render and 4, 5 and 7 after the first three clicks on Prev,
    with three pages counted that the topic does not have. The fourth click
    reaches page 1, the topic's last page, where the auto-complete replaces
    the entry by the topic's two pages, and the progress falls from 7
    to 4. *)
Example bookmark_out_of_range_session :
  let bm := mkBookmark "t8" 5 in
  let api := mkRemote Failed Failed Failed (Returned (Some bm)) Failed Failed in
  let s0 := (loadCourse api "c1" (mount emptyStorage)).2 in
  let s := (loadBookmark api "c1" s0).2 in
  let s1 := (pageEffects api "c1" s).2 in
  let after n := default s1 (play api "c1" (replicate n Prev) s1) in
  let shown := [0; 1; 2; 3; 4]%nat in
  (currentPage s, totalPages s) = (5, 2) ∧
  weightedProgress (topics s) (viewedPages s) = 0 ∧
  is_Some (play api "c1" (replicate 4%nat Prev) s1) ∧
  (λ n, currentPage (after n)) <$> shown = [5; 4; 3; 2; 1] ∧
  (λ n, weightedProgress (topics (after n)) (viewedPages (after n))) <$> shown
    = [2; 4; 5; 7; 4] ∧
  viewedPages (after 3%nat) !! "t8" = Some ({[2; 3; 4; 5]} : gset Z) ∧
  viewedPages (after 4%nat) !! "t8" = Some ({[0; 1]} : gset Z).
Proof.
  cbv zeta. split_and!; try (vm_compute; reflexivity).
  vm_compute. eexists. reflexivity.
Qed.

(** C8 fails on the code. The cache is read in the [catch] of the load and
    nowhere else. When the backend answers the bookmark request with no
    bookmark, a bookmark in the cache that names a topic of the course, with
    a page of that topic, is not read: the load completes and leaves the
    reader where it was. Had the request failed, the same cached bookmark
    would have been applied. The cache holds such a bookmark after any save
    that the backend did not take. *)
Theorem loadBookmark_null_skips_cache api courseId s bm i t :
  getBookmark api = Returned None →
  bookmark_ (localStorage s) !! courseId = Some (Stored bm) →
  list_find (λ t, _id t = topicId bm) (topics s) = Some (i, t) →
  0 ≤ imageIndex bm < Z.of_nat (length (images t)) →
  (activeTopicIndex s, currentPage s) ≠ (i, imageIndex bm) →
  let r := loadBookmark api courseId s in
  r = (Done tt, s) ∧
  (activeTopicIndex r.2, currentPage r.2) ≠ (i, imageIndex bm) ∧
  (∀ down, getBookmark down = Failed →
     let r' := loadBookmark down courseId s in
     completes r' = true ∧
     (activeTopicIndex r'.2, currentPage r'.2) = (i, imageIndex bm)) ∧
  (∀ down s0,
     postBookmark down = Failed →
     bookmark_ (localStorage
                  (saveBookmark down courseId (topicId bm) (imageIndex bm)
                     s0).2) !! courseId
     = Some (Stored bm)).
Proof.
  intros Hnull Hcache Hfind Hrange Hpos. cbv zeta.
  rewrite loadBookmark_run, Hnull. split_and!; try done.
  - intros down Hdown.
    rewrite loadBookmark_run, Hdown, Hcache, applyBookmark_run, Hfind. done.
  - intros down s0 Hpost. unfold saveBookmark. run. rewrite Hpost. cbn.
    rewrite lookup_insert_eq. by destruct bm.
Qed.

Lemma loadBookmark_null_skips_cache_witness :
  let down := mkRemote Failed Failed Failed Failed Failed Failed in
  let up := mkRemote Failed Failed Failed (Returned None) Failed Failed in
  let bm := mkBookmark "t2" 3 in
  let s0 := set_currentPage 3
              (set_activeTopicIndex 1
                 (loadCourse down "c1" (mount emptyStorage)).2) in
  let ls := localStorage (autoSaveBookmark down "c1" s0).2 in
  let s := (loadCourse up "c1" (mount ls)).2 in
  let t := mkTopic "t2" "Understanding Doji Candles" (courseImages 4 19) in
  let r := loadBookmark up "c1" s in
  r = (Done tt, s) ∧
  (activeTopicIndex r.2, currentPage r.2) ≠ (1%nat, imageIndex bm) ∧
  (∀ down, getBookmark down = Failed →
     let r' := loadBookmark down "c1" s in
     completes r' = true ∧
     (activeTopicIndex r'.2, currentPage r'.2) = (1%nat, imageIndex bm)) ∧
  (∀ down s0,
     postBookmark down = Failed →
     bookmark_ (localStorage
                  (saveBookmark down "c1" (topicId bm) (imageIndex bm)
                     s0).2) !! "c1"
     = Some (Stored bm)).
Proof.
  intros down up bm s0 ls s t.
  apply (loadBookmark_null_skips_cache up "c1" s bm 1%nat t).
  - reflexivity.
  - vm_compute. reflexivity.
  - vm_compute. reflexivity.
  - change (0 ≤ 3 < Z.of_nat 4). lia.
  - vm_compute. intros H. discriminate H.
Defined.

(** ** Exceptions *)

(** C9 fails on the code. With the backend unreachable and a text that is
    not JSON under [notes_c1], [JSON.parse] throws in the catch block of
    [loadCourse] and the exception leaves the effect; the same holds for
    [loadBookmark] and [bookmark_c1]. When only the notes request fails, the
    exception thrown in the inner catch block first replaces the course the
    backend sent by the fallback course. The effect that restores
    [viewedPages] and [completedTopics] guards its [JSON.parse] calls and
    completes on the same texts. *)
Theorem malformed_cache_escapes :
  let down := mkRemote Failed Failed Failed Failed Failed Failed in
  let bad {A} : cached A := Malformed "{" in
  let ls := mkStorage {["c1" := bad]} {["c1" := bad]} {["c1" := bad]}
              {["c1" := bad]} ∅ in
  let sent := mkCourse "c1" "Sent by the backend"
                (Some [mkTopic "a" "A" ["/a/1.jpeg"]]) None (Some false) in
  let notesDown := mkRemote (Returned (Some sent)) Failed Failed Failed
                     Failed Failed in
  completes (loadCourse down "c1" (mount ls)) = false ∧
  completes (loadBookmark down "c1" (mount ls)) = false ∧
  completes (loadCourse notesDown "c1" (mount ls)) = false ∧
  course (loadCourse notesDown "c1" (mount ls)).2 = Some (fallbackCourse "c1") ∧
  completes (loadPersisted "c1" (loadCourse down "c1" (mount ls)).2) = true.
Proof. vm_compute. done. Qed.

(** * Further properties: reloads, sessions, the context and the dashboard *)

(** ** What is kept in the cache comes back *)

Lemma loadPersisted_run courseId s :
  courseId ≠ "" → topics s ≠ [] →
  loadPersisted courseId s =
  (Done tt,
   let s1 :=
     match viewedPages_ (localStorage s) !! courseId with
     | Some (Stored parsed) => set_viewedPages (list_to_set <$> parsed) s
     | Some (Malformed raw) =>
         if decide (raw = "") then s else set_viewedPages ∅ s
     | None => s
     end in
   match completedTopics_ (localStorage s) !! courseId with
   | Some (Stored parsed) =>
       set_progress
         (((λ _ : bool, 100) <$> filter (λ kv, kv.2 = true) parsed)
            ∪ progress s1)
         (set_completedTopics parsed s1)
   | _ => s1
   end).
Proof.
  intros Hid Hts. unfold loadPersisted. run.
  rewrite (bool_decide_eq_false_2 (courseId = "")) by done.
  rewrite (bool_decide_eq_false_2 (length (topics s) = 0%nat))
    by (destruct (topics s); cbn; done).
  cbn.
  destruct (viewedPages_ (localStorage s) !! courseId) as [[raw|parsed]|];
    cbn; try case_decide; cbn;
    destruct (completedTopics_ (localStorage s) !! courseId)
      as [[raw'|parsed']|]; cbn; try case_decide; cbn; reflexivity.
Qed.

(** X1. The effect that restores [viewedPages] and [completedTopics] ends
    without an exception whatever the cache holds. A text that is not JSON
    under [viewedPages_<id>] empties [viewedPages]; one under
    [completedTopics_<id>] leaves [completedTopics] and [progress] alone. *)
Theorem loadPersisted_guarded courseId s :
  completes (loadPersisted courseId s) = true ∧
  (∀ raw, courseId ≠ "" → topics s ≠ [] → raw ≠ "" →
     viewedPages_ (localStorage s) !! courseId = Some (Malformed raw) →
     viewedPages (loadPersisted courseId s).2 = ∅) ∧
  (∀ raw,
     completedTopics_ (localStorage s) !! courseId = Some (Malformed raw) →
     completedTopics (loadPersisted courseId s).2 = completedTopics s ∧
     progress (loadPersisted courseId s).2 = progress s).
Proof.
  destruct (decide (courseId = "")) as [-> | Hid];
    [| destruct (topics s) as [|t ts] eqn:Hts].
  - unfold loadPersisted. run. cbn. split_and!; done.
  - unfold loadPersisted. run.
    rewrite Hts. cbn. rewrite orb_true_r. cbn. split_and!; done.
  - assert (Hne : topics s ≠ []) by (rewrite Hts; done).
    rewrite loadPersisted_run by done. split_and!.
    + reflexivity.
    + intros raw _ _ Hraw ->. cbn. rewrite decide_False by done.
      by destruct (completedTopics_ (localStorage s) !! courseId) as [[|]|].
    + intros raw ->. cbn.
      destruct (viewedPages_ (localStorage s) !! courseId) as [[raw'|]|];
        try case_decide; done.
Qed.

Lemma sets_of_arrays (vp : gmap string (gset Z)) :
  (list_to_set <$> (elements <$> vp) : gmap string (gset Z)) = vp.
Proof.
  rewrite <- map_fmap_compose. rewrite <- (map_fmap_id vp) at 2.
  apply map_fmap_ext. intros k X _. cbn. apply list_to_set_elements_L.
Qed.

(** X2. What an update of [viewedPages] writes to the cache, the restoring
    effect reads back: a reader that starts on that cache, with the topics
    loaded, has the [viewedPages] the update produced. *)
Theorem viewedPages_roundtrip courseId f s s' :
  courseId ≠ "" → topics s' ≠ [] →
  localStorage s' = localStorage (updateViewedPages courseId f s).2 →
  completes (loadPersisted courseId s') = true ∧
  viewedPages (loadPersisted courseId s').2 = f (viewedPages s) ∧
  viewedPages (updateViewedPages courseId f s).2 = f (viewedPages s).
Proof.
  intros Hid Hts Hls. rewrite loadPersisted_run by done.
  split; [reflexivity|]. split; [|reflexivity].
  rewrite Hls. cbn. rewrite lookup_insert_eq.
  destruct (completedTopics_ (localStorage s) !! courseId) as [[|]|];
    cbn; apply sets_of_arrays.
Qed.

Lemma viewedPages_roundtrip_witness :
  let api := mkRemote Failed Failed Failed Failed Failed Failed in
  let s := (loadCourse api "c1" (mount emptyStorage)).2 in
  let f := markPageViewed "t1" 3 in
  let s' := (loadCourse api "c1"
               (mount (localStorage (updateViewedPages "c1" f s).2))).2 in
  completes (loadPersisted "c1" s') = true ∧
  viewedPages (loadPersisted "c1" s').2 = f (viewedPages s) ∧
  viewedPages (updateViewedPages "c1" f s).2 = f (viewedPages s).
Proof.
  intros api s f s'.
  apply (viewedPages_roundtrip "c1" f s s');
    [ discriminate | discriminate | reflexivity ].
Defined.

(** X3. Likewise for completions: after [completeTopic] has written the
    cache, the restoring effect on that cache gives back [completedTopics],
    and sets the progress of every topic completed there to 100. *)
Theorem completedTopics_roundtrip courseId topicId s s' :
  courseId ≠ "" → topics s' ≠ [] →
  localStorage s' = localStorage (completeTopic courseId topicId s).2 →
  let r := loadPersisted courseId s' in
  completes r = true ∧
  completedTopics r.2 = <[topicId := true]> (completedTopics s) ∧
  ∀ t, completedTopics r.2 !! t = Some true → progress r.2 !! t = Some 100.
Proof.
  intros Hid Hts Hls. cbv zeta. rewrite loadPersisted_run by done.
  split; [reflexivity|]. rewrite Hls. cbn. rewrite lookup_insert_eq. cbn.
  split; [reflexivity|].
  intros t Ht. apply lookup_union_Some_l.
  rewrite lookup_fmap, (map_lookup_filter_Some_2 _ _ t true); done.
Qed.

Lemma completedTopics_roundtrip_witness :
  let api := mkRemote Failed Failed Failed Failed Failed Failed in
  let s := (loadCourse api "c1" (mount emptyStorage)).2 in
  let s' := (loadCourse api "c1"
               (mount (localStorage (completeTopic "c1" "t2" s).2))).2 in
  let r := loadPersisted "c1" s' in
  completes r = true ∧
  completedTopics r.2 = <[("t2" : string) := true]> (completedTopics s) ∧
  ∀ t, completedTopics r.2 !! t = Some true → progress r.2 !! t = Some 100.
Proof.
  intros api s s'.
  apply (completedTopics_roundtrip "c1" "t2" s s');
    [ discriminate | discriminate | reflexivity ].
Defined.

(** ** Bookmarks across sessions *)

Lemma saveBookmark_run api courseId tid p s :
  saveBookmark api courseId tid p s =
  (Done tt,
   match postBookmark api with
   | Returned _ => s
   | Failed =>
       set_localStorage
         (setItem_bookmark courseId (mkBookmark tid p) (localStorage s)) s
   end).
Proof.
  unfold saveBookmark. run. by destruct (postBookmark api) as [|[]].
Qed.

(** X4. With the backend unreachable the bookmark comes back: after the
    effect that saves the bookmark, a reader that loads its bookmark from
    that cache, with the same topics, is on the topic and page that were
    shown (topic ids identifying topics). *)
Theorem bookmark_roundtrip_offline api courseId s s' t :
  postBookmark api = Failed → getBookmark api = Failed →
  NoDup (_id <$> topics s) → activeTopic s = Some t →
  topics s' = topics s →
  localStorage s' = localStorage (autoSaveBookmark api courseId s).2 →
  let r := loadBookmark api courseId s' in
  completes r = true ∧
  activeTopicIndex r.2 = activeTopicIndex s ∧
  currentPage r.2 = currentPage s ∧
  activeTopic r.2 = Some t.
Proof.
  intros Hpost Hget Hnd Ht Hts Hls. cbv zeta.
  assert (Hsaved : bookmark_ (localStorage s') !! courseId
                   = Some (Stored (mkBookmark (_id t) (currentPage s)))).
  { rewrite Hls. unfold autoSaveBookmark. run. rewrite Ht.
    rewrite saveBookmark_run, Hpost. cbn. apply lookup_insert_eq. }
  rewrite loadBookmark_run, Hget, Hsaved, applyBookmark_run. cbn.
  assert (Hin : t ∈ topics s) by (by eapply list_elem_of_lookup_2).
  destruct (find_topic _ _ Hnd Hin) as (i & Hfind & Hi).
  rewrite Hts, Hfind.
  assert (i = activeTopicIndex s) as ->.
  { eapply NoDup_lookup; [exact Hnd | |].
    - by rewrite list_lookup_fmap, Hi.
    - unfold activeTopic in Ht. by rewrite list_lookup_fmap, Ht. }
  split_and!; try done.
  unfold activeTopic. cbn. by rewrite Hts.
Qed.

Lemma bookmark_roundtrip_offline_witness :
  let api := mkRemote Failed Failed Failed Failed Failed Failed in
  let s := set_currentPage 2
             (set_activeTopicIndex 4
                (loadCourse api "c1" (mount emptyStorage)).2) in
  let s' := (loadCourse api "c1"
               (mount (localStorage (autoSaveBookmark api "c1" s).2))).2 in
  let t := mkTopic "t5" "Risk Management" (courseImages 13 35) in
  let r := loadBookmark api "c1" s' in
  completes r = true ∧
  activeTopicIndex r.2 = activeTopicIndex s ∧
  currentPage r.2 = currentPage s ∧
  activeTopic r.2 = Some t.
Proof.
  intros api s s' t.
  apply (bookmark_roundtrip_offline api "c1" s s' t);
    try reflexivity.
  apply (bool_decide_unpack _). vm_compute. exact I.
Defined.

(** X5. A bookmark saved while the backend answers is not written to the
    cache: the cache keeps the bookmark of the last save that failed, and
    that older bookmark is the one applied when the backend is unreachable
    at the next load. *)
Theorem bookmark_cache_goes_stale up down courseId s s' old new i t :
  postBookmark down = Failed → getBookmark down = Failed →
  postBookmark up = Returned tt →
  topics s' = topics s →
  list_find (λ x, _id x = topicId old) (topics s) = Some (i, t) →
  let s1 := (saveBookmark down courseId (topicId old) (imageIndex old) s).2 in
  let s2 := (saveBookmark up courseId (topicId new) (imageIndex new) s1).2 in
  localStorage s' = localStorage s2 →
  bookmark_ (localStorage s2) !! courseId = Some (Stored old) ∧
  activeTopicIndex (loadBookmark down courseId s').2 = i ∧
  currentPage (loadBookmark down courseId s').2 = imageIndex old.
Proof.
  intros Hdown Hget Hup Hts Hfind. cbv zeta.
  rewrite !saveBookmark_run, Hdown, Hup. cbn. intros Hls.
  assert (Hold : bookmark_ (localStorage s') !! courseId = Some (Stored old)).
  { rewrite Hls. cbn. rewrite lookup_insert_eq. by destruct old. }
  split.
  - rewrite lookup_insert_eq. by destruct old.
  - rewrite loadBookmark_run, Hget, Hold, applyBookmark_run, Hts, Hfind. done.
Qed.

Lemma bookmark_cache_goes_stale_witness :
  let down := mkRemote Failed Failed Failed Failed Failed Failed in
  let up := mkRemote Failed Failed Failed Failed (Returned tt) Failed in
  let s := (loadCourse down "c1" (mount emptyStorage)).2 in
  let old := mkBookmark "t2" 1 in
  let new := mkBookmark "t7" 3 in
  let s1 := (saveBookmark down "c1" (topicId old) (imageIndex old) s).2 in
  let s2 := (saveBookmark up "c1" (topicId new) (imageIndex new) s1).2 in
  let s' := (loadCourse down "c1" (mount (localStorage s2))).2 in
  bookmark_ (localStorage s2) !! "c1" = Some (Stored old) ∧
  activeTopicIndex (loadBookmark down "c1" s').2 = 1%nat ∧
  currentPage (loadBookmark down "c1" s').2 = imageIndex old.
Proof.
  intros down up s old new s1 s2 s'.
  apply (bookmark_cache_goes_stale up down "c1" s s' old new 1%nat
           (mkTopic "t2" "Understanding Doji Candles" (courseImages 4 19)));
    reflexivity.
Defined.

(** ** The load effect, case by case *)

Lemma restoreNotes_run courseId s :
  restoreNotes courseId s =
  match notes_ (localStorage s) !! courseId with
  | Some (Stored n) => (Done tt, set_notes n s)
  | Some (Malformed raw) => if decide (raw = "") then (Done tt, s) else (Thrown, s)
  | None => (Done tt, s)
  end.
Proof.
  unfold restoreNotes. run.
  destruct (notes_ (localStorage s) !! courseId) as [[raw|n]|]; cbn;
    try case_decide; reflexivity.
Qed.

Lemma loadCourse_remote_run api courseId c s :
  courseId ≠ "" → getCourse api = Returned (Some c) →
  let s2 :=
    set_progress
      (match getProgress api with
       | Returned p => default ∅ p
       | Failed => initialProgress (completedTopics s)
                     (default [] (course_topics (received c)))
       end)
      (set_topics (default [] (course_topics (received c)))
         (set_course (Some (received c)) s)) in
  loadCourse api courseId s =
  match getNotes api with
  | Returned n => (Done tt, set_notes (default ∅ n) s2)
  | Failed =>
      match restoreNotes courseId s2 with
      | (Done _, s3) => (Done tt, s3)
      | (Thrown, s3) => (useFallback courseId s;; restoreNotes courseId) s3
      end
  end.
Proof.
  intros Hid Hc. cbv zeta. unfold loadCourse. rewrite decide_False by done.
  unfold received. run. rewrite Hc. cbn.
  destruct (getProgress api) as [|p]; cbn;
    (destruct (getNotes api) as [|n]; cbn; [|reflexivity]);
    match goal with
    | |- context [restoreNotes courseId ?s0] =>
        destruct (restoreNotes courseId s0) as [[[]|] s3]; reflexivity
    end.
Qed.

Lemma loadCourse_failed_run api courseId s :
  courseId ≠ "" → getCourse api = Failed →
  loadCourse api courseId s =
  restoreNotes courseId
    (set_progress (initialProgress (completedTopics s) buildFallbackTopics)
       (set_topics buildFallbackTopics
          (set_course (Some (fallbackCourse courseId)) s))).
Proof.
  intros Hid Hc. unfold loadCourse. rewrite decide_False by done.
  run. rewrite Hc. cbv [await throw]. rewrite useFallback_run. reflexivity.
Qed.

(** X6. A note that was typed comes back at the next load whenever the load
    reads the cache, which it does when the catalog request fails, or when a
    course came and the notes request fails: the notes are then those that
    [handleNoteChange] left, the typed text among them. *)
Theorem notes_roundtrip api courseId tid page text s s' :
  courseId ≠ "" →
  getCourse api = Failed ∨
    ((∃ c, getCourse api = Returned (Some c)) ∧ getNotes api = Failed) →
  localStorage s'
    = localStorage (handleNoteChange courseId tid page text s).2 →
  let r := loadCourse api courseId s' in
  completes r = true ∧
  notes r.2 = notes (handleNoteChange courseId tid page text s).2 ∧
  notes r.2 !! tid ≫= (.!! page) = Some text.
Proof.
  intros Hid Hapi Hls. cbv zeta.
  set (copy := <[tid := <[page := text]> (default ∅ (notes s !! tid))]>
                 (notes s)).
  assert (Hnotes : notes (handleNoteChange courseId tid page text s).2 = copy)
    by reflexivity.
  assert (Hcache : notes_ (localStorage s') !! courseId = Some (Stored copy)).
  { rewrite Hls. cbn. apply lookup_insert_eq. }
  assert (Htext : copy !! tid ≫= (.!! page) = Some text).
  { unfold copy. rewrite lookup_insert_eq. cbn. apply lookup_insert_eq. }
  rewrite Hnotes.
  destruct Hapi as [Hc | [[c Hc] Hn]].
  - rewrite loadCourse_failed_run, restoreNotes_run by done. cbn.
    rewrite Hcache. done.
  - rewrite (loadCourse_remote_run api courseId c) by done.
    rewrite Hn, restoreNotes_run. cbn. rewrite Hcache. done.
Qed.

Lemma notes_roundtrip_witness :
  let api := mkRemote Failed Failed Failed Failed Failed Failed in
  let s := (loadCourse api "c1" (mount emptyStorage)).2 in
  let s' := mount (localStorage (handleNoteChange "c1" "t2" 3 "doji" s).2) in
  let r := loadCourse api "c1" s' in
  completes r = true ∧
  notes r.2 = notes (handleNoteChange "c1" "t2" 3 "doji" s).2 ∧
  notes r.2 !! "t2" ≫= (.!! 3) = Some "doji".
Proof.
  intros api s s'.
  apply (notes_roundtrip api "c1" "t2" 3 "doji" s s');
    [discriminate | left; reflexivity | reflexivity].
Defined.

(** X7. A typed note is not sent to the backend by [handleNoteChange], and
    a load whose notes request is answered takes the backend's notes, the
    empty ones when none come: whatever the cache holds for the course is
    not read, and the typed text is in the state only if the backend sends
    it. *)
Theorem notes_backend_overrides api courseId c n s :
  courseId ≠ "" →
  getCourse api = Returned (Some c) → getNotes api = Returned n →
  completes (loadCourse api courseId s) = true ∧
  notes (loadCourse api courseId s).2 = default ∅ n ∧
  localStorage (loadCourse api courseId s).2 = localStorage s.
Proof.
  intros Hid Hc Hn.
  rewrite (loadCourse_remote_run api courseId c) by done.
  rewrite Hn. done.
Qed.

Lemma notes_backend_overrides_witness :
  let c := mkCourse "c1" "Course" None None None in
  let api := mkRemote (Returned (Some c)) Failed (Returned None) Failed Failed
               Failed in
  let s := mount (localStorage
                    (handleNoteChange "c1" "t2" 3 "doji" (mount emptyStorage)).2)
  in
  completes (loadCourse api "c1" s) = true ∧
  notes (loadCourse api "c1" s).2 = default ∅ None ∧
  localStorage (loadCourse api "c1" s).2 = localStorage s.
Proof.
  intros c api s.
  apply (notes_backend_overrides api "c1" c None s);
    [discriminate | reflexivity | reflexivity].
Defined.

(** The loop that fills the progress when the backend gives none: an entry
    per topic, 100 for a topic flagged as completed and 0 otherwise. *)
Lemma initialProgress_entries completed ts tid :
  initialProgress completed ts !! tid =
  if decide (tid ∈ _id <$> ts)
  then Some (if default false (completed !! tid) then 100 else 0)
  else None.
Proof.
  unfold initialProgress.
  assert (Hgen : ∀ acc : gmap string Z,
    foldl (λ p t, <[_id t := if default false (completed !! _id t)
                             then 100 else 0]> p) acc ts !! tid =
    if decide (tid ∈ _id <$> ts)
    then Some (if default false (completed !! tid) then 100 else 0)
    else acc !! tid).
  { induction ts as [|t ts IH]; intros acc; cbn [foldl].
    - rewrite decide_False; [done|]. cbn. apply not_elem_of_nil.
    - rewrite IH. cbn [fmap list_fmap].
      destruct (decide (tid ∈ _id <$> ts)) as [Hin | Hout].
      + rewrite decide_True; [done | by right].
      + destruct (decide (tid = _id t)) as [-> | Hne].
        * rewrite decide_True by left. apply lookup_insert_eq.
        * rewrite decide_False, lookup_insert_ne; [done | done |].
          intros H. apply elem_of_cons in H as [H | H]; done. }
  rewrite Hgen. by case_decide.
Qed.

(** X8. A course that the backend sent with topics of its own is what the
    reader shows: the course and its topics as sent, locked exactly when it
    came with [userHasAccess: false], the progress as sent or, when that
    request fails, 100 for the topics completed and 0 for the others;
    provided the load does not end in the outer [catch], that is, the notes
    request is answered or the notes in the cache parse. *)
Theorem loadCourse_remote_course api courseId c ts s :
  courseId ≠ "" →
  getCourse api = Returned (Some c) →
  course_topics c = Some ts → ts ≠ [] →
  (getNotes api = Failed →
   ∀ raw, notes_ (localStorage s) !! courseId = Some (Malformed raw) →
          raw = "") →
  let r := loadCourse api courseId s in
  completes r = true ∧
  course r.2 = Some c ∧ topics r.2 = ts ∧
  isLocked r.2 = bool_decide (userHasAccess c = Some false) ∧
  progress r.2 =
    match getProgress api with
    | Returned p => default ∅ p
    | Failed => initialProgress (completedTopics s) ts
    end ∧
  (getProgress api = Failed →
   ∀ tid, progress r.2 !! tid =
          if decide (tid ∈ _id <$> ts)
          then Some (if default false (completedTopics s !! tid)
                     then 100 else 0)
          else None).
Proof.
  intros Hid Hc Hts Hne Hnotes. cbv zeta.
  rewrite (loadCourse_remote_run api courseId c) by done.
  assert (Hrec : received c = c).
  { unfold received, noTopics. rewrite Hts. by destruct ts. }
  rewrite Hrec, Hts. cbn [default].
  destruct (getNotes api) as [|n].
  - rewrite restoreNotes_run. cbn.
    destruct (notes_ (localStorage s) !! courseId) as [[raw|nt]|] eqn:E;
      try rewrite (Hnotes eq_refl raw eq_refl); cbn;
      (split_and!; try done;
       intros ->; intros tid; apply initialProgress_entries).
  - split_and!; try done.
    intros ->. intros tid. apply initialProgress_entries.
Qed.

Lemma loadCourse_remote_course_witness :
  let ts := [mkTopic "a" "A" ["/a/1.png"; "/a/2.png"]] in
  let c := mkCourse "c9" "Paid course" (Some ts) (Some 10) (Some false) in
  let api := mkRemote (Returned (Some c)) Failed Failed Failed Failed Failed in
  let s := mount emptyStorage in
  let r := loadCourse api "c9" s in
  completes r = true ∧
  course r.2 = Some c ∧ topics r.2 = ts ∧
  isLocked r.2 = bool_decide (userHasAccess c = Some false) ∧
  progress r.2 =
    match getProgress api with
    | Returned p => default ∅ p
    | Failed => initialProgress (completedTopics s) ts
    end ∧
  (getProgress api = Failed →
   ∀ tid, progress r.2 !! tid =
          if decide (tid ∈ _id <$> ts)
          then Some (if default false (completedTopics s !! tid)
                     then 100 else 0)
          else None).
Proof.
  intros ts c api s.
  apply (loadCourse_remote_course api "c9" c ts s);
    [discriminate | reflexivity | reflexivity | discriminate |].
  intros _ raw H. vm_compute in H. discriminate H.
Defined.

(** X9. Notes in the cache that do not parse cost more than the notes: when
    the notes request fails as well, the exception leaves the inner [catch],
    the outer one replaces the course that the backend sent by the fallback
    course, reads the same cache again, and the exception escapes. *)
Theorem malformed_notes_discard_course api courseId c raw s :
  courseId ≠ "" → raw ≠ "" →
  getCourse api = Returned (Some c) → getNotes api = Failed →
  notes_ (localStorage s) !! courseId = Some (Malformed raw) →
  let r := loadCourse api courseId s in
  completes r = false ∧
  course r.2 = Some (fallbackCourse courseId) ∧
  topics r.2 = buildFallbackTopics ∧
  notes r.2 = notes s.
Proof.
  intros Hid Hraw Hc Hn Hcache. cbv zeta.
  rewrite (loadCourse_remote_run api courseId c) by done.
  rewrite Hn, restoreNotes_run. cbn. rewrite Hcache, decide_False by done.
  unfold mbind, eff_bind. rewrite useFallback_run, restoreNotes_run. cbn.
  rewrite Hcache, decide_False by done. done.
Qed.

Lemma malformed_notes_discard_course_witness :
  let ts := [mkTopic "a" "A" ["/a/1.png"; "/a/2.png"]] in
  let c := mkCourse "c9" "Paid course" (Some ts) (Some 10) (Some false) in
  let api := mkRemote (Returned (Some c)) Failed Failed Failed Failed Failed in
  let s := mount (mkStorage {["c9" := Malformed "{"]} ∅ ∅ ∅ ∅) in
  let r := loadCourse api "c9" s in
  completes r = false ∧
  course r.2 = Some (fallbackCourse "c9") ∧
  topics r.2 = buildFallbackTopics ∧
  notes r.2 = notes s.
Proof.
  intros ts c api s.
  apply (malformed_notes_discard_course api "c9" c "{" s);
    [discriminate | discriminate | reflexivity | reflexivity | reflexivity].
Defined.

(** X10. The load effect touches the course, the topics, the progress and
    the notes, and nothing else: the position of the reader, the pages
    viewed, the topics completed, the storage and the toasts are as they
    were, whatever the backend and the cache do. *)
Theorem loadCourse_frame api courseId s :
  let s' := (loadCourse api courseId s).2 in
  activeTopicIndex s' = activeTopicIndex s ∧
  currentPage s' = currentPage s ∧
  viewedPages s' = viewedPages s ∧
  completedTopics s' = completedTopics s ∧
  localStorage s' = localStorage s ∧
  toasts s' = toasts s.
Proof.
  cbv zeta. destruct (decide (courseId = "")) as [-> | Hid]; [done|].
  assert (Hrestore : ∀ s0,
    let s' := (restoreNotes courseId s0).2 in
    activeTopicIndex s' = activeTopicIndex s0 ∧
    currentPage s' = currentPage s0 ∧
    viewedPages s' = viewedPages s0 ∧
    completedTopics s' = completedTopics s0 ∧
    localStorage s' = localStorage s0 ∧
    toasts s' = toasts s0).
  { intros s0. cbv zeta. rewrite restoreNotes_run.
    destruct (notes_ (localStorage s0) !! courseId) as [[raw|n]|];
      try case_decide; done. }
  destruct (getCourse api) as [|[c|]] eqn:Hc.
  - rewrite loadCourse_failed_run by done.
    match goal with
    | |- context [restoreNotes courseId ?s0] => exact (Hrestore s0)
    end.
  - rewrite (loadCourse_remote_run api courseId c) by done.
    destruct (getNotes api) as [|n]; [|done].
    match goal with
    | |- context [restoreNotes courseId ?s0] =>
        pose proof (Hrestore s0) as H0; cbv zeta in H0;
        destruct (restoreNotes courseId s0) as [[[]|] s3] eqn:E; cbn in H0
    end; [exact H0|].
    unfold mbind, eff_bind. rewrite useFallback_run.
    match goal with
    | |- context [restoreNotes courseId ?s0] =>
        pose proof (Hrestore s0) as H1; cbv zeta in H1;
        cbn [activeTopicIndex currentPage viewedPages completedTopics
             localStorage toasts set_progress set_topics set_course] in H1
    end.
    destruct H0 as (? & ? & ? & ? & ? & ?), H1 as (? & ? & ? & ? & ? & ?).
    split_and!; congruence.
  - unfold loadCourse. rewrite decide_False by done. run. rewrite Hc. done.
Qed.

(** ** The range of the weighted progress *)

Lemma rounded_exact M E :
  2 ^ 52 <= M < 2 ^ 53 -> rounded (F2R M E) M E.
Proof.
  intros HM. exists M, E, loc_Exact. cbn [located round_nearest_even].
  split_and!; try done; lia.
Qed.

Lemma rounded_unique x M E M' E' :
  rounded x M E -> rounded x M' E' -> F2R M E = F2R M' E'.
Proof.
  intros H H'. apply Rle_antisym; eapply rounded_mono; eauto; lra.
Qed.

(** All pages viewed: the quotient is 1 and the percentage is 100, both
    exactly. *)
Lemma percent_full (t : nat) :
  0 < Z.of_nat t < 2 ^ 53 -> JSNumber.Math_round (percent t t) = 100.
Proof.
  intros Ht.
  destruct (percent_rounded t t) as (M1 & E1 & M & E & Hr1 & -> & Hr);
    [lia | lia |].
  assert (H1 : F2R (Z.pos M1) E1 = 1%R).
  { assert (Hone : (IZR (Z.of_nat t) / IZR (Z.of_nat t))%R
                   = F2R (2 ^ 52) (-52)).
    { unfold F2R. rewrite <- (pow2_Z 52) by lia.
      rewrite <- pow2_add. cbn [Z.add Z.opp Z.pos_sub Pos.succ]. 
      change (52 + -52) with 0. cbn [powerRZ].
      field. apply not_0_IZR. lia. }
    rewrite Hone in Hr1.
    rewrite (rounded_unique _ _ _ _ _ Hr1 (rounded_exact (2 ^ 52) (-52) ltac:(lia))).
    rewrite <- Hone. field. apply not_0_IZR. lia. }
  rewrite H1, Rmult_1_l, <- F2R_100 in Hr.
  pose proof (rounded_unique _ _ _ _ _ Hr
                (rounded_exact (Z.pos 7036874417766400) (-46) ltac:(lia)))
    as H100.
  rewrite F2R_100 in H100.
  pose proof (Math_round_spec M E) as [Hlo Hhi]. rewrite H100 in Hlo, Hhi.
  set (k := JSNumber.Math_round (S754_finite false M E)) in *.
  assert (Ha : (IZR k < IZR 101)%R) by lra.
  assert (Hb : (IZR 99 < IZR k)%R) by lra.
  apply lt_IZR in Ha, Hb. lia.
Qed.

Lemma weightedProgress_range ts vp :
  Z.of_nat (pageTotal ts) < 2 ^ 53 →
  (viewedTotal ts vp ≤ pageTotal ts)%nat →
  0 ≤ weightedProgress ts vp ≤ 100.
Proof.
  intros Ht Hb. rewrite weightedProgress_sums. case_decide; [lia|]. split.
  - change 0 with (JSNumber.Math_round (S754_zero false)).
    rewrite <- (percent_zero (pageTotal ts)) by lia.
    apply percent_mono; lia.
  - rewrite <- (percent_full (pageTotal ts)) by lia.
    apply percent_mono; lia.
Qed.

(** X11. Under the invariant of the data model the weighted progress is a
    percentage: it lies between 0 and 100, and it is 100 when every page of
    every topic is viewed and the course has a page. *)
Theorem weightedProgress_bounds ts vp :
  Z.of_nat (pageTotal ts) < 2 ^ 53 →
  pagesInRange ts vp →
  0 ≤ weightedProgress ts vp ≤ 100 ∧
  (pageTotal ts ≠ 0%nat → viewedTotal ts vp = pageTotal ts →
   weightedProgress ts vp = 100).
Proof.
  intros Ht Hin. split.
  - apply weightedProgress_range; [done|]. by apply viewedTotal_bound.
  - intros Hne Hall. rewrite weightedProgress_sums, decide_False, Hall by done.
    apply percent_full. lia.
Qed.

Lemma weightedProgress_bounds_witness :
  let ts := buildFallbackTopics in
  let vp : gmap string (gset Z) := {["t2" := {[0; 3]}]} in
  0 ≤ weightedProgress ts vp ≤ 100 ∧
  (pageTotal ts ≠ 0%nat → viewedTotal ts vp = pageTotal ts →
   weightedProgress ts vp = 100).
Proof.
  intros ts vp. apply (weightedProgress_bounds ts vp).
  - vm_compute. reflexivity.
  - intros t Ht p Hp.
    assert (Hd : bool_decide
              (Forall (λ t, Forall (λ p, 0 ≤ p < Z.of_nat (length (images t)))
                              (elements (default ∅ (vp !! _id t)))) ts) = true)
      by (vm_compute; reflexivity).
    apply bool_decide_eq_true_1 in Hd.
    rewrite Forall_forall in Hd. specialize (Hd t Ht).
    rewrite Forall_forall in Hd. apply Hd. by apply elem_of_elements.
Defined.

Lemma viewedTotal_full ts vp :
  (∀ t, t ∈ ts → vp !! _id t = Some (allPages t)) →
  viewedTotal ts vp = pageTotal ts.
Proof.
  unfold viewedTotal, pageTotal. induction ts as [|t ts IH]; intros H; cbn;
    [done|].
  rewrite (H t) by left. cbn. rewrite size_allPages, IH; [done|].
  intros t' Ht'. apply H. by right.
Qed.

Lemma runCalls_complete api courseId ids s :
  let s' := runCalls api courseId (MarkTopicComplete <$> ids) s in
  topics s' = topics s ∧
  (∀ tid, tid ∈ ids → completedTopics s' !! tid = Some true
                      ∧ progress s' !! tid = Some 100) ∧
  (NoDup (_id <$> topics s) →
   ∀ t, t ∈ topics s →
     (_id t ∈ ids → viewedPages s' !! _id t = Some (allPages t)) ∧
     (_id t ∉ ids → viewedPages s' !! _id t = viewedPages s !! _id t)).
Proof.
  cbv zeta. unfold runCalls. revert s.
  induction ids as [|tid ids IH] using rev_ind; intros s.
  - cbn. split_and!; [done | intros ? H; by apply elem_of_nil in H |].
    intros _ t _. split; [intros H; by apply elem_of_nil in H | done].
  - rewrite fmap_app, foldl_app. cbn [fmap list_fmap foldl runCall].
    destruct (IH s) as (Hts & Hdone & Hvp).
    set (s1 := foldl _ s (MarkTopicComplete <$> ids)) in *.
    destruct (markTopicComplete_run api courseId tid s1)
      as (_ & _ & Hts' & Hpr & Hct & Hvp' & _).
    split_and!.
    + by rewrite Hts'.
    + intros tid' Hin. rewrite Hpr, Hct.
      destruct (decide (tid = tid')) as [<- | Hne].
      * by rewrite !lookup_insert_eq.
      * rewrite !lookup_insert_ne by done. apply Hdone.
        apply elem_of_app in Hin as [Hin | Hin]; [done|].
        apply list_elem_of_singleton in Hin. congruence.
    + intros Hnd t Ht. specialize (Hvp Hnd t Ht) as [Hin Hout].
      rewrite Hvp', Hts.
      destruct (decide (_id t = tid)) as [<- | Hne].
      * destruct (find_topic _ _ Hnd Ht) as (i & -> & _). cbn.
        unfold fillTopic. rewrite lookup_insert_eq.
        split; [done|]. intros Hn. exfalso. apply Hn.
        apply elem_of_app. right. by apply list_elem_of_singleton.
      * assert (Hkeep : ∀ vp0 : gmap string (gset Z),
                  from_option (λ topic, fillTopic tid topic vp0) vp0
                    (snd <$> list_find (λ t0, _id t0 = tid) (topics s))
                    !! _id t = vp0 !! _id t).
        { intros vp0.
          destruct (list_find _ (topics s)) as [[j u]|]; cbn; [|done].
          unfold fillTopic. by rewrite lookup_insert_ne. }
        rewrite Hkeep. split.
        -- intros H. apply Hin. apply elem_of_app in H as [H | H]; [done|].
           apply list_elem_of_singleton in H. congruence.
        -- intros H. apply Hout. intros H'. apply H, elem_of_app. by left.
Qed.

(** X12. Marking every topic complete brings the course to 100: after
    [markTopicComplete] on each topic of a course that has pages, in the
    order of the topics, every topic is completed with progress 100 and the
    weighted progress is exactly 100. *)
Theorem all_topics_complete api courseId s :
  NoDup (_id <$> topics s) →
  0 < Z.of_nat (pageTotal (topics s)) < 2 ^ 53 →
  let s' := runCalls api courseId
              (MarkTopicComplete <$> (_id <$> topics s)) s in
  topics s' = topics s ∧
  weightedProgress (topics s') (viewedPages s') = 100 ∧
  ∀ t, t ∈ topics s →
    completedTopics s' !! _id t = Some true ∧
    progress s' !! _id t = Some 100.
Proof.
  intros Hnd Ht. cbv zeta.
  destruct (runCalls_complete api courseId (_id <$> topics s) s)
    as (Hts & Hdone & Hvp).
  split_and!.
  - exact Hts.
  - rewrite Hts, weightedProgress_sums, decide_False by lia.
    rewrite viewedTotal_full; [by apply percent_full|].
    intros t Hin. apply (Hvp Hnd t Hin). by apply list_elem_of_fmap_2.
  - intros t Hin. apply Hdone. by apply list_elem_of_fmap_2.
Qed.

Lemma all_topics_complete_witness :
  let api := mkRemote Failed Failed Failed Failed Failed Failed in
  let s := (loadCourse api "c1" (mount emptyStorage)).2 in
  let s' := runCalls api "c1" (MarkTopicComplete <$> (_id <$> topics s)) s in
  topics s' = topics s ∧
  weightedProgress (topics s') (viewedPages s') = 100 ∧
  ∀ t, t ∈ topics s →
    completedTopics s' !! _id t = Some true ∧
    progress s' !! _id t = Some 100.
Proof.
  intros api s.
  apply (all_topics_complete api "c1" s).
  - apply (bool_decide_unpack _). vm_compute. exact I.
  - vm_compute. split; reflexivity.
Defined.

(** ** Sessions: clicks and the effects that follow them *)

Lemma loadCourse_topics_nonempty api courseId s :
  courseId ≠ "" → topics (loadCourse api courseId s).2 ≠ [].
Proof.
  intros Hid.
  destruct (getCourse api) as [|[c|]] eqn:Hc.
  - rewrite loadCourse_fallback_topics; [done | done |]. by rewrite Hc.
  - destruct (course_topics c) as [[|t ts]|] eqn:Hts.
    + rewrite loadCourse_fallback_topics; [done | done |].
      rewrite Hc. cbn. unfold noTopics. by rewrite Hts.
    + rewrite (loadCourse_remote_run api courseId c) by done.
      assert (Hrec : received c = c).
      { unfold received, noTopics. by rewrite Hts. }
      rewrite Hrec, Hts. cbn [default].
      destruct (getNotes api) as [|n]; [|done].
      match goal with
      | |- context [restoreNotes courseId ?s0] =>
          pose proof (restoreNotes_frame courseId s0) as (_ & Ht0 & _);
          destruct (restoreNotes courseId s0) as [[[]|] s3] eqn:E;
          cbn [snd] in Ht0
      end.
      * cbn [snd]. rewrite Ht0. cbn. done.
      * destruct (fallback_block courseId s s3) as [_ Hfb].
        cbv zeta in Hfb. rewrite Hfb. done.
    + rewrite loadCourse_fallback_topics; [done | done |].
      rewrite Hc. cbn. unfold noTopics. by rewrite Hts.
  - rewrite loadCourse_fallback_topics; [done | done |]. by rewrite Hc.
Qed.

(** What the three effects on the page leave, field by field. *)
Lemma pageEffects_fields api courseId s t :
  activeTopic s = Some t →
  let auto := bool_decide (currentPage s = Z.of_nat (length (images t)) - 1)
              && bool_decide (default 0 (progress s !! _id t) < 100) in
  let vp1 := markPageViewed (_id t) (currentPage s) (viewedPages s) in
  let r := pageEffects api courseId s in
  completes r = true ∧
  topics r.2 = topics s ∧
  activeTopicIndex r.2 = activeTopicIndex s ∧
  currentPage r.2 = currentPage s ∧
  viewedPages r.2 = (if auto then fillTopic (_id t) t vp1 else vp1) ∧
  completedTopics r.2
    = (if auto then <[_id t := true]> (completedTopics s)
       else completedTopics s) ∧
  viewedMirrored courseId r.2 ∧
  (completedMirrored courseId s → completedMirrored courseId r.2).
Proof.
  intros Ht. cbv zeta.
  unfold pageEffects, autoSaveBookmark, saveBookmark, trackPage, autoComplete,
    completeTopic, updateViewedPages, viewedMirrored, completedMirrored.
  run. rewrite Ht.
  destruct (postBookmark api); cbn; unfold activeTopic in *; cbn;
    rewrite Ht; cbn; rewrite Ht; cbn;
    destruct (bool_decide (currentPage s = _)); cbn;
    destruct (bool_decide (default 0 (progress s !! _id t) < 100)); cbn;
    try destruct (postComplete api); cbn;
    rewrite ?lookup_insert_eq; done.
Qed.

Lemma markTopicComplete_mirrors api courseId tid s :
  let r := markTopicComplete api courseId tid s in
  (viewedMirrored courseId s → viewedMirrored courseId r.2) ∧
  completedMirrored courseId r.2.
Proof.
  cbv zeta.
  unfold markTopicComplete, completeTopic, updateViewedPages, viewedMirrored,
    completedMirrored.
  run.
  destruct (list_find (λ t, _id t = tid) (topics s)) as [[i topic]|];
    destruct (postComplete api); cbn;
    case_decide; cbn; rewrite ?lookup_insert_eq; done.
Qed.

Lemma keys_insert (vp : gmap string (gset Z)) tid0 pages tid :
  is_Some (<[tid0 := pages]> vp !! tid) → tid = tid0 ∨ is_Some (vp !! tid).
Proof.
  destruct (decide (tid0 = tid)) as [<- | Hne]; [by left|].
  rewrite lookup_insert_ne by done. by right.
Qed.

(** A click on a control that is offered, in a reader in order. *)
Lemma onClick_step api courseId c s :
  inOrder s → offered s c = true →
  let r := onClick api courseId c s in
  completes r = true ∧
  topics r.2 = topics s ∧
  (∃ t, activeTopic r.2 = Some t ∧
        0 ≤ currentPage r.2 < Z.of_nat (length (images t))) ∧
  pagesInRange (topics s) (viewedPages r.2) ∧
  (viewedTotal (topics s) (viewedPages s)
   ≤ viewedTotal (topics s) (viewedPages r.2))%nat ∧
  (viewedMirrored courseId s → viewedMirrored courseId r.2) ∧
  (completedMirrored courseId s → completedMirrored courseId r.2) ∧
  (∀ tid, is_Some (viewedPages r.2 !! tid) →
          is_Some (viewedPages s !! tid) ∨ tid ∈ _id <$> topics s).
Proof.
  intros (Hnd & Hpages & (t & Ht & Hp) & Hin) Hoff. cbv zeta.
  assert (Hfirst : ∀ i, (i < length (topics s))%nat →
            ∃ u, topics s !! i = Some u ∧ 0 ≤ 0 < Z.of_nat (length (images u))).
  { intros i Hi. destruct (lookup_lt_is_Some_2 _ _ Hi) as [u Hu].
    exists u. split; [done|].
    assert (images u ≠ []) by (eapply Hpages, list_elem_of_lookup_2; eauto).
    destruct (images u); [done | cbn; lia]. }
  destruct c as [| | |idx|]; cbn [onClick offered] in *.
  - destruct (prevPage_in_range s t Ht Hp) as [Ht' Hp'].
    apply andb_true_iff in Hoff as [_ Hne].
    split_and!; try done; try (by exists t); try lia; by left.
  - destruct (nextPage_in_range s t Ht Hp) as [Ht' Hp'].
    split_and!; try done; try (by exists t); try lia; by left.
  - apply andb_true_iff in Hoff as [_ Hlt].
    apply bool_decide_eq_true_1 in Hlt.
    destruct (Hfirst (activeTopicIndex s + 1)%nat) as (u & Hu & Hr); [lia|].
    unfold nextTopic. run. unfold activeTopic. cbn.
    split_and!; try done; try (by exists u); try lia; by left.
  - apply bool_decide_eq_true_1 in Hoff.
    destruct (Hfirst idx Hoff) as (u & Hu & Hr).
    unfold selectTopic. run. unfold activeTopic. cbn.
    split_and!; try done; try (by exists u); try lia; by left.
  - cbv [mbind eff_bind get]. rewrite Ht.
    destruct (markTopicComplete_run api courseId (_id t) s)
      as (Hc & _ & Hts & _ & _ & Hvp & Hai & Hcp & _).
    destruct (markTopicComplete_mirrors api courseId (_id t) s) as [Hvm Hcm].
    assert (Htin : t ∈ topics s) by (by eapply list_elem_of_lookup_2).
    destruct (find_topic _ _ Hnd Htin) as (i & Hfind & _).
    destruct (fillTopic_step (topics s) (_id t) (i, t) (viewedPages s))
      as [Hin' Hle]; [done..|].
    rewrite Hfind in Hvp. cbn in Hvp, Hin', Hle.
    split_and!; try done.
    + unfold activeTopic. rewrite Hts, Hai, Hcp.
      case_bool_decide as Hadv.
      * destruct (Hfirst (activeTopicIndex s + 1)%nat Hadv) as (u & Hu & Hr).
        by exists u.
      * by exists t.
    + by rewrite Hvp.
    + by rewrite Hvp.
    + intros tid. rewrite Hvp. unfold fillTopic. intros H.
      apply keys_insert in H as [-> | H]; [right | by left].
      by apply list_elem_of_fmap_2.
Qed.

Lemma dispatch_step api courseId c s :
  inOrder s → offered s c = true →
  let r := dispatch api courseId c s in
  completes r = true ∧
  inOrder r.2 ∧
  topics r.2 = topics s ∧
  (viewedTotal (topics s) (viewedPages s)
   ≤ viewedTotal (topics s) (viewedPages r.2))%nat ∧
  (viewedMirrored courseId s → viewedMirrored courseId r.2) ∧
  (completedMirrored courseId s → completedMirrored courseId r.2) ∧
  (∀ tid, is_Some (viewedPages r.2 !! tid) →
          is_Some (viewedPages s !! tid) ∨ tid ∈ _id <$> topics s).
Proof.
  intros Hord Hoff. cbv zeta.
  destruct (onClick_step api courseId c s Hord Hoff)
    as (Hc & Hts & (t & Ht & Hp) & Hin & Hle & Hvm & Hcm & Hkeys).
  destruct Hord as (Hnd & Hpages & _ & _).
  unfold dispatch. cbv [mbind eff_bind get].
  unfold completes in Hc.
  destruct (onClick api courseId c s) as [[[]|] s1]; [|done].
  cbn [fst snd] in *.
  case_bool_decide as Hsame; cbn [skip mret eff_ret fst snd].
  - split_and!; try done. unfold inOrder. rewrite Hts.
    split_and!; try done. by exists t.
  - destruct (pageEffects_fields api courseId s1 t Ht)
      as (Hc' & Hts' & Hai & Hcp & Hvp & _ & Hvm' & Hcm').
    assert (Hvalid : validCall (topics s)
                       (MarkPageViewed (_id t) (currentPage s1))).
    { exists t. rewrite <- Hts. split_and!; try done; try lia.
      by eapply list_elem_of_lookup_2. }
    destruct (markPageViewed_step (topics s) (_id t) (currentPage s1)
                (viewedPages s1) Hnd Hin Hvalid) as [Hin1 Hle1].
    assert (Htin : t ∈ topics s).
    { rewrite <- Hts. by eapply list_elem_of_lookup_2. }
    destruct (find_topic _ _ Hnd Htin) as (i & Hfind & _).
    destruct (fillTopic_step (topics s) (_id t) (i, t)
                (markPageViewed (_id t) (currentPage s1) (viewedPages s1)))
      as [Hin2 Hle2]; [done..|]. cbn [snd] in Hin2, Hle2.
    assert (Hboth :
      pagesInRange (topics s) (viewedPages (pageEffects api courseId s1).2) ∧
      (viewedTotal (topics s) (viewedPages s)
       ≤ viewedTotal (topics s)
           (viewedPages (pageEffects api courseId s1).2))%nat).
    { rewrite Hvp.
      destruct (bool_decide (currentPage s1 = _) && _); split; try done; lia. }
    destruct Hboth as [Hin3 Hle3].
    split_and!; try done.
    + unfold inOrder. rewrite Hts', Hts. split_and!; try done.
      exists t. unfold activeTopic in *. rewrite Hts', Hai, Hcp. done.
    + by rewrite Hts'.
    + intros H. apply Hcm', Hcm, H.
    + intros tid. rewrite Hvp. unfold fillTopic, markPageViewed. intros H.
      assert (H' : tid = _id t ∨ is_Some (viewedPages s1 !! tid)).
      { destruct (bool_decide (currentPage s1 = _) && _).
        - apply keys_insert in H as [-> | H]; [by left|].
          by apply keys_insert in H.
        - by apply keys_insert in H. }
      destruct H' as [-> | H']; [right | by apply Hkeys].
      by apply list_elem_of_fmap_2.
Qed.

(** X13. A session keeps the reader in order and never loses progress: from
    a reader in order (topic ids identify topics, every topic has a page,
    the page shown is a page of the active topic, the pages viewed are pages
    of their topics), after any sequence of clicks on controls that are
    offered (Prev, Next, Next Topic, a topic of the sidebar, Mark Topic
    Complete), each followed by the effects on the page, the reader is in
    order again, on the same topics, and the weighted progress is at least
    what it was and at most 100. *)
Theorem session_in_order api courseId cs s s' :
  inOrder s →
  Z.of_nat (pageTotal (topics s)) < 2 ^ 53 →
  play api courseId cs s = Some s' →
  inOrder s' ∧
  topics s' = topics s ∧
  weightedProgress (topics s) (viewedPages s)
    ≤ weightedProgress (topics s') (viewedPages s') ≤ 100.
Proof.
  intros Hord Ht. revert s Hord Ht.
  induction cs as [|c cs IH]; intros s Hord Ht Hplay; cbn [play] in Hplay.
  - injection Hplay as <-. split_and!; try done.
    apply weightedProgress_range; [done|]. apply viewedTotal_bound, Hord.
  - destruct (offered s c) eqn:Hoff; [|done].
    destruct (dispatch_step api courseId c s Hord Hoff)
      as (_ & Hord1 & Hts1 & Hle1 & _).
    set (s1 := (dispatch api courseId c s).2) in *.
    destruct (IH s1 Hord1) as (Hord' & Hts' & Hwp & Hmax);
      [by rewrite Hts1 | done |].
    split_and!; try done; [congruence|].
    etrans; [|exact Hwp]. rewrite Hts1.
    apply weightedProgress_mono; [done | done |].
    apply viewedTotal_bound. rewrite <- Hts1. apply Hord1.
Qed.

Lemma inOrderb_sound s : inOrderb s = true → inOrder s.
Proof.
  unfold inOrderb. rewrite !andb_true_iff.
  intros [[[Hnd Himg] Hact] Hvp]. split_and!.
  - by apply bool_decide_eq_true_1 in Hnd.
  - intros t Ht. rewrite forallb_forall in Himg.
    specialize (Himg t). rewrite <- list_elem_of_In in Himg.
    specialize (Himg Ht). apply negb_true_iff in Himg.
    by apply bool_decide_eq_false_1 in Himg.
  - destruct (activeTopic s) as [t|]; [|done].
    exists t. split; [done|]. by apply bool_decide_eq_true_1 in Hact.
  - intros t Ht p Hp. rewrite forallb_forall in Hvp.
    specialize (Hvp t). rewrite <- list_elem_of_In in Hvp.
    specialize (Hvp Ht). rewrite forallb_forall in Hvp.
    specialize (Hvp p). rewrite <- list_elem_of_In in Hvp.
    eapply bool_decide_eq_true_1, Hvp. by apply elem_of_elements.
Qed.

Lemma session_in_order_witness :
  let api := mkRemote Failed Failed Failed Failed Failed Failed in
  let s := (loadCourse api "c1" (mount emptyStorage)).2 in
  let cs := [Next; Next; Prev; MarkComplete; SidebarTopic 6; Next; Next; Next;
             NextTopic] in
  let s' := default s (play api "c1" cs s) in
  inOrder s' ∧
  topics s' = topics s ∧
  weightedProgress (topics s) (viewedPages s)
    ≤ weightedProgress (topics s') (viewedPages s') ≤ 100.
Proof.
  intros api s cs s'.
  apply (session_in_order api "c1" cs s s').
  - apply inOrderb_sound. vm_compute. reflexivity.
  - vm_compute. reflexivity.
  - vm_compute. reflexivity.
Defined.

Lemma play_mirrors api courseId cs s s' :
  inOrder s → play api courseId cs s = Some s' →
  (viewedMirrored courseId s → viewedMirrored courseId s') ∧
  (completedMirrored courseId s → completedMirrored courseId s').
Proof.
  revert s. induction cs as [|c cs IH]; intros s Hord Hplay;
    cbn [play] in Hplay.
  - by injection Hplay as <-.
  - destruct (offered s c) eqn:Hoff; [|done].
    destruct (dispatch_step api courseId c s Hord Hoff)
      as (_ & Hord1 & _ & _ & Hvm & Hcm & _).
    destruct (IH _ Hord1 Hplay) as [Hvm' Hcm']. split; auto.
Qed.

(** X14. What a session did is there after a reload: from a reader in
    order whose cache mirrors its state, after any session, a reader
    mounted afresh on the storage that the session left restores, once its
    topics are there, the pages viewed and the topics completed exactly as
    the session left them, with progress 100 for every completed topic. *)
Theorem session_survives_reload api courseId cs s s' s0 :
  courseId ≠ "" →
  inOrder s → viewedMirrored courseId s → completedMirrored courseId s →
  play api courseId cs s = Some s' →
  topics s0 ≠ [] → viewedPages s0 = ∅ → completedTopics s0 = ∅ →
  localStorage s0 = localStorage s' →
  let r := loadPersisted courseId s0 in
  completes r = true ∧
  viewedPages r.2 = viewedPages s' ∧
  completedTopics r.2 = completedTopics s' ∧
  ∀ tid, completedTopics s' !! tid = Some true →
         progress r.2 !! tid = Some 100.
Proof.
  intros Hid Hord Hvm Hcm Hplay Hts Hvp0 Hct0 Hls. cbv zeta.
  destruct (play_mirrors api courseId cs s s' Hord Hplay) as [Hvm' Hcm'].
  specialize (Hvm' Hvm). specialize (Hcm' Hcm).
  unfold viewedMirrored, completedMirrored in Hvm', Hcm'.
  rewrite loadPersisted_run by done. rewrite Hls. cbn [fst snd completes].
  destruct (viewedPages_ (localStorage s') !! courseId) as [vitem|];
    destruct (completedTopics_ (localStorage s') !! courseId) as [citem|];
    subst; cbn; rewrite ?sets_of_arrays, ?Hvp0, ?Hct0; split_and!; try done.
  - intros tid Htid. apply lookup_union_Some_l.
    rewrite lookup_fmap, (map_lookup_filter_Some_2 _ _ tid true); done.
  - rewrite Hcm'. intros tid Htid. by rewrite lookup_empty in Htid.
  - intros tid Htid. apply lookup_union_Some_l.
    rewrite lookup_fmap, (map_lookup_filter_Some_2 _ _ tid true); done.
  - rewrite Hcm'. intros tid Htid. by rewrite lookup_empty in Htid.
Qed.

Lemma session_survives_reload_witness :
  let api := mkRemote Failed Failed Failed Failed Failed Failed in
  let s := (loadCourse api "c1" (mount emptyStorage)).2 in
  let cs := [Next; Next; Prev; MarkComplete; SidebarTopic 6; Next; Next; Next;
             NextTopic] in
  let s' := default s (play api "c1" cs s) in
  let s0 := (loadCourse api "c1" (mount (localStorage s'))).2 in
  let r := loadPersisted "c1" s0 in
  completes r = true ∧
  viewedPages r.2 = viewedPages s' ∧
  completedTopics r.2 = completedTopics s' ∧
  ∀ tid, completedTopics s' !! tid = Some true →
         progress r.2 !! tid = Some 100.
Proof.
  intros api s cs s' s0.
  apply (session_survives_reload api "c1" cs s s' s0).
  - discriminate.
  - apply inOrderb_sound. vm_compute. reflexivity.
  - vm_compute. reflexivity.
  - vm_compute. reflexivity.
  - vm_compute. reflexivity.
  - intros H. vm_compute in H. discriminate H.
  - vm_compute. reflexivity.
  - vm_compute. reflexivity.
  - vm_compute. reflexivity.
Defined.

Lemma play_keys api courseId cs s s' :
  inOrder s → play api courseId cs s = Some s' →
  (∀ tid, is_Some (viewedPages s !! tid) → tid ∈ _id <$> topics s) →
  topics s' = topics s ∧
  ∀ tid, is_Some (viewedPages s' !! tid) → tid ∈ _id <$> topics s'.
Proof.
  revert s. induction cs as [|c cs IH]; intros s Hord Hplay Hkeys;
    cbn [play] in Hplay.
  - by injection Hplay as <-.
  - destruct (offered s c) eqn:Hoff; [|done].
    destruct (dispatch_step api courseId c s Hord Hoff)
      as (_ & Hord1 & Hts1 & _ & _ & _ & Hk1).
    destruct (IH _ Hord1 Hplay) as [Hts' Hk'].
    + intros tid H. rewrite Hts1. destruct (Hk1 tid H) as [H0 | H0]; auto.
    + split; [congruence | done].
Qed.

(** ** The application context and the dashboard *)

(** X15. [updateCourseProgress]: the courses with the given id get the
    progress and are flagged as enrolled, the others and the user are left
    alone. The value is then stored under the id in [course_progress],
    beside what was there, whether or not a course has that id. When
    [course_progress] holds a text that does not parse, the call throws
    with the courses already updated and nothing stored. *)
Theorem updateCourseProgress_effect courseId p a :
  let r := App.updateCourseProgress courseId p a in
  App.id <$> App.courses r.2 = App.id <$> App.courses a ∧
  (∀ c, c ∈ App.courses r.2 → App.id c = courseId →
        App.progress c = p ∧ App.isEnrolled c = true) ∧
  (∀ c, App.id c ≠ courseId → c ∈ App.courses r.2 ↔ c ∈ App.courses a) ∧
  App.user r.2 = App.user a ∧
  match r.1 with
  | Done _ =>
      ∃ saved,
        App.parseOrEmpty (App.course_progress (App.store a)) = Done saved ∧
        App.store r.2 =
          App.mkStore (Some (Stored (<[courseId := p]> saved)))
            (App.certificates_unlocked_v1 (App.store a))
  | Thrown =>
      App.store r.2 = App.store a ∧
      ∃ raw, raw ≠ "" ∧
             App.course_progress (App.store a) = Some (Malformed raw)
  end.
Proof.
  cbv zeta. unfold App.updateCourseProgress.
  set (f := λ course, if decide (App.id course = courseId)
                      then App.withProgress p course else course).
  assert (Hcourses :
    App.id <$> (f <$> App.courses a) = App.id <$> App.courses a ∧
    (∀ c, c ∈ f <$> App.courses a → App.id c = courseId →
          App.progress c = p ∧ App.isEnrolled c = true) ∧
    (∀ c, App.id c ≠ courseId →
          c ∈ f <$> App.courses a ↔ c ∈ App.courses a)).
  { split_and!.
    - rewrite <- list_fmap_compose. apply list_fmap_ext.
      intros i c _. unfold f. cbn. by case_decide.
    - intros c Hc Hid. apply list_elem_of_fmap in Hc as (c0 & -> & _).
      unfold f in *. case_decide; [done|]. contradiction.
    - intros c Hid. rewrite list_elem_of_fmap. split.
      + intros (c0 & -> & Hin). unfold f in *. case_decide; [|done].
        cbn in Hid. contradiction.
      + intros Hin. exists c. split; [|done].
        unfold f. by rewrite decide_False. }
  destruct Hcourses as (H1 & H2 & H3).
  destruct (App.course_progress (App.store a)) as [[raw|saved]|] eqn:E;
    cbn [App.parseOrEmpty]; try case_decide; cbn;
    split_and!; try done; eauto.
Qed.

(** X16. Opening a course in the reader enrols it on the dashboard: the
    effect that syncs the weighted progress calls [updateCourseProgress]
    whatever the progress is, so a course of the context with the reader's
    id is listed among the enrolled courses afterwards, and among the
    active ones exactly when the weighted progress lies strictly between 0
    and 100; the counters of the user, which [enrollCourse] raises, stay as
    they are. *)
Theorem reader_enrols_course courseId s a c :
  courseId ≠ "" → c ∈ App.courses a → App.id c = courseId →
  let r := syncProgressEffect courseId s a in
  let p := weightedProgress (topics s) (viewedPages s) in
  App.withProgress p c ∈ Dashboard.enrolledCourses (App.courses r.2) ∧
  (App.withProgress p c ∈ Dashboard.activeCourses (App.courses r.2)
   ↔ 0 < p < 100) ∧
  App.user r.2 = App.user a.
Proof.
  intros Hid Hc Hcid. cbv zeta. unfold syncProgressEffect.
  rewrite decide_False by done.
  set (p := weightedProgress (topics s) (viewedPages s)).
  assert (Hin : App.withProgress p c ∈
                App.courses (App.updateCourseProgress courseId p a).2).
  { unfold App.updateCourseProgress.
    destruct (App.parseOrEmpty _); cbn;
      (apply list_elem_of_fmap; exists c; by rewrite decide_True). }
  assert (Hu : App.user (App.updateCourseProgress courseId p a).2 = App.user a).
  { unfold App.updateCourseProgress. by destruct (App.parseOrEmpty _). }
  destruct (App.updateCourseProgress courseId p a) as [[[]|] a'];
    cbn [snd] in *;
    (split_and!; [| |done]);
    unfold Dashboard.enrolledCourses, Dashboard.activeCourses;
    rewrite list_elem_of_filter; cbn;
    try (split; [reflexivity | exact Hin]);
    (split; [intros [(_ & ? & ?) _]; done | intros [? ?]; split_and!; done]).
Qed.

Lemma reader_enrols_course_witness :
  let c := App.mkCourse "c1" "Options" "A. B." "" "" 1499 0 false "" 8 "" 5 0 in
  let u := App.mkUser "1" "Student" "student@example.com" "" "" 0 0 0 in
  let a := App.mkContext u [c] (App.mkStore None None) in
  let s := (loadCourse (mkRemote Failed Failed Failed Failed Failed Failed)
              "c1" (mount emptyStorage)).2 in
  let r := syncProgressEffect "c1" s a in
  let p := weightedProgress (topics s) (viewedPages s) in
  App.withProgress p c ∈ Dashboard.enrolledCourses (App.courses r.2) ∧
  (App.withProgress p c ∈ Dashboard.activeCourses (App.courses r.2)
   ↔ 0 < p < 100) ∧
  App.user r.2 = App.user a.
Proof.
  intros c u a s.
  apply (reader_enrols_course "c1" s a c);
    [discriminate | left | reflexivity].
Defined.

(** X17. A [course_progress] that does not parse stops the sync effect
    half-way: the exception of [updateCourseProgress] leaves the effect, so
    [overallProgress_<id>] is not written and the storage of the reader is
    as it was, while the courses of the context already carry the new
    progress. *)
Theorem sync_stops_on_malformed_store courseId s a raw :
  courseId ≠ "" → raw ≠ "" →
  App.course_progress (App.store a) = Some (Malformed raw) →
  let r := syncProgressEffect courseId s a in
  r.1.1 = Thrown ∧ r.1.2 = s ∧
  App.store r.2 = App.store a ∧
  ∀ c, c ∈ App.courses r.2 → App.id c = courseId →
       App.progress c = weightedProgress (topics s) (viewedPages s).
Proof.
  intros Hid Hraw Hstore. cbv zeta. unfold syncProgressEffect.
  rewrite decide_False by done. unfold App.updateCourseProgress.
  rewrite Hstore. cbn. rewrite decide_False by done. cbn.
  split_and!; try done.
  intros c Hc Hcid. apply list_elem_of_fmap in Hc as (c0 & -> & _).
  case_decide; [done | contradiction].
Qed.

Lemma sync_stops_on_malformed_store_witness :
  let c := App.mkCourse "c1" "Options" "A. B." "" "" 1499 0 false "" 8 "" 5 0 in
  let u := App.mkUser "1" "Student" "student@example.com" "" "" 0 0 0 in
  let a := App.mkContext u [c] (App.mkStore (Some (Malformed "{")) None) in
  let s := mount emptyStorage in
  let r := syncProgressEffect "c1" s a in
  r.1.1 = Thrown ∧ r.1.2 = s ∧
  App.store r.2 = App.store a ∧
  ∀ c, c ∈ App.courses r.2 → App.id c = "c1" →
       App.progress c = weightedProgress (topics s) (viewedPages s).
Proof.
  intros c u a s.
  apply (sync_stops_on_malformed_store "c1" s a "{");
    [discriminate | discriminate | reflexivity].
Defined.

(** X18. [enrollCourse] counts calls, not courses: calling it again for
    the same course leaves the courses as the first call left them, and
    raises [enrolledCourses] and [activeCourses] of the user once more each
    time, also when no course has the id. *)
Theorem enrollCourse_counts_calls courseId n a :
  let a' := Nat.iter (S n) (App.enrollCourse courseId) a in
  App.courses a' = App.courses (App.enrollCourse courseId a) ∧
  Dashboard.enrolledCourses (App.courses a')
    = Dashboard.enrolledCourses (App.courses (App.enrollCourse courseId a)) ∧
  App.enrolledCourses (App.user a')
    = App.enrolledCourses (App.user a) + Z.of_nat (S n) ∧
  App.activeCourses (App.user a')
    = App.activeCourses (App.user a) + Z.of_nat (S n) ∧
  ((∀ c, c ∈ App.courses a → App.id c ≠ courseId) →
   App.courses a' = App.courses a).
Proof.
  cbv zeta.
  set (f := λ c, if decide (App.id c = courseId) then App.enrolled c else c).
  assert (Hff : ∀ l : list App.Course, f <$> (f <$> l) = f <$> l).
  { intros l. rewrite <- list_fmap_compose. apply list_fmap_ext.
    intros i c _. unfold f. cbn.
    destruct (decide (App.id c = courseId)) as [Heq | Hne].
    - by rewrite decide_True.
    - by rewrite decide_False. }
  assert (Hnone : (∀ c, c ∈ App.courses a → App.id c ≠ courseId) →
                  f <$> App.courses a = App.courses a).
  { intros H. rewrite <- (list_fmap_id (App.courses a)) at 2.
    apply list_fmap_ext. intros i c Hc. unfold f.
    rewrite decide_False; [done|]. eapply H, list_elem_of_lookup_2, Hc. }
  induction n as [|n (IH1 & IH2 & IH3 & IH4 & IH5)].
  - cbn. split_and!; try done; try lia.
  - rewrite Nat.iter_succ.
    set (a1 := Nat.iter (S n) (App.enrollCourse courseId) a) in *.
    cbn [App.enrollCourse App.courses App.user App.enrolledCourses
         App.activeCourses] in *.
    fold f in IH1, IH2, IH5 |- *.
    assert (Hc : f <$> App.courses a1 = f <$> App.courses a)
      by (by rewrite IH1, Hff).
    rewrite Hc, IH3, IH4. split_and!; try done; try lia.
Qed.

(** ** Certificates *)

Lemma unlockedCount_insert (stored : gmap string bool) cid :
  default false (stored !! cid) = false →
  Dashboard.unlockedCount (<[cid := true]> stored)
  = Dashboard.unlockedCount stored + 1.
Proof.
  intros Hno. unfold Dashboard.unlockedCount.
  rewrite map_filter_insert_True by done.
  rewrite map_size_insert_None; [lia|].
  apply map_lookup_filter_None_2.
  destruct (stored !! cid) as [[]|]; [done | right | by left].
  intros x [= <-]. cbn. done.
Qed.

(** The loop of the certificate effect: what is unlocked at its end, the
    count kept in step, and no change flagged without an unlock. *)
Lemma unlock_foldl cs stored count changed :
  let r := foldl Dashboard.unlock (stored, count, changed) cs in
  (∀ cid, r.1.1 !! cid = Some true ↔
          stored !! cid = Some true ∨
          ∃ c, c ∈ cs ∧ App.id c = cid ∧ 100 ≤ App.progress c) ∧
  r.1.2 - Dashboard.unlockedCount r.1.1
    = count - Dashboard.unlockedCount stored ∧
  (r.2 = false → r.1.1 = stored ∧ changed = false).
Proof.
  cbv zeta. revert stored count changed.
  induction cs as [|c cs IH]; intros stored count changed; cbn [foldl].
  - split_and!; try done. intros cid. split; [by left|].
    intros [H | (c & Hc & _)]; [done | by apply elem_of_nil in Hc].
  - replace (Dashboard.unlock (stored, count, changed) c)
      with (if bool_decide (100 ≤ App.progress c)
               && negb (default false (stored !! App.id c))
            then (<[App.id c := true]> stored, count + 1, true)
            else (stored, count, changed)) by reflexivity.
    destruct (bool_decide (100 ≤ App.progress c)
              && negb (default false (stored !! App.id c))) eqn:Hcond.
    + apply andb_true_iff in Hcond as [Hp Hno].
      apply bool_decide_eq_true_1 in Hp. apply negb_true_iff in Hno.
      destruct (IH (<[App.id c := true]> stored) (count + 1) true)
        as (Hiff & Hcount & Hch).
      split_and!.
      * intros cid. rewrite Hiff. split.
        -- intros [Hl | (c' & Hc' & Hid & Hp')].
           ++ apply lookup_insert_Some in Hl as [[<- _] | [_ Hl]];
                [right; exists c; split_and!; [left | done | done] | by left].
           ++ right. exists c'. split_and!; [by right | done | done].
        -- intros [Hl | (c' & Hc' & Hid & Hp')].
           ++ left. destruct (decide (App.id c = cid)) as [<- | Hne].
              ** apply lookup_insert_eq.
              ** by rewrite lookup_insert_ne.
           ++ apply elem_of_cons in Hc' as [-> | Hc'].
              ** left. rewrite <- Hid. apply lookup_insert_eq.
              ** right. by exists c'.
      * pose proof (unlockedCount_insert stored (App.id c) Hno) as Hins.
        etrans; [exact Hcount|]. lia.
      * intros H. by destruct (Hch H).
    + destruct (IH stored count changed) as (Hiff & Hcount & Hch).
      split_and!; [|done..].
      intros cid. rewrite Hiff. split.
      * intros [Hl | (c' & Hc' & Hid & Hp')]; [by left|].
        right. exists c'. split_and!; [by right | done | done].
      * intros [Hl | (c' & Hc' & Hid & Hp')]; [by left|].
        apply elem_of_cons in Hc' as [-> | Hc']; [|right; by exists c'].
        left. apply andb_false_iff in Hcond as [Hp | Hyes].
        -- apply bool_decide_eq_false_1 in Hp. lia.
        -- apply negb_false_iff in Hyes. rewrite Hid in Hyes.
           by destruct (stored !! cid) as [[]|].
Qed.

Lemma certificateEffect_run a stored0 :
  App.courses a ≠ [] →
  App.parseOrEmpty (App.certificates_unlocked_v1 (App.store a)) = Done stored0 →
  let r := foldl Dashboard.unlock
             (stored0, Dashboard.unlockedCount stored0, false)
             (App.courses a) in
  Dashboard.certificateEffect a =
  (Done tt,
   App.setCertificatesEarned r.1.2
     (if r.2
      then App.mkContext (App.user a) (App.courses a)
             (App.mkStore (App.course_progress (App.store a))
                (Some (Stored r.1.1)))
      else a)).
Proof.
  intros Hne Hparse. cbv zeta. unfold Dashboard.certificateEffect.
  destruct (App.courses a) as [|c cs] eqn:Hcs; [done|].
  rewrite Hparse.
  by destruct (foldl _ _ _) as [[stored count] changed].
Qed.

Lemma certificateEffect_fields a stored0 :
  App.courses a ≠ [] →
  App.parseOrEmpty (App.certificates_unlocked_v1 (App.store a)) = Done stored0 →
  let r := foldl Dashboard.unlock
             (stored0, Dashboard.unlockedCount stored0, false)
             (App.courses a) in
  let d := Dashboard.certificateEffect a in
  d.1 = Done tt ∧
  App.parseOrEmpty (App.certificates_unlocked_v1 (App.store d.2))
    = Done r.1.1 ∧
  App.certificatesEarned (App.user d.2) = r.1.2 ∧
  App.courses d.2 = App.courses a ∧
  App.course_progress (App.store d.2) = App.course_progress (App.store a).
Proof.
  intros Hne Hparse. cbv zeta.
  rewrite (certificateEffect_run a stored0) by done.
  destruct (unlock_foldl (App.courses a) stored0
              (Dashboard.unlockedCount stored0) false) as (_ & _ & Hch).
  destruct (foldl _ _ _) as [[stored count] changed]. cbn [fst snd] in *.
  destruct changed; cbn; [done|].
  destruct (Hch eq_refl) as [-> _]. done.
Qed.

(** X19. The certificate effect: with courses in the context and an
    unlock record that parses, it completes; afterwards a certificate is
    unlocked exactly when it was unlocked before or a course with that id
    has progress 100 or more, so no certificate is ever taken back;
    [certificatesEarned] is the number of certificates unlocked in the
    record; the courses and [course_progress] are left alone. *)
Theorem certificateEffect_unlocks a stored0 :
  App.courses a ≠ [] →
  App.parseOrEmpty (App.certificates_unlocked_v1 (App.store a)) = Done stored0 →
  let r := Dashboard.certificateEffect a in
  ∃ stored,
    r.1 = Done tt ∧
    App.parseOrEmpty (App.certificates_unlocked_v1 (App.store r.2))
      = Done stored ∧
    (∀ cid, stored !! cid = Some true ↔
            stored0 !! cid = Some true ∨
            ∃ c, c ∈ App.courses a ∧ App.id c = cid
                 ∧ 100 ≤ App.progress c) ∧
    App.certificatesEarned (App.user r.2) = Dashboard.unlockedCount stored ∧
    App.courses r.2 = App.courses a ∧
    App.course_progress (App.store r.2) = App.course_progress (App.store a).
Proof.
  intros Hne Hparse. cbv zeta.
  destruct (certificateEffect_fields a stored0 Hne Hparse)
    as (Hdone & Hstore & Hearned & Hcs & Hcp).
  destruct (unlock_foldl (App.courses a) stored0
              (Dashboard.unlockedCount stored0) false) as (Hiff & Hcount & _).
  eexists. split_and!; [exact Hdone | exact Hstore | exact Hiff | | done..].
  rewrite Hearned. lia.
Qed.

Lemma certificateEffect_unlocks_witness :
  let c1 := App.mkCourse "c1" "Options" "A. B." "" "" 1499 100 true "" 8 "" 5 0 in
  let c2 := App.mkCourse "c2" "Futures" "A. B." "" "" 999 40 true "" 8 "" 5 0 in
  let u := App.mkUser "1" "Student" "student@example.com" "" "" 2 2 0 in
  let stored0 : gmap string bool := {["c2" := true]} in
  let a := App.mkContext u [c1; c2]
             (App.mkStore None (Some (Stored stored0))) in
  let r := Dashboard.certificateEffect a in
  ∃ stored,
    r.1 = Done tt ∧
    App.parseOrEmpty (App.certificates_unlocked_v1 (App.store r.2))
      = Done stored ∧
    (∀ cid, stored !! cid = Some true ↔
            stored0 !! cid = Some true ∨
            ∃ c, c ∈ App.courses a ∧ App.id c = cid
                 ∧ 100 ≤ App.progress c) ∧
    App.certificatesEarned (App.user r.2) = Dashboard.unlockedCount stored ∧
    App.courses r.2 = App.courses a ∧
    App.course_progress (App.store r.2) = App.course_progress (App.store a).
Proof.
  intros c1 c2 u stored0 a.
  apply (certificateEffect_unlocks a stored0); [discriminate | reflexivity].
Defined.

(** X20. Running the certificate effect again changes nothing: its second
    run completes and leaves the context as the first run left it. *)
Theorem certificateEffect_idempotent a stored0 :
  App.courses a ≠ [] →
  App.parseOrEmpty (App.certificates_unlocked_v1 (App.store a)) = Done stored0 →
  Dashboard.certificateEffect (Dashboard.certificateEffect a).2
  = (Done tt, (Dashboard.certificateEffect a).2).
Proof.
  intros Hne Hparse.
  destruct (certificateEffect_fields a stored0 Hne Hparse)
    as (_ & Hparse1 & Hearned & Hcs1 & _).
  destruct (unlock_foldl (App.courses a) stored0
              (Dashboard.unlockedCount stored0) false) as (Hiff1 & Hcnt & _).
  set (stored := (foldl Dashboard.unlock _ (App.courses a)).1.1) in *.
  assert (Hcount1 : App.certificatesEarned
                      (App.user (Dashboard.certificateEffect a).2)
                    = Dashboard.unlockedCount stored)
    by (rewrite Hearned; lia).
  clear Hearned Hcnt.
  set (a1 := (Dashboard.certificateEffect a).2) in *.
  assert (Hne1 : App.courses a1 ≠ []) by (by rewrite Hcs1).
  rewrite (certificateEffect_run a1 stored) by done.
  destruct (unlock_foldl (App.courses a1) stored
              (Dashboard.unlockedCount stored) false)
    as (Hiff2 & Hcount2 & Hch2).
  assert (Hfix : foldl Dashboard.unlock
                   (stored, Dashboard.unlockedCount stored, false)
                   (App.courses a1)
                 = (stored, Dashboard.unlockedCount stored, false)).
  { assert (Hstay : ∀ c, c ∈ App.courses a1 → 100 ≤ App.progress c →
                         stored !! App.id c = Some true).
    { intros c Hc Hp. apply Hiff1. right. exists c. by rewrite <- Hcs1. }
    clear -Hstay. induction (App.courses a1) as [|c cs IH]; [done|].
    cbn [foldl].
    replace (Dashboard.unlock (stored, Dashboard.unlockedCount stored, false) c)
      with (stored, Dashboard.unlockedCount stored, false).
    { apply IH. intros c' Hc'. apply Hstay. by right. }
    unfold Dashboard.unlock.
    destruct (bool_decide (100 ≤ App.progress c)) eqn:Hp; cbn [andb]; [|done].
    apply bool_decide_eq_true_1 in Hp.
    rewrite (Hstay c) by (done || left). done. }
  rewrite Hfix. cbn [fst snd]. f_equal.
  rewrite <- Hcount1. by destruct a1 as [[] ? ?].
Qed.

Lemma certificateEffect_idempotent_witness :
  let c1 := App.mkCourse "c1" "Options" "A. B." "" "" 1499 100 true "" 8 "" 5 0 in
  let u := App.mkUser "1" "Student" "student@example.com" "" "" 1 1 0 in
  let a := App.mkContext u [c1] (App.mkStore None None) in
  Dashboard.certificateEffect (Dashboard.certificateEffect a).2
  = (Done tt, (Dashboard.certificateEffect a).2).
Proof.
  intros c1 u a.
  apply (certificateEffect_idempotent a ∅); [discriminate | reflexivity].
Defined.

(** X21. From the reader to the certificate: when the weighted progress
    of the reader is 100 and the context has a course with the reader's
    id, the sync effect of the reader, then the certificate effect of the
    dashboard, leave the certificate of that course unlocked, the text 100
    under [overallProgress_<id>] and 100 under the id in [course_progress],
    and at least one certificate earned; provided the two records of the
    context parse. *)
Theorem completed_course_earns_certificate courseId s a c saved stored0 :
  courseId ≠ "" →
  weightedProgress (topics s) (viewedPages s) = 100 →
  c ∈ App.courses a → App.id c = courseId →
  App.parseOrEmpty (App.course_progress (App.store a)) = Done saved →
  App.parseOrEmpty (App.certificates_unlocked_v1 (App.store a)) = Done stored0 →
  let r := syncProgressEffect courseId s a in
  let d := Dashboard.certificateEffect r.2 in
  r.1.1 = Done tt ∧ d.1 = Done tt ∧
  overallProgress_ (localStorage r.1.2) !! courseId = Some "100" ∧
  App.course_progress (App.store d.2)
    = Some (Stored (<[courseId := 100]> saved)) ∧
  (∃ stored,
     App.parseOrEmpty (App.certificates_unlocked_v1 (App.store d.2))
       = Done stored ∧
     stored !! courseId = Some true) ∧
  1 ≤ App.certificatesEarned (App.user d.2).
Proof.
  intros Hid Hwp Hc Hcid Hsaved Hcert. cbv zeta.
  unfold syncProgressEffect. rewrite decide_False by done. rewrite Hwp.
  unfold App.updateCourseProgress. rewrite Hsaved. cbn [fst snd].
  set (a1 := App.mkContext _ _ _).
  assert (Hin : App.withProgress 100 c ∈ App.courses a1).
  { cbn. apply list_elem_of_fmap. exists c. by rewrite decide_True. }
  assert (Hne : App.courses a1 ≠ []).
  { intros H. rewrite H in Hin. by apply elem_of_nil in Hin. }
  destruct (certificateEffect_fields a1 stored0 Hne Hcert)
    as (Hdone & Hparse & Hearned & _ & Hcp).
  destruct (unlock_foldl (App.courses a1) stored0
              (Dashboard.unlockedCount stored0) false) as (Hiff & Hcnt & _).
  set (stored := (foldl Dashboard.unlock _ (App.courses a1)).1.1) in *.
  assert (Hcount : App.certificatesEarned
                     (App.user (Dashboard.certificateEffect a1).2)
                   = Dashboard.unlockedCount stored)
    by (rewrite Hearned; lia).
  assert (Hun : stored !! courseId = Some true).
  { apply Hiff. right. exists (App.withProgress 100 c).
    split_and!; [done | done | cbn; lia]. }
  split_and!; try done.
  - unfold syncProgress. run. rewrite decide_False by done. cbn.
    rewrite Hwp. apply lookup_insert_eq.
  - by exists stored.
  - rewrite Hcount. unfold Dashboard.unlockedCount.
    assert (Hf : filter (λ kv : string * bool, kv.2 = true) stored
                   !! courseId = Some true)
      by (by apply map_lookup_filter_Some_2).
    assert (size (filter (λ kv : string * bool, kv.2 = true) stored) ≠ 0%nat).
    { intros H0. apply map_size_empty_inv in H0. rewrite H0 in Hf.
      by rewrite lookup_empty in Hf. }
    lia.
Qed.

Lemma completed_course_earns_certificate_witness :
  let api := mkRemote Failed Failed Failed Failed Failed Failed in
  let s0 := (loadCourse api "c1" (mount emptyStorage)).2 in
  let s := runCalls api "c1" (MarkTopicComplete <$> (_id <$> topics s0)) s0 in
  let c := App.mkCourse "c1" "Options" "A. B." "" "" 1499 0 false "" 8 "" 5 0 in
  let u := App.mkUser "1" "Student" "student@example.com" "" "" 0 0 0 in
  let a := App.mkContext u [c] (App.mkStore None None) in
  let r := syncProgressEffect "c1" s a in
  let d := Dashboard.certificateEffect r.2 in
  r.1.1 = Done tt ∧ d.1 = Done tt ∧
  overallProgress_ (localStorage r.1.2) !! "c1" = Some "100" ∧
  App.course_progress (App.store d.2)
    = Some (Stored (<["c1" := 100]> ∅)) ∧
  (∃ stored,
     App.parseOrEmpty (App.certificates_unlocked_v1 (App.store d.2))
       = Done stored ∧
     stored !! "c1" = Some true) ∧
  1 ≤ App.certificatesEarned (App.user d.2).
Proof.
  intros api s0 s c u a.
  apply (completed_course_earns_certificate "c1" s a c ∅ ∅).
  - discriminate.
  - vm_compute. reflexivity.
  - left.
  - reflexivity.
  - reflexivity.
  - reflexivity.
Defined.

(** ** One course's reader and the keys of the others *)

Lemma sameAt_refl k ls : sameAt k ls ls.
Proof. by unfold sameAt. Qed.

Lemma sameAt_trans k ls1 ls2 ls3 :
  sameAt k ls1 ls2 → sameAt k ls2 ls3 → sameAt k ls1 ls3.
Proof.
  unfold sameAt. intros (? & ? & ? & ? & ?) (? & ? & ? & ? & ?).
  split_and!; congruence.
Qed.

Lemma keeps_bind {A B} k (m : eff A) (f : A → eff B) :
  keeps k m → (∀ a, keeps k (f a)) → keeps k (m ≫= f).
Proof.
  intros Hm Hf s. cbv [mbind eff_bind]. specialize (Hm s).
  destruct (m s) as [[a|] s1]; cbn [snd] in *; [|done].
  eapply sameAt_trans; [exact Hm | apply Hf].
Qed.

Lemma keeps_try {A} k (m h : eff A) :
  keeps k m → keeps k h → keeps k (try_catch m h).
Proof.
  intros Hm Hh s. unfold try_catch. specialize (Hm s).
  destruct (m s) as [[a|] s1]; cbn [snd] in *; [done|].
  eapply sameAt_trans; [exact Hm | apply Hh].
Qed.

Lemma keeps_pure {A} k (m : eff A) :
  (∀ s, (m s).2 = s) → keeps k m.
Proof. intros H s. rewrite H. apply sameAt_refl. Qed.

Lemma keeps_modify k (f : Reader → Reader) :
  (∀ s, sameAt k (localStorage s) (localStorage (f s))) → keeps k (modify f).
Proof. intros H s. apply H. Qed.

Lemma keeps_await {A} k (r : response A) : keeps k (await r).
Proof. apply keeps_pure. intros s. by destruct r. Qed.

Lemma keeps_parse {A} k (ls : cached A) : keeps k (JSON_parse ls).
Proof. apply keeps_pure. intros s. by destruct ls. Qed.

Ltac keeps_step :=
  first
    [ apply keeps_bind; [|intros ?]
    | apply keeps_try
    | apply keeps_await
    | apply keeps_parse
    | apply keeps_pure; intros ?; reflexivity
    | apply keeps_modify; intros ?; unfold sameAt; cbn;
      rewrite ?lookup_insert_ne by done; done
    | match goal with
      | |- keeps _ (match ?x with _ => _ end) => destruct x
      | |- keeps _ (if ?b then _ else _) => destruct b
      | |- keeps _ (let _ := _ in _) => cbv zeta
      end ].

Ltac keeps_all := repeat keeps_step.

Section OtherKeys.

Variables (api : Remote) (courseId k : string).
Hypothesis Hk : k ≠ courseId.

Lemma keeps_useFallback closure : keeps k (useFallback courseId closure).
Proof using Hk. unfold useFallback. keeps_all. Qed.

Lemma keeps_restoreNotes : keeps k (restoreNotes courseId).
Proof using Hk. unfold restoreNotes. keeps_all. Qed.

Lemma keeps_loadCourse : keeps k (loadCourse api courseId).
Proof using Hk.
  unfold loadCourse. keeps_all;
    first [ apply keeps_useFallback | apply keeps_restoreNotes ].
Qed.

Lemma keeps_loadPersisted : keeps k (loadPersisted courseId).
Proof using Hk. unfold loadPersisted. keeps_all. Qed.

Lemma keeps_applyBookmark closure bm : keeps k (applyBookmark closure bm).
Proof using Hk. unfold applyBookmark. keeps_all. Qed.

Lemma keeps_loadBookmark : keeps k (loadBookmark api courseId).
Proof using Hk.
  unfold loadBookmark. keeps_all; apply keeps_applyBookmark.
Qed.

Lemma keeps_saveBookmark tid p : keeps k (saveBookmark api courseId tid p).
Proof using Hk. unfold saveBookmark. keeps_all. Qed.

Lemma keeps_updateViewedPages f : keeps k (updateViewedPages courseId f).
Proof using Hk. unfold updateViewedPages. keeps_all. Qed.

Lemma keeps_completeTopic tid : keeps k (completeTopic courseId tid).
Proof using Hk. unfold completeTopic. keeps_all. Qed.

Lemma keeps_toast title : keeps k (toast title).
Proof using Hk. unfold toast. keeps_all. Qed.

Lemma keeps_markTopicComplete tid :
  keeps k (markTopicComplete api courseId tid).
Proof using Hk.
  unfold markTopicComplete. keeps_all;
    first [ apply keeps_completeTopic | apply keeps_updateViewedPages
          | apply keeps_toast ].
Qed.

Lemma keeps_pageEffects : keeps k (pageEffects api courseId).
Proof using Hk.
  unfold pageEffects, autoSaveBookmark, trackPage, autoComplete. keeps_all;
    first [ apply keeps_saveBookmark | apply keeps_completeTopic
          | apply keeps_updateViewedPages | apply keeps_toast ].
Qed.

Lemma keeps_dispatch c : keeps k (dispatch api courseId c).
Proof using Hk.
  unfold dispatch, onClick, prevPage, nextPage, nextTopic, selectTopic.
  destruct c; keeps_all;
    first [ apply keeps_markTopicComplete | apply keeps_pageEffects ].
Qed.

Lemma keeps_handleNoteChange tid page text :
  keeps k (handleNoteChange courseId tid page text).
Proof using Hk. unfold handleNoteChange. keeps_all. Qed.

Lemma keeps_syncProgress : keeps k (syncProgress courseId).
Proof using Hk. unfold syncProgress. keeps_all. Qed.

Lemma play_other_keys cs s s' :
  play api courseId cs s = Some s' →
  sameAt k (localStorage s) (localStorage s').
Proof using Hk.
  revert s. induction cs as [|c cs IH]; intros s Hplay; cbn [play] in Hplay.
  - injection Hplay as <-. apply sameAt_refl.
  - destruct (offered s c); [|done].
    eapply sameAt_trans; [apply keeps_dispatch | by apply IH].
Qed.

End OtherKeys.

(** X22. The reader of one course never touches the keys of another: the
    load of the course, of the persisted state and of the bookmark, a click
    with the effects that follow it, a change of a note and the write of
    the overall progress all leave what the storage holds under
    [notes_<k>], [bookmark_<k>], [viewedPages_<k>], [completedTopics_<k>]
    and [overallProgress_<k>] as it was for every other course [k],
    whether they complete or throw. *)
Theorem other_courses_untouched api courseId k :
  k ≠ courseId →
  keeps k (loadCourse api courseId) ∧
  keeps k (loadPersisted courseId) ∧
  keeps k (loadBookmark api courseId) ∧
  (∀ c, keeps k (dispatch api courseId c)) ∧
  (∀ tid page text, keeps k (handleNoteChange courseId tid page text)) ∧
  keeps k (syncProgress courseId).
Proof.
  intros Hk. split_and!.
  - by apply keeps_loadCourse.
  - by apply keeps_loadPersisted.
  - by apply keeps_loadBookmark.
  - intros c. by apply keeps_dispatch.
  - intros tid page text. by apply keeps_handleNoteChange.
  - by apply keeps_syncProgress.
Qed.

Lemma other_courses_untouched_witness :
  let api := mkRemote Failed Failed Failed Failed Failed Failed in
  keeps "c2" (loadCourse api "c1") ∧
  keeps "c2" (loadPersisted "c1") ∧
  keeps "c2" (loadBookmark api "c1") ∧
  (∀ c, keeps "c2" (dispatch api "c1" c)) ∧
  (∀ tid page text, keeps "c2" (handleNoteChange "c1" tid page text)) ∧
  keeps "c2" (syncProgress "c1").
Proof.
  intros api. apply (other_courses_untouched api "c1" "c2"). discriminate.
Defined.

(** ** Hours learned *)

Lemma viewed_fold_total ts (vp : gmap string (gset Z)) :
  NoDup (_id <$> ts) →
  (∀ tid, is_Some (vp !! tid) → tid ∈ _id <$> ts) →
  map_fold (λ _ (pages : gset Z) total, total + size pages)%nat 0%nat vp
  = viewedTotal ts vp.
Proof.
  revert vp. induction ts as [|t ts IH]; intros vp Hnd Hdom.
  - assert (vp = ∅) as ->.
    { apply map_empty. intros tid. apply eq_None_not_Some. intros H.
      apply Hdom in H. by apply elem_of_nil in H. }
    by rewrite map_fold_empty.
  - cbn in Hnd. apply NoDup_cons in Hnd as [Hfresh Hnd].
    assert (Hrest : viewedTotal ts (delete (_id t) vp) = viewedTotal ts vp).
    { unfold viewedTotal. f_equal. apply list_fmap_ext. intros i u Hu. cbn.
      rewrite lookup_delete_ne; [done|]. intros Heq. apply Hfresh.
      rewrite Heq. apply list_elem_of_fmap_2.
      by eapply list_elem_of_lookup_2. }
    assert (Hdom' : ∀ tid, is_Some (delete (_id t) vp !! tid)
                           → tid ∈ _id <$> ts).
    { intros tid [x Hx]. apply lookup_delete_Some in Hx as [Hne Hx].
      assert (Hin : tid ∈ _id <$> t :: ts) by (apply Hdom; eauto).
      cbn in Hin. apply elem_of_cons in Hin as [-> | Hin]; done. }
    change (viewedTotal (t :: ts) vp)
      with (from_option size 0 (vp !! _id t) + viewedTotal ts vp)%nat.
    rewrite <- Hrest, <- (IH _ Hnd Hdom').
    destruct (vp !! _id t) as [pages|] eqn:Hl; cbn.
    + rewrite <- (insert_delete_id vp (_id t) pages) at 1 by done.
      rewrite map_fold_insert_L; [lia | | apply lookup_delete_eq].
      intros. lia.
    + by rewrite delete_id.
Qed.

(** X23. What the dashboard turns into hours is what the reader of the
    course [option-analysis-strategy] has viewed: after a session in that
    reader, started in order with a cache that mirrors the state and pages
    viewed only under ids of topics, [getTotalPagesViewed] is the number of
    pages viewed summed over the topics, the very number that
    [weightedProgress] divides by the page count. *)
Theorem hours_learned_counts_viewed api cs s s' :
  inOrder s →
  viewedMirrored "option-analysis-strategy" s →
  (∀ tid, is_Some (viewedPages s !! tid) → tid ∈ _id <$> topics s) →
  play api "option-analysis-strategy" cs s = Some s' →
  Dashboard.getTotalPagesViewed (localStorage s')
  = Done (viewedTotal (topics s') (viewedPages s')).
Proof.
  intros Hord Hm Hkeys Hplay.
  destruct (play_mirrors api _ cs s s' Hord Hplay) as [Hm' _].
  specialize (Hm' Hm).
  destruct (play_keys api _ cs s s' Hord Hplay Hkeys) as [Hts Hkeys'].
  assert (Hnd : NoDup (_id <$> topics s')) by (rewrite Hts; apply Hord).
  unfold Dashboard.getTotalPagesViewed. unfold viewedMirrored in Hm'.
  destruct (viewedPages_ (localStorage s') !! "option-analysis-strategy")
    as [item|]; cbn.
  - rewrite Hm'. cbn. rewrite map_fold_fmap. f_equal.
    by apply viewed_fold_total.
  - rewrite Hm' in *. rewrite map_fold_empty. f_equal.
    rewrite <- (viewed_fold_total (topics s') ∅) by done.
    by rewrite map_fold_empty.
Qed.

Lemma hours_learned_counts_viewed_witness :
  let api := mkRemote Failed Failed Failed Failed Failed Failed in
  let s := (loadCourse api "option-analysis-strategy"
              (mount emptyStorage)).2 in
  let cs := [Next; Next; MarkComplete; Next] in
  let s' := default s (play api "option-analysis-strategy" cs s) in
  Dashboard.getTotalPagesViewed (localStorage s')
  = Done (viewedTotal (topics s') (viewedPages s')).
Proof.
  intros api s cs s'.
  apply (hours_learned_counts_viewed api cs s s').
  - apply inOrderb_sound. vm_compute. reflexivity.
  - vm_compute. reflexivity.
  - intros tid [pages H]. vm_compute in H. discriminate H.
  - vm_compute. reflexivity.
Defined.

(** X24. The hours of the dashboard ignore every other course: a session
    in the reader of a course other than [option-analysis-strategy] leaves
    [getTotalPagesViewed] as it was. *)
Theorem hours_ignore_other_courses api courseId cs s s' :
  courseId ≠ "option-analysis-strategy" →
  play api courseId cs s = Some s' →
  Dashboard.getTotalPagesViewed (localStorage s')
  = Dashboard.getTotalPagesViewed (localStorage s).
Proof.
  intros Hne Hplay. unfold Dashboard.getTotalPagesViewed.
  assert (Hk : "option-analysis-strategy" ≠ courseId) by done.
  destruct (play_other_keys api courseId _ Hk cs s s' Hplay)
    as (_ & _ & -> & _). done.
Qed.

Lemma hours_ignore_other_courses_witness :
  let api := mkRemote Failed Failed Failed Failed Failed Failed in
  let s := (loadCourse api "c1" (mount emptyStorage)).2 in
  let cs := [Next; Next; MarkComplete; Next] in
  let s' := default s (play api "c1" cs s) in
  Dashboard.getTotalPagesViewed (localStorage s')
  = Dashboard.getTotalPagesViewed (localStorage s).
Proof.
  intros api s cs s'.
  apply (hours_ignore_other_courses api "c1" cs s s').
  - discriminate.
  - vm_compute. reflexivity.
Defined.

(** ** Progress per topic *)

(** X25. The progress that the load effect sets when it falls back: with
    the catalog request failing or returning no course, every fallback
    topic gets an entry, 100 when the reader's [completedTopics] flags the
    topic and 0 otherwise, and no other id gets one; on a reader that has
    just been mounted, whose [completedTopics] is still empty, every entry
    is 0. *)
Theorem fallback_progress api courseId s tid :
  courseId ≠ "" →
  getCourse api = Failed ∨ getCourse api = Returned None →
  progress (loadCourse api courseId s).2 !! tid =
    (if decide (tid ∈ ["t1"; "t2"; "t3"; "t4"; "t5"; "t6"; "t7"; "t8"])
     then Some (if default false (completedTopics s !! tid) then 100 else 0)
     else None) ∧
  (completedTopics s = ∅ →
   ∀ p, progress (loadCourse api courseId s).2 !! tid = Some p → p = 0).
Proof.
  intros Hid Hapi.
  assert (Hp : progress (loadCourse api courseId s).2
               = initialProgress (completedTopics s) buildFallbackTopics).
  { destruct Hapi as [Hc | Hc].
    - rewrite loadCourse_failed_run, restoreNotes_run by done.
      cbn [localStorage set_progress set_topics set_course].
      destruct (notes_ (localStorage s) !! courseId) as [[raw|n]|];
        try case_decide; reflexivity.
    - unfold loadCourse. rewrite decide_False by done. run. rewrite Hc.
      reflexivity. }
  rewrite Hp, initialProgress_entries.
  change (_id <$> buildFallbackTopics)
    with ["t1"; "t2"; "t3"; "t4"; "t5"; "t6"; "t7"; "t8"].
  split; [done|].
  intros Hempty p. rewrite Hempty, lookup_empty. cbn.
  case_decide; [by intros [= <-] | done].
Qed.

Lemma fallback_progress_witness :
  let api := mkRemote Failed Failed Failed Failed Failed Failed in
  let s := set_completedTopics {["t3" := true]} (mount emptyStorage) in
  progress (loadCourse api "c1" s).2 !! "t3" =
    (if decide ("t3" ∈ ["t1"; "t2"; "t3"; "t4"; "t5"; "t6"; "t7"; "t8"])
     then Some (if default false (completedTopics s !! "t3") then 100 else 0)
     else None) ∧
  (completedTopics s = ∅ →
   ∀ p, progress (loadCourse api "c1" s).2 !! "t3" = Some p → p = 0).
Proof.
  intros api s.
  apply (fallback_progress api "c1" s "t3"); [discriminate | by left].
Defined.

Lemma pageEffects_completions api courseId s t :
  activeTopic s = Some t →
  ∀ tid,
    (completedTopics s !! tid = Some true →
     completedTopics (pageEffects api courseId s).2 !! tid = Some true) ∧
    (progress s !! tid = Some 100 →
     progress (pageEffects api courseId s).2 !! tid = Some 100).
Proof.
  intros Ht tid.
  unfold pageEffects, autoSaveBookmark, saveBookmark, trackPage, autoComplete,
    completeTopic, updateViewedPages.
  run. rewrite Ht.
  destruct (postBookmark api); cbn; unfold activeTopic in *; cbn;
    rewrite Ht; cbn; rewrite Ht; cbn;
    case_bool_decide as Hlast; cbn;
    try (case_bool_decide as Hlow; cbn);
    try destruct (postComplete api); cbn;
    (split; [|]);
    try done;
    destruct (decide (_id t = tid)) as [<- | Hne];
    rewrite ?lookup_insert_eq, ?lookup_insert_ne by done; auto.
Qed.

Lemma dispatch_completions api courseId c s :
  inOrder s → offered s c = true →
  ∀ tid,
    (completedTopics s !! tid = Some true →
     completedTopics (dispatch api courseId c s).2 !! tid = Some true) ∧
    (progress s !! tid = Some 100 →
     progress (dispatch api courseId c s).2 !! tid = Some 100).
Proof.
  intros Hord Hoff tid.
  destruct (onClick_step api courseId c s Hord Hoff)
    as (Hc & _ & (t & Ht & _) & _).
  assert (Hclick :
    (completedTopics s !! tid = Some true →
     completedTopics (onClick api courseId c s).2 !! tid = Some true) ∧
    (progress s !! tid = Some 100 →
     progress (onClick api courseId c s).2 !! tid = Some 100)).
  { destruct c as [| | |idx|]; cbn [onClick]; try done.
    cbv [mbind eff_bind get].
    destruct (activeTopic s) as [u|]; [|done].
    destruct (markTopicComplete_run api courseId (_id u) s)
      as (_ & _ & _ & Hpr & Hct & _).
    rewrite Hpr, Hct.
    destruct (decide (_id u = tid)) as [<- | Hne];
      rewrite ?lookup_insert_eq, ?lookup_insert_ne by done; done. }
  unfold dispatch. cbv [mbind eff_bind get].
  unfold completes in Hc.
  destruct (onClick api courseId c s) as [[[]|] s1]; [|done].
  cbn [fst snd] in *.
  case_bool_decide; cbn [skip mret eff_ret fst snd]; [done|].
  destruct (pageEffects_completions api courseId s1 t Ht tid) as [H1 H2].
  destruct Hclick as [Hc1 Hc2]. split; auto.
Qed.

(** X26. Completion is not undone by reading on: along a session (clicks
    on controls that are offered, with the effects that follow them, from a
    reader in order) a topic flagged in [completedTopics] stays flagged, and
    a topic at progress 100 stays at 100. *)
Theorem session_keeps_completions api courseId cs s s' tid :
  inOrder s →
  play api courseId cs s = Some s' →
  (completedTopics s !! tid = Some true →
   completedTopics s' !! tid = Some true) ∧
  (progress s !! tid = Some 100 → progress s' !! tid = Some 100).
Proof.
  revert s. induction cs as [|c cs IH]; intros s Hord Hplay;
    cbn [play] in Hplay.
  - by injection Hplay as <-.
  - destruct (offered s c) eqn:Hoff; [|done].
    destruct (dispatch_step api courseId c s Hord Hoff) as (_ & Hord1 & _).
    destruct (dispatch_completions api courseId c s Hord Hoff tid) as [H1 H2].
    destruct (IH _ Hord1 Hplay) as [H1' H2']. split; auto.
Qed.

Lemma session_keeps_completions_witness :
  let api := mkRemote Failed Failed Failed Failed Failed Failed in
  let s0 := (loadCourse api "c1" (mount emptyStorage)).2 in
  let s := default s0 (play api "c1" [MarkComplete] s0) in
  let cs := [SidebarTopic 0; Next; Next; Prev; SidebarTopic 7; Next] in
  let s' := default s (play api "c1" cs s) in
  (completedTopics s !! "t1" = Some true →
   completedTopics s' !! "t1" = Some true) ∧
  (progress s !! "t1" = Some 100 → progress s' !! "t1" = Some 100).
Proof.
  intros api s0 s cs s'.
  apply (session_keeps_completions api "c1" cs s s' "t1").
  - apply inOrderb_sound. vm_compute. reflexivity.
  - vm_compute. reflexivity.
Defined.
